(** * MoveAccounts: the feature-value Extractor and the account Loader

    A shallow embedding of [load_accounts_to_database.js] and of the
    [INSERT ... SELECT] statement of [load_accounts.sql], together with the
    parts of the JavaScript runtime (strings, [parseInt], [Buffer]) and of
    PostgreSQL (hex [DECODE], [CONVERT_FROM], [SPLIT_PART], the integer cast,
    transaction blocks, [ON CONFLICT DO UPDATE]) that the two programs call.

    Conventions.
    - A JavaScript string is its sequence of UTF-16 code units, a [list N].
      An ASCII text has the same representation as a JavaScript string and as
      a PostgreSQL [text] value in a UTF-8 database (one byte per character),
      which is what lets the two programs be run on the same input.
    - A JavaScript number produced by [parseInt] is [NaN], an infinity, the
      negative zero or a double whose value is an integer; [number] has one
      constructor for each.
    - [console.log], [console.warn] and [console.error] append structured
      events to a console, which every function threads through.
    - An exception is the [Throw] alternative of [completion].
    - [main] gets the file as the rows the CSV parser emits and the way the
      stream ends, or as missing.
    - A row of [temp_move_accounts] has an account id: a row with a NULL
      key is not represented.

    What is taken from outside the repository.
    - The runtime is one in which [Buffer.from(s, 'hex')] truncates at the
      first pair that is not hexadecimal, reading a code unit by its low
      byte, and [toString('utf8')] replaces ill-formed bytes by U+FFFD.
    - The database encoding is UTF-8. Integer input is that of the server:
      decimal up to version 15, with the prefixes [0x], [0o], [0b] and
      underscores from version 16 on; [PG.server] tells the two apart.
    - The pooled client is connected, and only statements fail: a failed
      statement aborts the transaction block it runs in. A statement
      carries at most 65535 parameters.
    - The definition of the target table is not part of the repository. Its
      key column is an integer with a unique index, as [ON CONFLICT
      (account_id)] and the SQL variant require; what else it refuses, and
      the default of [updated_at], are the fields of [Loader.schema]. *)

From Stdlib Require Import List ZArith NArith Bool Lia String Ascii.
From Stdlib Require Import Permutation Sorted.
Import ListNotations.

(** The characters the two programs name, as code units. *)
Abbreviation TAB := 9%N (only parsing).
Abbreviation NEWLINE := 10%N (only parsing).
Abbreviation RETURN := 13%N (only parsing).
Abbreviation SPACE := 32%N (only parsing).
Abbreviation PLUS := 43%N (only parsing).
Abbreviation COMMA := 44%N (only parsing).
Abbreviation MINUS := 45%N (only parsing).
Abbreviation DOT := 46%N (only parsing).
Abbreviation ZERO := 48%N (only parsing).
Abbreviation NINE := 57%N (only parsing).
Abbreviation SEMICOLON := 59%N (only parsing).
Abbreviation UPPER_X := 88%N (only parsing).
Abbreviation LOWER_X := 120%N (only parsing).
Abbreviation PIPE := 124%N (only parsing).
Abbreviation UNDERSCORE := 95%N (only parsing).
Abbreviation UPPER_O := 79%N (only parsing).
Abbreviation LOWER_O := 111%N (only parsing).
Abbreviation UPPER_B := 66%N (only parsing).
Abbreviation LOWER_B := 98%N (only parsing).

(* ================================================================== *)
(** ** The JavaScript runtime                                          *)
(* ================================================================== *)

Module JS.

(** A string value: UTF-16 code units. *)
Definition jsstring := list N.

(** Reading an ASCII literal of this file as a JavaScript string. *)
Fixpoint str (s : string) : jsstring :=
  match s with
  | EmptyString => []
  | String a s' => N_of_ascii a :: str s'
  end.

(** Values that reach the functions below: a CSV field is a string, a
    missing column reads as [undefined]; [null] is the other falsy input the
    guards test for. *)
Inductive value :=
| Undefined
| Null
| Str (s : jsstring).

(** Normal or abrupt completion of a block. *)
Inductive completion (A : Type) :=
| Normal (a : A)
| Throw (message : jsstring).
Arguments Normal {A} a.
Arguments Throw {A} message.

Definition bind {A B} (c : completion A) (k : A -> completion B) : completion B :=
  match c with
  | Normal a => k a
  | Throw m => Throw m
  end.

(** [try { body } catch (error) { handler(error.message) }] *)
Definition try_catch {A} (body : completion A) (handler : jsstring -> A) : A :=
  match body with
  | Normal a => a
  | Throw m => handler m
  end.

(** Numbers that [parseInt] can return. [Int z] is the double whose value
    is the integer [z]. *)
Inductive number :=
| NaN
| Infinity (negative : bool)
| NegZero
| Int (z : Z).

Definition isNaN (n : number) : bool :=
  match n with NaN => true | _ => false end.

(** The mathematical value of a number that has one. *)
Definition number_value (n : number) : option Z :=
  match n with
  | Int z => Some z
  | NegZero => Some 0%Z
  | _ => None
  end.

Local Open Scope N_scope.

Definition between (lo hi c : N) : bool := (lo <=? c) && (c <=? hi).

(** WhiteSpace and LineTerminator code points (ECMA-262, StrWhiteSpaceChar):
    what [trim] removes and what [parseInt] skips. *)
Definition isWhiteSpace (c : N) : bool :=
  between 9 13 c || (c =? 32) || (c =? 160) || (c =? 5760)
  || between 8192 8202 c || (c =? 8232) || (c =? 8233) || (c =? 8239)
  || (c =? 8287) || (c =? 12288) || (c =? 65279).

Fixpoint trimStart (s : jsstring) : jsstring :=
  match s with
  | [] => []
  | c :: s' => if isWhiteSpace c then trimStart s' else s
  end.

Definition trimEnd (s : jsstring) : jsstring := rev (trimStart (rev s)).

(** [String.prototype.trim] *)
Definition trim (s : jsstring) : jsstring := trimEnd (trimStart s).

(** [s.startsWith(c)] for a one-character search string. *)
Definition startsWith (c : N) (s : jsstring) : bool :=
  match s with
  | [] => false
  | d :: _ => d =? c
  end.

(** [s.split(sep)] for a one-character separator: never empty, the empty
    string splits into one empty string. *)
Fixpoint split (sep : N) (s : jsstring) : list jsstring :=
  match s with
  | [] => [[]]
  | c :: s' =>
      if c =? sep then [] :: split sep s'
      else match split sep s' with
           | [] => [[c]]
           | p :: ps => (c :: p) :: ps
           end
  end.

(** *** parseInt *)

(** The value of a code unit as a digit in the given radix. *)
Definition digitValue (radix c : N) : option N :=
  let v := if between 48 57 c then Some (c - 48)
           else if between 97 122 c then Some (c - 87)
           else if between 65 90 c then Some (c - 55)
           else None in
  match v with
  | Some d => if d <? radix then Some d else None
  | None => None
  end.

(** The longest prefix of radix-R digits, as digit values. *)
Fixpoint leadingDigits (radix : N) (s : jsstring) : list N :=
  match s with
  | [] => []
  | c :: s' =>
      match digitValue radix c with
      | Some d => d :: leadingDigits radix s'
      | None => []
      end
  end.

Definition digitsValue (radix : N) (ds : list N) : N :=
  fold_left (fun acc d => acc * radix + d) ds 0.

(** Rounding a natural number to the nearest double, ties to even; [None]
    when the result is beyond the largest finite double. *)
Definition roundToDouble (m : N) : option N :=
  let e := N.size m in
  if e <=? 53 then Some m
  else
    let k := e - 53 in
    let q := N.shiftr m k in
    let r := m - N.shiftl q k in
    let half := N.shiftl 1 (k - 1) in
    let q' := if (half <? r) || ((r =? half) && N.odd q) then q + 1 else q in
    let v := N.shiftl q' k in
    if N.shiftl 1 1024 <=? v then None else Some v.

(** The Number for sign x mathInt (steps 15-16 of parseInt). *)
Definition toNumber (negative : bool) (mathInt : N) : number :=
  if mathInt =? 0 then (if negative then NegZero else Int 0)
  else match roundToDouble mathInt with
       | Some v => Int (if negative then - Z.of_N v else Z.of_N v)
       | None => Infinity negative
       end.

(** The radix and the digits to read: a leading [0x] or [0X] is removed
    and selects radix 16, the radix is 10 otherwise. *)
Definition stripPrefix (s : jsstring) : N * jsstring :=
  match s with
  | c :: x :: s' =>
      if (c =? ZERO) && ((x =? LOWER_X) || (x =? UPPER_X)) then (16, s') else (10, s)
  | _ => (10, s)
  end.

(** [parseInt(string)] with no radix argument, on a string. *)
Definition parseIntString (input : jsstring) : number :=
  let s := trimStart input in
  let negative := startsWith MINUS s in
  let s := if startsWith PLUS s || startsWith MINUS s then tl s else s in
  let '(radix, s) := stripPrefix s in
  match leadingDigits radix s with
  | [] => NaN
  | ds => toNumber negative (digitsValue radix ds)
  end.

(** [ToString] on the values of this model. *)
Definition toString (v : value) : jsstring :=
  match v with
  | Undefined => str "undefined"
  | Null => str "null"
  | Str s => s
  end.

Definition parseInt (v : value) : number := parseIntString (toString v).

(** [!v] *)
Definition falsy (v : value) : bool :=
  match v with
  | Undefined | Null => true
  | Str [] => true
  | Str _ => false
  end.

(** [v || ''] for a field that is a string or missing. *)
Definition orEmpty (v : value) : jsstring :=
  if falsy v then [] else toString v.

(** *** Buffer *)

(** The value of a hexadecimal digit. *)
Definition unhex (c : N) : option N :=
  if between 48 57 c then Some (c - 48)
  else if between 97 102 c then Some (c - 87)
  else if between 65 70 c then Some (c - 55)
  else None.

(** The digit [Buffer] reads in a code unit: the decoder looks the low
    byte of the unit up in its table of hexadecimal digits, so that a unit
    above 255 counts as the character of its low byte. *)
Definition hexValue (c : N) : option N := unhex (c mod 256).

(** The bytes [Buffer.from(s, 'hex')] holds: pairs of hexadecimal digits are
    decoded from the left, and decoding stops at the first pair that is not
    two hexadecimal digits; a trailing single character is dropped ("data
    truncation may occur when decoding strings that do not exclusively
    consist of an even number of hexadecimal characters"). *)
Fixpoint hexDecode (s : jsstring) : list N :=
  match s with
  | a :: b :: rest =>
      match hexValue a, hexValue b with
      | Some x, Some y => (16 * x + y) :: hexDecode rest
      | _, _ => []
      end
  | _ => []
  end.

(** [Buffer.from(s, 'hex')] on a string: it has no abrupt completion (the
    runtimes that threw on a string of odd length predate [async]
    functions, which the script uses). *)
Definition Buffer_from_hex (s : jsstring) : completion (list N) :=
  Normal (hexDecode s).

(** State of the UTF-8 decoder between two bytes: continuation bytes still
    needed, the code point so far (the payload bits of the bytes read), and
    the bounds for the next byte. *)
Record utf8_state := {
  needed : nat;
  code_point : N;
  lower : N;
  upper : N
}.

Definition utf8_init : utf8_state :=
  {| needed := 0; code_point := 0; lower := 128; upper := 191 |}.

Definition replacement : N := 65533.

(** The UTF-16 code units of a code point. *)
Definition utf16 (cp : N) : list N :=
  if cp <? 65536 then [cp]
  else [55296 + (cp - 65536) / 1024; 56320 + (cp - 65536) mod 1024].

(** A byte read when no sequence is pending. *)
Definition utf8_lead (b : N) : list N * utf8_state :=
  if b <=? 127 then ([b], utf8_init)
  else if between 194 223 b then
    ([], {| needed := 1; code_point := b - 192; lower := 128; upper := 191 |})
  else if between 224 239 b then
    ([], {| needed := 2; code_point := b - 224;
            lower := if b =? 224 then 160 else 128;
            upper := if b =? 237 then 159 else 191 |})
  else if between 240 244 b then
    ([], {| needed := 3; code_point := b - 240;
            lower := if b =? 240 then 144 else 128;
            upper := if b =? 244 then 143 else 191 |})
  else ([replacement], utf8_init).

(** One byte of input: the code units it completes and the next state. A
    byte that cannot continue the pending sequence ends it with U+FFFD and
    is then read again as a first byte. *)
Definition utf8_step (st : utf8_state) (b : N) : list N * utf8_state :=
  match needed st with
  | O => utf8_lead b
  | S n =>
      if between (lower st) (upper st) b then
        let cp := code_point st * 64 + (b - 128) in
        match n with
        | O => (utf16 cp, utf8_init)
        | S _ => ([], {| needed := n; code_point := cp; lower := 128; upper := 191 |})
        end
      else
        let '(out, st') := utf8_lead b in (replacement :: out, st')
  end.

Fixpoint utf8_run (st : utf8_state) (bytes : list N) : jsstring :=
  match bytes with
  | [] => match needed st with O => [] | S _ => [replacement] end
  | b :: bytes' =>
      let '(out, st') := utf8_step st b in out ++ utf8_run st' bytes'
  end.

(** [buffer.toString('utf8')]: ill-formed sequences decode to U+FFFD, so
    there is no abrupt completion. *)
Definition toString_utf8 (bytes : list N) : jsstring := utf8_run utf8_init bytes.

End JS.


(* ================================================================== *)
(** ** The Extractor: [extractDeviceKitIds]                            *)
(* ================================================================== *)

Module Extractor.
Import JS.
Local Open Scope N_scope.

(** What the function writes to the console. *)
Inductive event :=
| SkippingPlus (trimmedValue : jsstring)
    (* console.log: Skipping feature_value '...' - starts with '+' *)
| Extracted (deviceKitId : number) (trimmedValue decodedString : jsstring)
    (* console.log: Extracted device_kit_id ... from: ... -> ... *)
| ErrorDecoding (trimmedValue message : jsstring).
    (* console.warn: Error decoding feature_value ...: ... *)

(** The two variables the token loop updates. *)
Record acc := {
  extractedIds : list number;
  console : list event
}.

Definition push (a : acc) (id : number) (e : event) : acc :=
  {| extractedIds := extractedIds a ++ [id]; console := console a ++ [e] |}.

Definition log (a : acc) (e : event) : acc :=
  {| extractedIds := extractedIds a; console := console a ++ [e] |}.

(** [const delimiters = [',', ';', '|', '\n', '\t']] *)
Definition delimiters : list N := [COMMA; SEMICOLON; PIPE; NEWLINE; TAB].

(** The cascading split: every delimiter in turn splits every fragment the
    previous ones left. *)
Definition splitValues (featureValue : jsstring) : list jsstring :=
  fold_left (fun values delimiter => flat_map (split delimiter) values)
            delimiters [trim featureValue].

(** The body of the [try] block for one trimmed token. *)
Definition decodeToken (trimmedValue : jsstring) (a : acc) : completion acc :=
  bind (Buffer_from_hex trimmedValue) (fun buffer =>
  let decodedString := toString_utf8 buffer in
  let parts := split DOT decodedString in
  if (1 <? List.length parts)%nat then
    let deviceKitId := parseIntString (nth 1 parts []) in
    if negb (isNaN deviceKitId) then
      Normal (push a deviceKitId (Extracted deviceKitId trimmedValue decodedString))
    else Normal a
  else Normal a).

(** One iteration of [for (const singleValue of values)]. *)
Definition processValue (a : acc) (singleValue : jsstring) : acc :=
  let trimmedValue := trim singleValue in
  match trimmedValue with
  | [] => a
  | _ =>
      if startsWith PLUS trimmedValue then log a (SkippingPlus trimmedValue)
      else try_catch (decodeToken trimmedValue a)
                     (fun message => log a (ErrorDecoding trimmedValue message))
  end.

(** [extractDeviceKitIds(featureValue)]: the returned array and the console
    output, or the exception that leaves the function. *)
Definition extractDeviceKitIds (featureValue : value) : completion acc :=
  if falsy featureValue then Normal {| extractedIds := []; console := [] |}
  else
    let values := splitValues (toString featureValue) in
    Normal (fold_left processValue values {| extractedIds := []; console := [] |}).

End Extractor.

(* ================================================================== *)
(** ** PostgreSQL: the functions of the decode rule                    *)
(* ================================================================== *)

Module PG.
Local Open Scope N_scope.

(** A [text] or [bytea] value: its bytes (the database encoding is UTF-8). *)
Definition text := list N.

Inductive sql_error :=
| InvalidHexDigit          (* invalid hexadecimal digit *)
| OddHexDigits             (* invalid hexadecimal data: odd number of digits *)
| InvalidByteSequence      (* invalid byte sequence for encoding "UTF8" *)
| InvalidInteger.          (* invalid input syntax for type integer, or
                              value ... is out of range for type integer *)

(** The outcome of evaluating an expression: a value or a raised error. *)
Inductive result (A : Type) :=
| Value (a : A)
| Raise (e : sql_error).
Arguments Value {A} a.
Arguments Raise {A} e.

Definition between (lo hi c : N) : bool := (lo <=? c) && (c <=? hi).

Definition get_hex (c : N) : option N :=
  if between 48 57 c then Some (c - 48)
  else if between 97 102 c then Some (c - 87)
  else if between 65 70 c then Some (c - 55)
  else None.

(** White space that hex input skips between two bytes. *)
Definition hex_space (c : N) : bool :=
  (c =? SPACE) || (c =? NEWLINE) || (c =? TAB) || (c =? RETURN).

(** [DECODE(s, 'hex')] *)
Fixpoint hex_decode (s : text) : result (list N) :=
  match s with
  | [] => Value []
  | c :: s' =>
      if hex_space c then hex_decode s'
      else match get_hex c with
           | None => Raise InvalidHexDigit
           | Some v1 =>
               match s' with
               | [] => Raise OddHexDigits
               | c2 :: s'' =>
                   match get_hex c2 with
                   | None => Raise InvalidHexDigit
                   | Some v2 =>
                       match hex_decode s'' with
                       | Value bs => Value ((16 * v1 + v2) :: bs)
                       | Raise e => Raise e
                       end
                   end
               end
           end
  end.

Definition continuation (c : N) : bool := between 128 191 c.

(** The verification [CONVERT_FROM(bytes, 'UTF8')] applies: well-formed
    UTF-8 (no overlong form, no surrogate, nothing above U+10FFFF) with no
    zero byte. *)
Fixpoint utf8_islegal (bytes : list N) : bool :=
  match bytes with
  | [] => true
  | b :: rest =>
      if b =? 0 then false
      else if b <? 128 then utf8_islegal rest
      else if between 194 223 b then
        match rest with
        | b1 :: rest' => continuation b1 && utf8_islegal rest'
        | _ => false
        end
      else if between 224 239 b then
        match rest with
        | b1 :: b2 :: rest' =>
            between (if b =? 224 then 160 else 128) (if b =? 237 then 159 else 191) b1
            && continuation b2 && utf8_islegal rest'
        | _ => false
        end
      else if between 240 244 b then
        match rest with
        | b1 :: b2 :: b3 :: rest' =>
            between (if b =? 240 then 144 else 128) (if b =? 244 then 143 else 191) b1
            && continuation b2 && continuation b3 && utf8_islegal rest'
        | _ => false
        end
      else false
  end.

(** [CONVERT_FROM(bytes, 'UTF8')] *)
Definition convert_from_utf8 (bytes : list N) : result text :=
  if utf8_islegal bytes then Value bytes else Raise InvalidByteSequence.

(** The text before the first separator. *)
Fixpoint first_field (sep : N) (s : text) : text :=
  match s with
  | [] => []
  | c :: s' => if c =? sep then [] else c :: first_field sep s'
  end.

(** The text after the first separator, when there is one. *)
Fixpoint after_field (sep : N) (s : text) : option text :=
  match s with
  | [] => None
  | c :: s' => if c =? sep then Some s' else after_field sep s'
  end.

(** [SPLIT_PART(s, sep, n)] for a one-character separator and [n >= 1]: the
    n-th field, the empty text when there are fewer. *)
Fixpoint split_part (s : text) (sep : N) (n : nat) : text :=
  match n with
  | O => []
  | S O => first_field sep s
  | S n' =>
      match after_field sep s with
      | None => []
      | Some rest => split_part rest sep n'
      end
  end.

Definition isspace (c : N) : bool := (c =? SPACE) || between TAB RETURN c.
Definition isdigit (c : N) : bool := between ZERO NINE c.

Fixpoint skip_spaces (s : text) : text :=
  match s with
  | [] => []
  | c :: s' => if isspace c then skip_spaces s' else s
  end.

(** The decimal digits at the start of [s], read into [acc], and the rest. *)
Fixpoint read_digits (acc : N) (s : text) : N * text :=
  match s with
  | [] => (acc, [])
  | c :: s' => if isdigit c then read_digits (acc * 10 + (c - ZERO)) s' else (acc, s)
  end.

(** The servers differ in what they read as an integer: up to version 15
    decimal digits only, from version 16 on also the prefixes [0x], [0o]
    and [0b] and underscores between digits. *)
Inductive server :=
| Before16
| From16.

(** The sign before the digits of an integer, and the text after it. *)
Definition sign (s : text) : bool * text :=
  match s with
  | c :: s' =>
      if c =? MINUS then (true, s')
      else if c =? PLUS then (false, s')
      else (false, s)
  | [] => (false, s)
  end.

(** At least one decimal digit, then white space, and a value of 32 bits. *)
Definition decimal_number (neg : bool) (s : text) : result Z :=
  match s with
  | [] => Raise InvalidInteger
  | c :: _ =>
      if isdigit c then
        let '(m, rest) := read_digits 0 s in
        let z := if neg then (- Z.of_N m)%Z else Z.of_N m in
        if ((-2147483648 <=? z) && (z <=? 2147483647))%Z then
          match skip_spaces rest with
          | [] => Value z
          | _ => Raise InvalidInteger
          end
        else Raise InvalidInteger
      else Raise InvalidInteger
  end.

(** [pg_strtoint32], the integer input of the servers before version 16:
    white space, an optional sign, at least one decimal digit, white space,
    and a value of 32 bits. Which of the two errors of the integer input a
    text raises is not told apart. *)
Definition pg_strtoint32 (s : text) : result Z :=
  let '(neg, s) := sign (skip_spaces s) in decimal_number neg s.

Definition decimal_digit (c : N) : option N :=
  if isdigit c then Some (c - ZERO) else None.

Definition octal_digit (c : N) : option N :=
  if between ZERO 55 c then Some (c - ZERO) else None.

Definition binary_digit (c : N) : option N :=
  if between ZERO 49 c then Some (c - ZERO) else None.

Definition is_digit (digit : N -> option N) (c : N) : bool :=
  match digit c with
  | Some _ => true
  | None => false
  end.

(** The digit loop of [pg_strtoint32_safe] in one base: a digit is added
    unless the number read so far is above [2^31 / base]; an underscore
    must be followed by a digit; anything else ends the number. [None] is
    an error. *)
Fixpoint read_number (base : N) (digit : N -> option N) (acc : N) (s : text)
  : option (N * text) :=
  match s with
  | [] => Some (acc, [])
  | c :: s' =>
      match digit c with
      | Some d =>
          if 2147483648 / base <? acc then None
          else read_number base digit (acc * base + d) s'
      | None =>
          if c =? UNDERSCORE then
            match s' with
            | c' :: _ => if is_digit digit c' then read_number base digit acc s' else None
            | [] => None
            end
          else Some (acc, s)
      end
  end.

(** The base the digits of an integer are read in, its digits, whether a
    prefix selected it, and the text after the prefix. *)
Definition number_base (s : text) : N * (N -> option N) * bool * text :=
  match s with
  | c0 :: c1 :: s' =>
      if c0 =? ZERO then
        if (c1 =? LOWER_X) || (c1 =? UPPER_X) then (16, get_hex, true, s')
        else if (c1 =? LOWER_O) || (c1 =? UPPER_O) then (8, octal_digit, true, s')
        else if (c1 =? LOWER_B) || (c1 =? UPPER_B) then (2, binary_digit, true, s')
        else (10, decimal_digit, false, s)
      else (10, decimal_digit, false, s)
  | _ => (10, decimal_digit, false, s)
  end.

(** The digits of an integer in the notations of version 16: hexadecimal
    digits after [0x], octal digits after [0o], binary digits after [0b],
    decimal digits otherwise, with single underscores between digits (and
    after a prefix), then white space, and a value of 32 bits. *)
Definition based_number (neg : bool) (s : text) : result Z :=
  let '(base, digit, prefixed, s) := number_base s in
  match s with
  | [] => Raise InvalidInteger
  | c :: _ =>
      if is_digit digit c || (prefixed && (c =? UNDERSCORE)) then
        match read_number base digit 0 s with
        | None => Raise InvalidInteger
        | Some (m, rest) =>
            match skip_spaces rest with
            | [] =>
                if neg then
                  if 2147483648 <? m then Raise InvalidInteger
                  else Value (- Z.of_N m)%Z
                else
                  if 2147483647 <? m then Raise InvalidInteger
                  else Value (Z.of_N m)
            | _ => Raise InvalidInteger
            end
        end
      else Raise InvalidInteger
  end.

(** [pg_strtoint32_safe], the integer input of the servers from version 16
    on: white space, an optional sign, and a number in one of the four
    bases. *)
Definition pg_strtoint32_safe (s : text) : result Z :=
  let '(neg, s) := sign (skip_spaces s) in based_number neg s.

(** [s::INTEGER] on a server of the given generation. *)
Definition int4in (v : server) (s : text) : result Z :=
  match v with
  | Before16 => pg_strtoint32 s
  | From16 => pg_strtoint32_safe s
  end.

(** [s ~ '^\+'] *)
Definition starts_with_plus (s : text) : bool :=
  match s with
  | c :: _ => c =? PLUS
  | [] => false
  end.

(** The [extensions] expression of the [INSERT ... SELECT]:
    [CASE WHEN feature_value IS NULL OR feature_value = '' OR
               feature_value ~ '^\+' THEN NULL
          ELSE SPLIT_PART(CONVERT_FROM(DECODE(feature_value, 'hex'), 'UTF8'),
                          '.', 2)::INTEGER END].
    [None] is NULL, as argument and as value. *)
Definition extensions_expr (v : server) (feature_value : option text)
  : result (option Z) :=
  match feature_value with
  | None => Value None
  | Some [] => Value None
  | Some fv =>
      if starts_with_plus fv then Value None
      else
        match hex_decode fv with
        | Raise e => Raise e
        | Value bytes =>
            match convert_from_utf8 bytes with
            | Raise e => Raise e
            | Value decoded =>
                match int4in v (split_part decoded DOT 2) with
                | Raise e => Raise e
                | Value z => Value (Some z)
                end
            end
        end
  end.

End PG.

(* ================================================================== *)
(** ** The Loader                                                      *)
(* ================================================================== *)

Module Loader.
Import JS.

(** A row object of the CSV parser: a missing column reads [Undefined]. *)
Record csv_row := {
  row_account_id : value;
  row_emails : value;
  row_phone_numbers : value;
  row_extensions : value
}.

(** [processedRow] *)
Record processedRow := {
  account_id : number;
  emails : jsstring;
  phone_numbers : jsstring;
  extensions : jsstring;
  created_by : jsstring
}.

(** The ['data'] handler of [loadCsvData]. *)
Definition onData (row : csv_row) : processedRow :=
  {| account_id := parseInt (row_account_id row);
     emails := orEmpty (row_emails row);
     phone_numbers := orEmpty (row_phone_numbers row);
     extensions := orEmpty (row_extensions row);
     created_by := str "By system" |}.

(** How the stream of rows ends: ['end'], or ['error'] with its message. *)
Inductive stream_end :=
| End
| Error (message : jsstring).

(** [loadCsvData]: the promise resolves with the records pushed by the
    ['data'] events when the stream ends, and rejects on ['error']. *)
Definition loadCsvData (rows : list csv_row) (ending : stream_end)
  : completion (list processedRow) :=
  let records := fold_left (fun records row => records ++ [onData row]) rows [] in
  match ending with
  | End => Normal records
  | Error message => Throw message
  end.

(** *** The target table *)

(** A column value as the statement supplies it. *)
Inductive cell :=
| CNull
| CInt (z : Z)
| CText (s : jsstring).

(** A row of [customer.esac_account_contacts]. *)
Record TargetRecord := {
  t_account_id : Z;
  t_emails : cell;
  t_phone_numbers : cell;
  t_extensions : cell;
  t_created_by : cell;
  t_updated_at : option Z
}.

(** The table: its rows, in insertion order. *)
Definition table := list TargetRecord.

(** The row proposed for insertion, [EXCLUDED] in the conflict action. *)
Record excluded := {
  e_account_id : Z;
  e_emails : cell;
  e_phone_numbers : cell;
  e_extensions : cell;
  e_created_by : cell
}.

(** What the repository does not contain of the table definition: the
    rows the column types and constraints refuse beyond the integer key,
    and the default of [updated_at] at the current timestamp. *)
Record schema := {
  refuses : excluded -> bool;
  updated_at_default : Z -> option Z
}.

(** [INSERT ... ON CONFLICT (account_id) DO UPDATE SET emails =
    EXCLUDED.emails, phone_numbers = EXCLUDED.phone_numbers, extensions =
    EXCLUDED.extensions, created_by = EXCLUDED.created_by, updated_at =
    CURRENT_TIMESTAMP] for one proposed row. *)
Fixpoint upsert (sch : schema) (now : Z) (e : excluded) (t : table) : table :=
  match t with
  | [] =>
      [ {| t_account_id := e_account_id e;
           t_emails := e_emails e;
           t_phone_numbers := e_phone_numbers e;
           t_extensions := e_extensions e;
           t_created_by := e_created_by e;
           t_updated_at := updated_at_default sch now |} ]
  | r :: t' =>
      if (t_account_id r =? e_account_id e)%Z then
        {| t_account_id := t_account_id r;
           t_emails := e_emails e;
           t_phone_numbers := e_phone_numbers e;
           t_extensions := e_extensions e;
           t_created_by := e_created_by e;
           t_updated_at := Some now |} :: t'
      else r :: upsert sch now e t'
  end.

(** The integer a number parameter is read as by the [account_id] column:
    the driver sends the number's decimal text, and integer input refuses
    ["NaN"], ["Infinity"] and what is out of the 32-bit range. *)
Definition int4_of_number (n : number) : option Z :=
  match n with
  | Int z => if ((-2147483648 <=? z) && (z <=? 2147483647))%Z then Some z else None
  | NegZero => Some 0%Z
  | _ => None
  end.

(** The parameters [$1 .. $5] of one record as a proposed row. *)
Definition bind_record (record : processedRow) : option excluded :=
  match int4_of_number (account_id record) with
  | None => None
  | Some k =>
      Some {| e_account_id := k;
              e_emails := CText (emails record);
              e_phone_numbers := CText (phone_numbers record);
              e_extensions := CText (extensions record);
              e_created_by := CText (created_by record) |}
  end.

Fixpoint bind_records (records : list processedRow) : option (list excluded) :=
  match records with
  | [] => Some []
  | record :: records' =>
      match bind_record record, bind_records records' with
      | Some e, Some es => Some (e :: es)
      | _, _ => None
      end
  end.

Fixpoint distinct_keys (es : list excluded) : bool :=
  match es with
  | [] => true
  | e :: es' =>
      negb (existsb (fun e' => (e_account_id e' =? e_account_id e)%Z) es')
      && distinct_keys es'
  end.

(** One [INSERT ... VALUES r1, ..., rn ON CONFLICT ... DO UPDATE] statement
    on a table: the new table, or [None] when the statement fails, which it
    does with no row ([VALUES] needs one), with a row the table refuses, or
    with two rows of the same key (the conflict action cannot affect a row a
    second time). A failed statement changes nothing. The bound on the
    parameters of a statement is that of [query], where the rows are
    parameters. *)
Definition insert_rows (sch : schema) (now : Z) (es : list excluded) (t : table)
  : option table :=
  match es with
  | [] => None
  | _ =>
      if existsb (refuses sch) es then None
      else if distinct_keys es then
        Some (fold_left (fun t e => upsert sch now e t) es t)
      else None
  end.

(** *** The session of the pooled client *)

Inductive session :=
| Idle
| InTransaction (started : Z) (work : table)
| Aborted.

Record database := {
  committed : table;
  state : session;
  clock : Z
}.

Inductive statement :=
| BEGIN
| COMMIT
| ROLLBACK
| INSERT (records : list processedRow).

Definition with_state (d : database) (s : session) : database :=
  {| committed := committed d; state := s; clock := clock d |}.

(** The parameters of a statement reach the server in one Bind message,
    which counts them in 16 bits: a statement with more than 65535
    parameters, five for each record, is refused. *)
Definition bindable (records : list processedRow) : bool :=
  (5 * N.of_nat (List.length records) <=? 65535)%N.

(** [client.query(statement)]: the database afterwards and the error the
    promise rejects with, if any. Inside a transaction block a failed
    statement aborts the block: every later statement is refused until the
    block ends, and [COMMIT] of an aborted block rolls it back.
    [CURRENT_TIMESTAMP] is the start time of the transaction. *)
Definition query (sch : schema) (st : statement) (d : database)
  : database * option jsstring :=
  match st, state d with
  | BEGIN, Idle => (with_state d (InTransaction (clock d) (committed d)), None)
  | BEGIN, InTransaction _ _ => (d, None)
  | BEGIN, Aborted => (d, Some (str "current transaction is aborted"))
  | COMMIT, InTransaction _ work =>
      ({| committed := work; state := Idle; clock := clock d |}, None)
  | COMMIT, _ => (with_state d Idle, None)
  | ROLLBACK, _ => (with_state d Idle, None)
  | INSERT records, Idle =>
      if negb (bindable records) then
        (d, Some (str "bind message supplies the wrong number of parameters"))
      else
      match bind_records records with
      | None => (d, Some (str "invalid input syntax for type integer"))
      | Some es =>
          match insert_rows sch (clock d) es (committed d) with
          | Some t => ({| committed := t; state := Idle; clock := clock d |}, None)
          | None => (d, Some (str "statement failed"))
          end
      end
  | INSERT records, InTransaction started work =>
      if negb (bindable records) then
        (with_state d Aborted,
         Some (str "bind message supplies the wrong number of parameters"))
      else
      match bind_records records with
      | None => (with_state d Aborted, Some (str "invalid input syntax for type integer"))
      | Some es =>
          match insert_rows sch started es work with
          | Some t => (with_state d (InTransaction started t), None)
          | None => (with_state d Aborted, Some (str "statement failed"))
          end
      end
  | INSERT _, Aborted => (d, Some (str "current transaction is aborted"))
  end.

(** *** The two write strategies *)

Inductive event :=
| ErrorInserting (id : number) (message : jsstring)
    (* console.error: Error inserting record ...: ... *)
| Processed (successCount errorCount : nat)
    (* console.log: Successfully processed ... records (... errors) *)
| BatchInserted (count : nat)
    (* console.log: Successfully batch inserted ... records *)
| ErrorDuringBatch (message : jsstring).
    (* console.error: Error during batch insert: ... *)

(** The database and the console, which the asynchronous functions act on. *)
Record world := {
  db : database;
  console : list event
}.

(** A computation on the world that completes normally or throws. *)
Definition M (A : Type) := world -> world * completion A.

Definition ret {A} (a : A) : M A := fun w => (w, Normal a).

Definition throw {A} (message : jsstring) : M A := fun w => (w, Throw message).

Definition mbind {A B} (m : M A) (k : A -> M B) : M B :=
  fun w =>
    match m w with
    | (w', Normal a) => k a w'
    | (w', Throw message) => (w', Throw message)
    end.

Notation "x <- m ;; k" := (mbind m (fun x => k))
  (at level 61, m at next level, right associativity).
Notation "m ;; k" := (mbind m (fun _ => k))
  (at level 61, right associativity).

(** [try { body } catch (error) { handler }] *)
Definition try_ {A} (body : M A) (handler : jsstring -> M A) : M A :=
  fun w =>
    match body w with
    | (w', Normal a) => (w', Normal a)
    | (w', Throw message) => handler message w'
    end.

Definition print (e : event) : M unit :=
  fun w => ({| db := db w; console := console w ++ [e] |}, Normal tt).

(** [await client.query(...)] *)
Definition client_query (sch : schema) (st : statement) : M unit :=
  fun w =>
    match query sch st (db w) with
    | (d, None) => ({| db := d; console := console w |}, Normal tt)
    | (d, Some message) => ({| db := d; console := console w |}, Throw message)
    end.

(** [successCount] and [errorCount]. *)
Record counts := {
  successCount : nat;
  errorCount : nat
}.

(** The [for (const record of records)] loop of [insertDataToDatabase]. *)
Fixpoint insertEach (sch : schema) (records : list processedRow) (c : counts)
  : M counts :=
  match records with
  | [] => ret c
  | record :: records' =>
      c' <- try_ (client_query sch (INSERT [record]) ;;
                  ret {| successCount := S (successCount c);
                         errorCount := errorCount c |})
                 (fun message =>
                    print (ErrorInserting (account_id record) message) ;;
                    ret {| successCount := successCount c;
                           errorCount := S (errorCount c) |}) ;;
      insertEach sch records' c'
  end.

(** [insertDataToDatabase(records)], on a client the pool has handed out
    ([pool.connect()] has resolved; [client.release()] in the [finally]
    block leaves the database as it is). *)
Definition insertDataToDatabase (sch : schema) (records : list processedRow)
  : M unit :=
  try_ (client_query sch BEGIN ;;
        c <- insertEach sch records {| successCount := 0; errorCount := 0 |} ;;
        client_query sch COMMIT ;;
        print (Processed (successCount c) (errorCount c)))
       (fun message =>
          client_query sch ROLLBACK ;;
          print (ErrorDuringBatch message) ;;
          throw message).

(** [batchInsertDataToDatabase(records)]: one statement with a [VALUES] row
    of five parameters for each record. *)
Definition batchInsertDataToDatabase (sch : schema) (records : list processedRow)
  : M unit :=
  try_ (client_query sch BEGIN ;;
        client_query sch (INSERT records) ;;
        client_query sch COMMIT ;;
        print (BatchInserted (List.length records)))
       (fun message =>
          client_query sch ROLLBACK ;;
          print (ErrorDuringBatch message) ;;
          throw message).

(** *** The SQL variant *)

(** A row of [temp_move_accounts]. *)
Record temp_row := {
  tmp_account_id : Z;
  tmp_feature_value : option PG.text;
  tmp_emails : option PG.text;
  tmp_phone_numbers : option PG.text
}.

Definition text_cell (v : option PG.text) : cell :=
  match v with
  | None => CNull
  | Some s => CText s
  end.

(** One row of the [SELECT] of [load_accounts.sql]. *)
Definition select_row (v : PG.server) (r : temp_row) : PG.result excluded :=
  match PG.extensions_expr v (tmp_feature_value r) with
  | PG.Raise e => PG.Raise e
  | PG.Value ext =>
      PG.Value {| e_account_id := tmp_account_id r;
                  e_extensions := match ext with
                                  | None => CNull
                                  | Some z => CInt z
                                  end;
                  e_emails := text_cell (tmp_emails r);
                  e_phone_numbers := text_cell (tmp_phone_numbers r);
                  e_created_by := CText (str "By system") |}
  end.

End Loader.

(* ================================================================== *)
(** ** Vocabulary of the statements                                    *)
(* ================================================================== *)

Module Vocabulary.
Import JS.
Local Open Scope N_scope.

(** *** The Extractor *)

(** The empty accumulator the token loop starts from. *)
Definition empty : Extractor.acc :=
  {| Extractor.extractedIds := []; Extractor.console := [] |}.

(** One accumulator continued by what another holds. *)
Definition append (a b : Extractor.acc) : Extractor.acc :=
  {| Extractor.extractedIds := Extractor.extractedIds a ++ Extractor.extractedIds b;
     Extractor.console := Extractor.console a ++ Extractor.console b |}.

(** The identifiers and the console output a sequence of split values
    contributes when processed on its own. *)
Definition idsOf (values : list jsstring) : list number :=
  Extractor.extractedIds (fold_left Extractor.processValue values empty).

Definition logOf (values : list jsstring) : list Extractor.event :=
  Extractor.console (fold_left Extractor.processValue values empty).

(** The identifiers the Extractor returns, [None] if it throws. *)
Definition extracted (featureValue : value) : option (list number) :=
  match Extractor.extractDeviceKitIds featureValue with
  | Normal a => Some (Extractor.extractedIds a)
  | Throw _ => None
  end.

Definition isDelimiter (c : N) : bool :=
  existsb (N.eqb c) Extractor.delimiters.

(** Splitting at every code unit that satisfies [p]. *)
Fixpoint splitBy (p : N -> bool) (s : jsstring) : list jsstring :=
  match s with
  | [] => [[]]
  | c :: s' =>
      if p c then [] :: splitBy p s'
      else match splitBy p s' with
           | [] => [[c]]
           | q :: qs => (c :: q) :: qs
           end
  end.

Definition isHexDigit (c : N) : bool :=
  match unhex c with Some _ => true | None => false end.

(** A token written with hexadecimal digits only. *)
Definition hexToken (t : jsstring) : bool :=
  match t with
  | [] => false
  | _ => forallb isHexDigit t
  end.

(** The identifier a hex token encodes: the second [.]-segment of its
    decoded text read as an integer, when there is one. *)
Definition identifierOf (t : jsstring) : option number :=
  let parts := split DOT (toString_utf8 (hexDecode t)) in
  if (1 <? List.length parts)%nat then
    let n := parseIntString (nth 1 parts []) in
    if isNaN n then None else Some n
  else None.

(** A valid token and the integer it encodes. *)
Definition validToken (t : jsstring) (z : Z) : Prop :=
  hexToken t = true /\
  exists n, identifierOf t = Some n /\ number_value n = Some z.

(** A first token followed by tokens that each come after a delimiter. *)
Fixpoint joinTokens (first : jsstring) (more : list (N * jsstring)) : jsstring :=
  match more with
  | [] => first
  | (d, t) :: more' => first ++ d :: joinTokens t more'
  end.

(** *** The decode rule *)

(** What holds of the decoder state between two bytes: the next byte must
    be a continuation byte, and the payload read so far is that of a code
    point above the ASCII range. *)
Definition pending (st : utf8_state) : Prop :=
  128 <= lower st /\
  match needed st with
  | O => True
  | S O => 2 <= code_point st
  | S (S _) => 1 <= code_point st \/ 144 <= lower st
  end.

(** The number a run of decimal digits writes. *)
Definition decimal (digits : list N) : N :=
  fold_left (fun acc c => acc * 10 + (c - ZERO)) digits 0.

(** A feature value with a single token: none of the delimiters of the
    Extractor and no white space that hex input skips. *)
Definition singleValued (s : jsstring) : bool :=
  forallb (fun c => negb (isDelimiter c || PG.hex_space c)) s.

(** The feature value of a row as the Extractor gets it; the SQL rule gets
    the same text, or NULL. *)
Definition asValue (feature_value : option jsstring) : value :=
  match feature_value with
  | None => Null
  | Some s => Str s
  end.

(** The identifiers of the Extractor against the value of the SQL rule:
    NULL and a raised error stand for no identifier, an integer for the
    single identifier of that value. *)
Definition agrees (ids : list number) (sql : PG.result (option Z)) : bool :=
  match sql, ids with
  | PG.Value (Some z), [n] =>
      match number_value n with
      | Some z' => (z' =? z)%Z
      | None => false
      end
  | PG.Value (Some _), _ => false
  | _, [] => true
  | _, _ => false
  end.

(** *** The Loader *)


(** A text that starts, after white space and an optional sign, with a
    run of decimal digits that [parseInt] reads in radix 10: the run ends
    the text or stops at a character that is no digit, and it is not the
    [0] of a prefix [0x] or [0X]. *)
Definition leadingInteger (s : jsstring) (negative : bool) (digits : list N) : Prop :=
  exists ws sg rest,
    s = ws ++ sg ++ digits ++ rest /\
    forallb isWhiteSpace ws = true /\
    ((sg = [] /\ negative = false) \/ (sg = [MINUS] /\ negative = true) \/
     (sg = [PLUS] /\ negative = false)) /\
    digits <> [] /\ forallb (between ZERO NINE) digits = true /\
    match rest with
    | [] => True
    | c :: _ => between ZERO NINE c = false /\
                (digits = [ZERO] -> c <> LOWER_X /\ c <> UPPER_X)
    end.



(** The key a record is stored under, when the key column accepts it. *)
Definition keyOf (record : Loader.processedRow) : option Z :=
  Loader.int4_of_number (Loader.account_id record).

(** A record the storage refuses: its key is not an integer of the column,
    or the table refuses the row. *)
Definition rejected (sch : Loader.schema) (record : Loader.processedRow) : bool :=
  match Loader.bind_record record with
  | None => true
  | Some e => Loader.refuses sch e
  end.

(** The proposed rows of records that all bind; the empty list otherwise. *)
Definition proposed (records : list Loader.processedRow) : list Loader.excluded :=
  match Loader.bind_records records with
  | Some es => es
  | None => []
  end.

Definition keys (t : Loader.table) : list Z := map Loader.t_account_id t.

(** The rows of a table with a given key. *)
Definition rowsOf (k : Z) (t : Loader.table) : list Loader.TargetRecord :=
  filter (fun r => (Loader.t_account_id r =? k)%Z) t.

(** The key and the non-key fields of a stored row are those of a
    proposed row. *)
Definition holds (r : Loader.TargetRecord) (e : Loader.excluded) : Prop :=
  Loader.t_account_id r = Loader.e_account_id e /\
  Loader.t_emails r = Loader.e_emails e /\
  Loader.t_phone_numbers r = Loader.e_phone_numbers e /\
  Loader.t_extensions r = Loader.e_extensions e /\
  Loader.t_created_by r = Loader.e_created_by e.

(** What a load of the proposed row [e] at [now] and the same load again
    at [now2] leave: [t'] after the first load of a table [t], [t''] after
    the second. Keys stay distinct and none is lost; the key of [e] has one
    row, with the fields of [e], stamped by the load when the key was there
    before; the second load adds no key and stamps the row again. *)
Definition idempotent (e : Loader.excluded) (t : Loader.table) (now : Z)
    (t' : Loader.table) (now2 : Z) (t'' : Loader.table) : Prop :=
  NoDup (keys t') /\
  (forall k, In k (keys t) -> In k (keys t')) /\
  (exists row, rowsOf (Loader.e_account_id e) t' = [row] /\ holds row e /\
     (In (Loader.e_account_id e) (keys t) -> Loader.t_updated_at row = Some now)) /\
  keys t'' = keys t' /\
  (exists row, rowsOf (Loader.e_account_id e) t'' = [row] /\ holds row e /\
               Loader.t_updated_at row = Some now2).

(** A sequence of writes, each with the timestamp of its transaction. *)
Definition applyLoads (sch : Loader.schema) (loads : list (Z * Loader.excluded))
    (t : Loader.table) : Loader.table :=
  fold_left (fun t l => Loader.upsert sch (fst l) (snd l) t) loads t.

(** The error of a statement sent to an aborted transaction. *)
Definition aborted_message : jsstring := str "current transaction is aborted".

(** A client fresh from the pool, with the clock at [now]. *)
Definition idle (t : Loader.table) (now : Z) : Loader.database :=
  {| Loader.committed := t; Loader.state := Loader.Idle; Loader.clock := now |}.

(** The world of a fresh client and what the console already shows. *)
Definition fresh (t : Loader.table) (now : Z) (out : list Loader.event) : Loader.world :=
  {| Loader.db := idle t now; Loader.console := out |}.

(** The table after a run. *)
Definition tableAfter (run : Loader.world * completion unit) : Loader.table :=
  Loader.committed (Loader.db (fst run)).

(** *** Sample data *)

(** A table definition that refuses no row and stamps new rows. *)
Definition permissive : Loader.schema :=
  {| Loader.refuses := fun _ => false;
     Loader.updated_at_default := fun now => Some now |}.


(** A stored row with nothing but its key. *)
Definition bare (k : Z) : Loader.TargetRecord :=
  {| Loader.t_account_id := k; Loader.t_emails := Loader.CNull;
     Loader.t_phone_numbers := Loader.CNull; Loader.t_extensions := Loader.CNull;
     Loader.t_created_by := Loader.CNull; Loader.t_updated_at := None |}.

(** A CSV row with the four columns present. *)
Definition csvRow (id mail phone ext : string) : Loader.csv_row :=
  {| Loader.row_account_id := Str (str id);
     Loader.row_emails := Str (str mail);
     Loader.row_phone_numbers := Str (str phone);
     Loader.row_extensions := Str (str ext) |}.

(** Three rows of a sample file; the second has no number for a key. *)
Definition sampleRows : list Loader.csv_row :=
  [ csvRow "850527" "yadav@gmail.com" "18109651265" "48656c6c6f2e343432";
    csvRow "abc" "mithlesh1@gmail.com" "18109661265" "412e35";
    csvRow "844559" "yadavmithlesh122@gmail.com" "18209661265" "412e36" ].

End Vocabulary.

(* ================================================================== *)
(** ** More of the Extractor: what it logs, what it decodes            *)
(* ================================================================== *)

Module Observations.
Import JS.
Local Open Scope N_scope.

(** The identifiers the [Extracted] lines of a console name, in order. *)
Definition loggedIds (console : list Extractor.event) : list number :=
  flat_map (fun e => match e with
                     | Extractor.Extracted id _ _ => [id]
                     | _ => []
                     end) console.

(** What a console line says of the token it is about. *)
Definition justified (e : Extractor.event) : Prop :=
  match e with
  | Extractor.SkippingPlus t => startsWith PLUS t = true
  | Extractor.Extracted id t decoded =>
      startsWith PLUS t = false /\
      decoded = toString_utf8 (hexDecode t) /\
      (1 < List.length (split DOT decoded))%nat /\
      id = parseIntString (nth 1 (split DOT decoded) []) /\
      isNaN id = false
  | Extractor.ErrorDecoding _ _ => False
  end.

(** The number of delimiter characters of a text. *)
Definition delimiterCount (s : jsstring) : nat :=
  List.length (filter Vocabulary.isDelimiter s).

(** The lower-case hexadecimal digit of a value below 16. *)
Definition hexDigit (v : N) : N := if v <? 10 then ZERO + v else 87 + v.

(** The hexadecimal text of bytes, two digits for each. *)
Fixpoint hexEncode (bytes : list N) : jsstring :=
  match bytes with
  | [] => []
  | b :: bytes' => hexDigit (b / 16) :: hexDigit (b mod 16) :: hexEncode bytes'
  end.

(** Bytes, and bytes among which there is no [.]. *)
Definition isByte (b : N) : bool := b <? 256.

Definition dotFree (bytes : list N) : bool :=
  forallb (fun b => isByte b && negb (b =? DOT)) bytes.

(** A run of decimal digits that is not empty. *)
Definition digitRun (ds : list N) : bool :=
  match ds with
  | [] => false
  | _ => forallb (between ZERO NINE) ds
  end.

(** What may follow the digits: nothing, or a [.] and any bytes. *)
Definition segmentTail (tail : list N) : bool :=
  match tail with
  | [] => true
  | c :: tail' => (c =? DOT) && forallb isByte tail'
  end.

(** The upper-case form of a hexadecimal letter; other code units stay. *)
Definition upperHex (c : N) : N := if between 97 102 c then c - 32 else c.

End Observations.

(* ================================================================== *)
(** ** More of the Loader: parameters, verification, [main]            *)
(* ================================================================== *)

Module Parameters.
Import JS Loader.

(** A query parameter as the script passes it. *)
Inductive param :=
| PNumber (n : number)
| PText (s : jsstring).

(** The five parameters of a record, in column order: what
    [insertDataToDatabase] passes for [$1 .. $5] and what
    [batchInsertDataToDatabase] pushes onto [params]. *)
Definition recordParams (record : processedRow) : list param :=
  [ PNumber (account_id record);
    PText (emails record);
    PText (phone_numbers record);
    PText (extensions record);
    PText (created_by record) ].

(** The variables of the loop that prepares the batch: a [VALUES] row is
    kept as the numbers of its five placeholders. *)
Record batch := {
  values : list (list nat);
  params : list param;
  paramIndex : nat
}.

(** One iteration of [for (const record of records)]. *)
Definition addRecord (b : batch) (record : processedRow) : batch :=
  {| values := values b ++ [[ paramIndex b; paramIndex b + 1; paramIndex b + 2;
                              paramIndex b + 3; paramIndex b + 4 ]];
     params := params b ++ recordParams record;
     paramIndex := paramIndex b + 5 |}.

(** The batch values prepared for the records. *)
Definition prepareBatch (records : list processedRow) : batch :=
  fold_left addRecord records {| values := []; params := []; paramIndex := 1 |}.

(** The parameter a placeholder [$k] stands for. *)
Definition placeholder (ps : list param) (k : nat) : option param :=
  match k with
  | O => None
  | S i => nth_error ps i
  end.

End Parameters.

Module Verification.
Import JS Loader.

(** Inserting a row before the first row of a greater key. *)
Fixpoint insertByKey (r : TargetRecord) (sorted : table) : table :=
  match sorted with
  | [] => [r]
  | r' :: sorted' =>
      if (t_account_id r <=? t_account_id r')%Z then r :: sorted
      else r' :: insertByKey r sorted'
  end.

(** [ORDER BY account_id] *)
Definition orderByAccountId (t : table) : table := fold_right insertByKey [] t.

(** The table a statement of the session reads, if the session lets it. *)
Definition visible (d : database) : option table :=
  match state d with
  | Idle => Some (committed d)
  | InTransaction _ work => Some work
  | Aborted => None
  end.

(** The order of [ORDER BY account_id]. *)
Definition byKey (a b : TargetRecord) : Prop :=
  (t_account_id a <= t_account_id b)%Z.

(** [SELECT COUNT( * ) FROM customer.esac_account_contacts] *)
Definition selectCount (d : database) : completion nat :=
  match visible d with
  | Some t => Normal (List.length t)
  | None => Throw Vocabulary.aborted_message
  end.

(** [SELECT eac.* FROM ... ORDER BY account_id LIMIT 5] *)
Definition selectSample (d : database) : completion table :=
  match visible d with
  | Some t => Normal (firstn 5 (orderByAccountId t))
  | None => Throw Vocabulary.aborted_message
  end.

Inductive event :=
| VerificationHeader                      (* console.log: Verification: *)
| TotalRecords (totalCount : nat)         (* console.log: Total records in table: ... *)
| SampleHeader                            (* console.log: Sample records: *)
| SampleRecord (record : TargetRecord)    (* console.log: the record as JSON *)
| ErrorDuringVerification (message : jsstring).
                                          (* console.error: Error during verification: *)

(** [verifyDataInsertion()], on a client the pool has handed out: the two
    queries, then the report; an error of a query is caught and printed. *)
Definition verifyDataInsertion (d : database) (out : list event)
  : database * list event * completion unit :=
  let body :=
    bind (selectCount d) (fun totalCount =>
    bind (selectSample d) (fun rows =>
    Normal ([VerificationHeader; TotalRecords totalCount; SampleHeader]
            ++ map SampleRecord rows))) in
  (d,
   out ++ try_catch body (fun message => [ErrorDuringVerification message]),
   Normal tt).

End Verification.

Module Main.
Import JS Loader.

Inductive event :=
| LoadingData                          (* console.log: Loading data from ... *)
| ProcessingAccount (account_id : value)
                                       (* console.log: Processing account_id ... *)
| LoadedRecords (count : nat)          (* console.log: Loaded ... records from CSV *)
| NoRecords                            (* console.log: No records found in CSV file *)
| UsingBatch                           (* console.log: Using batch insert ... *)
| UsingIndividual                      (* console.log: Using individual insert ... *)
| Insertion (e : Loader.event)
| Verifying (e : Verification.event)
| Completed                            (* console.log: Data migration completed successfully! *)
| ErrorDuringMigration (message : jsstring).
                                       (* console.error: Error during migration: *)

(** How a run of the script ends: the database, what was printed, and the
    exit code (1 from [process.exit(1)], 0 at the normal end). *)
Record outcome := {
  database_after : database;
  printed : list event;
  exit_code : nat
}.

(** What [loadCsvData] prints for a stream of rows. *)
Definition loadingLog (rows : list csv_row) (ending : stream_end) : list event :=
  LoadingData :: map (fun row => ProcessingAccount (row_account_id row)) rows
  ++ match ending with
     | End => [LoadedRecords (List.length rows)]
     | Error _ => []
     end.

(** The [catch] block of [main]. *)
Definition failed (d : database) (out : list event) (message : jsstring) : outcome :=
  {| database_after := d;
     printed := out ++ [ErrorDuringMigration message];
     exit_code := 1 |}.

(** [main()]: [file] is the parsed content of [MoveAccount.csv], [None]
    when the file does not exist. *)
Definition main (sch : schema) (file : option (list csv_row * stream_end))
    (d : database) : outcome :=
  match file with
  | None => failed d [] (str "CSV file not found")
  | Some (rows, ending) =>
      let out := loadingLog rows ending in
      match loadCsvData rows ending with
      | Throw message => failed d out message
      | Normal records =>
          if (List.length records =? 0)%nat then
            {| database_after := d; printed := out ++ [NoRecords]; exit_code := 0 |}
          else
            let '(banner, inserted) :=
              if (100 <? List.length records)%nat
              then (UsingBatch,
                    batchInsertDataToDatabase sch records {| db := d; console := [] |})
              else (UsingIndividual,
                    insertDataToDatabase sch records {| db := d; console := [] |}) in
            let out := out ++ banner :: map Insertion (console (fst inserted)) in
            match snd inserted with
            | Throw message => failed (db (fst inserted)) out message
            | Normal _ =>
                match Verification.verifyDataInsertion (db (fst inserted)) [] with
                | (d', report, Throw message) =>
                    failed d' (out ++ map Verifying report) message
                | (d', report, Normal _) =>
                    {| database_after := d';
                       printed := out ++ map Verifying report ++ [Completed];
                       exit_code := 0 |}
                end
            end
      end
  end.

End Main.

Module Strategy.
Import JS Loader.

(** Every record is accepted by the storage. *)
Definition accepted (sch : schema) (records : list processedRow) : bool :=
  forallb (fun r => negb (Vocabulary.rejected sch r)) records.

(** The records one batch statement can write: at least one and no more
    than its parameters allow (13107 records), all accepted, no two with
    one key. *)
Definition batchable (sch : schema) (records : list processedRow) : bool :=
  match records with
  | [] => false
  | _ => bindable records && accepted sch records
         && distinct_keys (Vocabulary.proposed records)
  end.

(** The table after the accepted records of a run at time [now]. *)
Definition loaded (sch : schema) (now : Z) (records : list processedRow) (t : table)
  : table :=
  Vocabulary.applyLoads sch (map (pair now) (Vocabulary.proposed records)) t.

End Strategy.

Module Script.
Import JS Loader.

(** The records [main] gets from the file: none when the file is missing
    or its stream fails. *)
Definition fileRecords (file : option (list csv_row * stream_end)) : list processedRow :=
  match file with
  | Some (rows, End) => map onData rows
  | _ => []
  end.

(** Whether the strategy [main] picks for the file writes its records. *)
Definition writes (sch : schema) (file : option (list csv_row * stream_end)) : bool :=
  if (100 <? List.length (fileRecords file))%nat
  then Strategy.batchable sch (fileRecords file)
  else Strategy.accepted sch (fileRecords file).

(** Whether [main] ends in its [catch] block: the file is missing, its
    stream fails, or the batch statement fails. *)
Definition fails (sch : schema) (file : option (list csv_row * stream_end)) : bool :=
  match file with
  | Some (rows, End) =>
      (100 <? List.length rows)%nat && negb (Strategy.batchable sch (map onData rows))
  | _ => true
  end.

End Script.

Module Sql.
Import JS Loader.

(** The rows the [SELECT] of [load_accounts.sql] gives for the rows of
    [temp_move_accounts], or the error of a row whose [extensions]
    expression raises. *)
Fixpoint select_rows (v : PG.server) (rows : list temp_row)
  : PG.result (list excluded) :=
  match rows with
  | [] => PG.Value []
  | r :: rows' =>
      match select_row v r, select_rows v rows' with
      | PG.Raise e, _ => PG.Raise e
      | PG.Value _, PG.Raise e => PG.Raise e
      | PG.Value x, PG.Value xs => PG.Value (x :: xs)
      end
  end.

(** [INSERT INTO customer.esac_account_contacts (...) SELECT ... FROM
    temp_move_accounts ON CONFLICT (account_id) DO UPDATE SET ...], a
    statement of its own transaction: the table afterwards, [None] when
    the statement fails. With no row selected it succeeds and writes
    nothing. *)
Definition insert_select (sch : schema) (v : PG.server) (now : Z)
    (rows : list temp_row) (t : table) : option table :=
  match select_rows v rows with
  | PG.Raise _ => None
  | PG.Value [] => Some t
  | PG.Value es => insert_rows sch now es t
  end.

(** The cell the [extensions] column gets from the value of its
    expression. *)
Definition extensions_cell (v : option Z) : cell :=
  match v with
  | None => CNull
  | Some z => CInt z
  end.

End Sql.

(* ================================================================== *)
(** ** Code units                                                      *)
(* ================================================================== *)

(** Comparisons on code units. *)
Lemma between_true (lo hi c : N) :
  JS.between lo hi c = true <-> (lo <= c <= hi)%N.
Proof. unfold JS.between. rewrite andb_true_iff, !N.leb_le. tauto. Qed.

Lemma between_false (lo hi c : N) :
  JS.between lo hi c = false <-> (c < lo \/ hi < c)%N.
Proof. unfold JS.between. rewrite andb_false_iff, !N.leb_gt. tauto. Qed.

Ltac cmp_false :=
  repeat (apply orb_false_intro);
  match goal with
  | |- N.eqb _ _ = false => apply N.eqb_neq; lia
  | |- JS.between _ _ _ = false => apply between_false; lia
  | |- false = false => reflexivity
  end.

(** On a hexadecimal digit [Buffer] reads the digit's value. *)
Lemma hexValue_digit (c v : N) : JS.unhex c = Some v -> JS.hexValue c = Some v.
Proof.
  intros H. unfold JS.hexValue.
  assert (L : (c < 256)%N).
  { unfold JS.unhex in H.
    destruct (JS.between 48 57 c) eqn:A; [apply between_true in A; lia|].
    destruct (JS.between 97 102 c) eqn:B; [apply between_true in B; lia|].
    destruct (JS.between 65 70 c) eqn:C; [apply between_true in C; lia|].
    discriminate. }
  now rewrite (N.mod_small _ _ L).
Qed.

(* ================================================================== *)
(** ** [parseInt] on decimal text                                      *)
(* ================================================================== *)

Section ParseInt.
Import JS Vocabulary.
Local Open Scope N_scope.

Lemma toNumber_notNaN (negative : bool) (m : N) : isNaN (toNumber negative m) = false.
Proof.
  unfold toNumber. destruct (m =? 0)%N; [now destruct negative|].
  now destruct (roundToDouble m).
Qed.

Lemma digitValue_decimal (c : N) :
  between 48 57 c = true -> digitValue 10 c = Some (c - 48).
Proof.
  intros H. unfold digitValue. rewrite H. apply between_true in H.
  assert (((c - 48) <? 10) = true) as -> by (apply N.ltb_lt; lia). reflexivity.
Qed.

(** In radix 10 a letter is no digit. *)
Lemma digitValue_other (c : N) : between 48 57 c = false -> digitValue 10 c = None.
Proof.
  intros H. unfold digitValue. rewrite H.
  destruct (between 97 122 c) eqn:A.
  - apply between_true in A.
    assert (((c - 87) <? 10) = false) as -> by (apply N.ltb_ge; lia). reflexivity.
  - destruct (between 65 90 c) eqn:B; [|reflexivity]. apply between_true in B.
    assert (((c - 55) <? 10) = false) as -> by (apply N.ltb_ge; lia). reflexivity.
Qed.

(** No prefix is removed before a character other than [0], nor before a
    [0] that [x] does not follow. *)
Lemma stripPrefix_decimal (c : N) (s : jsstring) :
  c <> 48 \/ (forall x s', s = x :: s' -> x <> 120 /\ x <> 88) ->
  stripPrefix (c :: s) = (10, c :: s).
Proof.
  intros H. destruct s as [|x s']; [reflexivity|]. simpl.
  destruct H as [H|H].
  - now apply N.eqb_neq in H as ->.
  - destruct (H x s' eq_refl) as [A B].
    assert ((x =? 120) || (x =? 88) = false) as ->
      by (apply orb_false_intro; now apply N.eqb_neq).
    now rewrite andb_false_r.
Qed.

Lemma trimStart_white (ws s : jsstring) :
  forallb isWhiteSpace ws = true -> trimStart (ws ++ s) = trimStart s.
Proof.
  induction ws as [|c ws IH]; [reflexivity|]. simpl.
  intros [Hc Hw]%andb_true_iff. rewrite Hc. now apply IH.
Qed.

Lemma leadingDigits_run (ds rest : jsstring) :
  forallb (between 48 57) ds = true ->
  match rest with [] => True | c :: _ => between 48 57 c = false end ->
  leadingDigits 10 (ds ++ rest) = map (fun c => c - 48) ds.
Proof.
  intros F R. induction ds as [|c ds IH]; cbn [app leadingDigits map].
  - destruct rest as [|c r]; [reflexivity|]. cbn [leadingDigits].
    now rewrite (digitValue_other c R).
  - simpl in F. apply andb_true_iff in F as [Hc Hs].
    rewrite (digitValue_decimal c Hc). now rewrite (IH Hs).
Qed.

Lemma digitsValue_decimal (ds : list N) :
  digitsValue 10 (map (fun c => c - 48) ds) = decimal ds.
Proof.
  unfold digitsValue, decimal. generalize 0.
  induction ds as [|c ds IH]; intros acc; simpl; [reflexivity|apply IH].
Qed.

(** [parseInt] reads the leading integer of a text, whatever follows. *)
Lemma parseIntString_leading (s : jsstring) (negative : bool) (digits : list N) :
  leadingInteger s negative digits ->
  parseIntString s = toNumber negative (decimal digits).
Proof.
  intros (ws & sg & rest & -> & Fw & Sg & Nd & Fd & R). unfold parseIntString.
  rewrite (trimStart_white _ _ Fw).
  destruct digits as [|d ds]; [contradiction|]. clear Nd.
  pose proof Fd as Hd. simpl in Hd. apply andb_true_iff in Hd as [Hd Hds].
  apply between_true in Hd.
  assert (Wd : isWhiteSpace d = false) by (unfold isWhiteSpace; cmp_false).
  assert (P : stripPrefix ((d :: ds) ++ rest) = (10, (d :: ds) ++ rest)).
  { apply stripPrefix_decimal.
    destruct (N.eq_dec d 48) as [->|Nz]; [right|now left]. intros x s' E.
    destruct ds as [|d' ds].
    - simpl in E. subst rest. now apply R.
    - injection E as <- _. simpl in Hds. apply andb_true_iff in Hds as [Hd' _].
      apply between_true in Hd'. lia. }
  assert (L : leadingDigits 10 ((d :: ds) ++ rest) = map (fun c => c - 48) (d :: ds)).
  { apply leadingDigits_run; [exact Fd|]. destruct rest; tauto. }
  assert (T : forall negative',
    (let '(radix, s) := stripPrefix ((d :: ds) ++ rest) in
     match leadingDigits radix s with
     | [] => NaN
     | x :: xs => toNumber negative' (digitsValue radix (x :: xs))
     end) = toNumber negative' (decimal (d :: ds))).
  { intros negative'. rewrite P, L. cbn [map]. now rewrite <- digitsValue_decimal. }
  destruct Sg as [[-> ->]|[[-> ->]|[-> ->]]].
  - cbn [app trimStart]. rewrite Wd. cbn [startsWith].
    assert ((d =? 43) = false) as -> by (apply N.eqb_neq; lia).
    assert ((d =? 45) = false) as -> by (apply N.eqb_neq; lia).
    apply (T false).
  - apply (T true).
  - apply (T false).
Qed.






Lemma size_small (m : N) : m < 2 ^ 53 -> N.size m <= 53.
Proof.
  intros H. destruct (N.eq_dec m 0) as [->|N]; [cbn; lia|].
  rewrite N.size_log2 by exact N. apply N.le_succ_l.
  apply N.log2_lt_pow2; [lia|exact H].
Qed.

(** A natural number below 2^53 is a double, and [toNumber] keeps it. *)
Lemma toNumber_value (negative : bool) (m : N) :
  m < 2 ^ 53 ->
  number_value (toNumber negative m)
  = Some (if negative then - Z.of_N m else Z.of_N m)%Z.
Proof.
  intros H. unfold toNumber. destruct (N.eqb_spec m 0) as [->|N].
  - now destruct negative.
  - unfold roundToDouble. apply size_small in H. apply N.leb_le in H.
    now rewrite H.
Qed.

End ParseInt.

(* ================================================================== *)
(** ** The Extractor: facts and claims                                 *)
(* ================================================================== *)

Section ExtractorFacts.
Import JS Extractor Vocabulary.
Local Open Scope N_scope.

Lemma append_empty_r (a : acc) : append a empty = a.
Proof. destruct a; unfold append; simpl. now rewrite !app_nil_r. Qed.

Lemma append_assoc (a b c : acc) : append (append a b) c = append a (append b c).
Proof. unfold append; simpl. now rewrite !app_assoc. Qed.

Lemma log_append (a : acc) (e : event) : log a e = append a (log empty e).
Proof. unfold log, append; simpl. now rewrite app_nil_r. Qed.

Lemma decodeToken_append (t : jsstring) (a : acc) :
  try_catch (decodeToken t a) (fun m => log a (ErrorDecoding t m))
  = append a (try_catch (decodeToken t empty) (fun m => log empty (ErrorDecoding t m))).
Proof.
  unfold decodeToken, Buffer_from_hex, bind, try_catch.
  destruct (1 <? _)%nat; [destruct (negb _)|];
    now rewrite ?append_empty_r.
Qed.

Lemma processValue_append (a : acc) (v : jsstring) :
  processValue a v = append a (processValue empty v).
Proof.
  unfold processValue.
  destruct (trim v) as [|c t] eqn:E.
  - now rewrite append_empty_r.
  - destruct (startsWith 43 (c :: t)).
    + apply log_append.
    + apply decodeToken_append.
Qed.

Lemma fold_processValue_append (vs : list jsstring) (a : acc) :
  fold_left processValue vs a = append a (fold_left processValue vs empty).
Proof.
  revert a. induction vs as [|v vs IH]; intros a; simpl.
  - now rewrite append_empty_r.
  - rewrite IH, (IH (processValue empty v)), <- append_assoc.
    now rewrite <- processValue_append.
Qed.

Lemma fold_processValue_app (us vs : list jsstring) :
  fold_left processValue (us ++ vs) empty
  = append (fold_left processValue us empty) (fold_left processValue vs empty).
Proof. now rewrite fold_left_app, fold_processValue_append. Qed.

Lemma idsOf_app (us vs : list jsstring) : idsOf (us ++ vs) = idsOf us ++ idsOf vs.
Proof. unfold idsOf. now rewrite fold_processValue_app. Qed.

Lemma logOf_app (us vs : list jsstring) : logOf (us ++ vs) = logOf us ++ logOf vs.
Proof. unfold logOf. now rewrite fold_processValue_app. Qed.

Lemma idsOf_cons (v : jsstring) (vs : list jsstring) :
  idsOf (v :: vs) = idsOf [v] ++ idsOf vs.
Proof. exact (idsOf_app [v] vs). Qed.

Lemma isHexDigit_range (c : N) :
  isHexDigit c = true <-> 48 <= c <= 57 \/ 97 <= c <= 102 \/ 65 <= c <= 70.
Proof.
  unfold isHexDigit, unhex.
  destruct (between 48 57 c) eqn:A; [apply between_true in A; intuition|].
  destruct (between 97 102 c) eqn:B; [apply between_true in B; intuition|].
  destruct (between 65 70 c) eqn:C; [apply between_true in C; intuition|].
  apply between_false in A, B, C. split; [discriminate|lia].
Qed.

Lemma hexDigit_not_white (c : N) : isHexDigit c = true -> isWhiteSpace c = false.
Proof. intros H%isHexDigit_range. unfold isWhiteSpace. cmp_false. Qed.

Lemma hexDigit_not_delimiter (c : N) : isHexDigit c = true -> isDelimiter c = false.
Proof.
  intros H%isHexDigit_range. unfold isDelimiter, delimiters. cbn [existsb].
  cmp_false.
Qed.

Lemma hexDigit_not_plus (c : N) : isHexDigit c = true -> (c =? 43) = false.
Proof. intros H%isHexDigit_range. cmp_false. Qed.

Lemma processValue_notNaN (a : acc) (v : jsstring) :
  Forall (fun n => isNaN n = false) (extractedIds a) ->
  Forall (fun n => isNaN n = false) (extractedIds (processValue a v)).
Proof.
  intros H. unfold processValue.
  destruct (trim v) as [|c t]; [exact H|].
  destruct (startsWith 43 (c :: t)); [exact H|].
  unfold decodeToken, Buffer_from_hex, bind, try_catch.
  destruct (1 <? _)%nat; [|exact H].
  destruct (isNaN (parseIntString _)) eqn:E; simpl; [exact H|].
  apply Forall_app. split; [exact H|]. now constructor.
Qed.

Lemma processValue_no_decoding_error (a : acc) (v t m : jsstring) :
  ~ In (ErrorDecoding t m) (console a) ->
  ~ In (ErrorDecoding t m) (console (processValue a v)).
Proof.
  intros H. unfold processValue.
  destruct (trim v) as [|c r]; [exact H|].
  destruct (startsWith 43 (c :: r)).
  - simpl. rewrite in_app_iff. intros [K|[K|[]]]; [now apply H|discriminate].
  - unfold decodeToken, Buffer_from_hex, bind, try_catch.
    destruct (1 <? _)%nat; [|exact H].
    destruct (negb _); [|exact H].
    simpl. rewrite in_app_iff. intros [K|[K|[]]]; [now apply H|discriminate].
Qed.

Lemma fold_processValue_invariant (P : acc -> Prop) (vs : list jsstring) (a : acc) :
  (forall b v, P b -> P (processValue b v)) ->
  P a -> P (fold_left processValue vs a).
Proof.
  intros step. revert a. induction vs as [|v vs IH]; intros a Ha; simpl; auto.
Qed.

Lemma no_decoding_error_reported (featureValue : value) (a : acc) (t m : jsstring) :
  extractDeviceKitIds featureValue = Normal a -> ~ In (ErrorDecoding t m) (console a).
Proof.
  unfold extractDeviceKitIds. destruct (falsy featureValue); intros E;
    injection E as <-; [intros []|].
  apply fold_processValue_invariant with (P := fun b => ~ In (ErrorDecoding t m) (console b)).
  - intros b v. apply processValue_no_decoding_error.
  - intros [].
Qed.

Lemma processValue_plus (a : acc) (token : jsstring) :
  startsWith 43 (trim token) = true ->
  processValue a token = log a (SkippingPlus (trim token)).
Proof.
  intros H. unfold processValue. destruct (trim token); [discriminate|].
  now rewrite H.
Qed.

End ExtractorFacts.

Section ExtractorClaims.
Import JS Extractor Vocabulary.
Local Open Scope N_scope.

(** C10. [extractDeviceKitIds] is total: on [undefined], [null] and every
    string it completes normally, and no element of the array it returns is
    [NaN]. *)
Theorem extractDeviceKitIds_total (featureValue : value) :
  exists a, extractDeviceKitIds featureValue = Normal a /\
            Forall (fun n => isNaN n = false) (extractedIds a).
Proof.
  unfold extractDeviceKitIds. destruct (falsy featureValue).
  - eexists. split; [reflexivity|constructor].
  - eexists. split; [reflexivity|].
    apply fold_processValue_invariant
      with (P := fun b => Forall (fun n => isNaN n = false) (extractedIds b)).
    + intros b v. apply processValue_notNaN.
    + constructor.
Qed.

(** C8. A split value that begins with [+] once trimmed contributes no
    identifier, whatever follows the [+]: the array holds the identifiers of
    the values before it and after it, and the console holds one
    [Skipping] line for it, between the output of the others. *)
Theorem plus_token_skipped (s : jsstring) (before : list jsstring)
    (token : jsstring) (after : list jsstring) :
  splitValues s = before ++ token :: after ->
  startsWith PLUS (trim token) = true ->
  exists a, extractDeviceKitIds (Str s) = Normal a /\
            extractedIds a = idsOf before ++ idsOf after /\
            console a = logOf before ++ SkippingPlus (trim token) :: logOf after.
Proof.
  intros Hsplit Hplus.
  destruct s as [|c s].
  - exfalso. destruct before as [|b [|b' before]]; try discriminate.
    injection Hsplit as <- _. discriminate.
  - unfold extractDeviceKitIds. cbn [falsy toString]. rewrite Hsplit.
    eexists. split; [reflexivity|].
    rewrite fold_processValue_app. cbn [fold_left].
    rewrite (processValue_plus _ _ Hplus).
    rewrite (fold_processValue_append after (log _ _)).
    unfold idsOf, logOf. simpl. split; reflexivity.
Qed.

Lemma plus_token_skipped_witness :
  exists a, extractDeviceKitIds (Str (str "48,+39")) = Normal a /\
            extractedIds a = idsOf [str "48"] ++ idsOf [] /\
            console a = logOf [str "48"] ++ SkippingPlus (trim (str "+39")) :: logOf [].
Proof.
  apply (plus_token_skipped (str "48,+39") [str "48"] (str "+39") []);
    reflexivity.
Defined.

(** C2. A token that is not hexadecimal throughout is not skipped: the
    bytes decoded before its first invalid pair are used, here to the
    identifier 5, and nothing is reported. The same holds of a token whose
    bytes are not UTF-8. No run of the Extractor ever prints a decoding
    error. *)
Theorem invalid_hex_token_yields_identifier :
  extractDeviceKitIds (Str (str "412e35zz"))
  = Normal {| extractedIds := [Int 5];
              console := [Extracted (Int 5) (str "412e35zz") (str "A.5")] |}
  /\ extracted (Str (str "ff2e37")) = Some [Int 7]
  /\ forall featureValue a t m,
       extractDeviceKitIds featureValue = Normal a ->
       ~ In (ErrorDecoding t m) (console a).
Proof.
  split; [reflexivity|]. split; [reflexivity|].
  intros featureValue a t m E. eapply no_decoding_error_reported; eassumption.
Qed.

End ExtractorClaims.

Section SplitFacts.
Import JS Extractor Vocabulary.
Local Open Scope N_scope.

Lemma splitBy_ext (p q : N -> bool) (s : jsstring) :
  (forall c, p c = q c) -> splitBy p s = splitBy q s.
Proof.
  intros E. induction s as [|c s IH]; simpl; [reflexivity|].
  now rewrite E, IH.
Qed.

Lemma split_splitBy (d : N) (s : jsstring) :
  split d s = splitBy (fun c => c =? d) s.
Proof. induction s as [|c s IH]; simpl; [reflexivity|]. now rewrite IH. Qed.

Lemma splitBy_not_nil (p : N -> bool) (s : jsstring) : splitBy p s <> [].
Proof.
  destruct s as [|c s]; simpl; [discriminate|].
  destruct (p c); [discriminate|]. destruct (splitBy p s); discriminate.
Qed.

(** Splitting every fragment at one more delimiter. *)
Lemma flat_map_split_splitBy (p : N -> bool) (d : N) (s : jsstring) :
  flat_map (split d) (splitBy p s) = splitBy (fun c => p c || (c =? d)) s.
Proof.
  induction s as [|c s IH]; simpl; [reflexivity|].
  destruct (p c) eqn:Pc; simpl.
  - now rewrite IH.
  - rewrite <- IH.
    destruct (splitBy p s) as [|q qs] eqn:Q; [now apply splitBy_not_nil in Q|].
    simpl. destruct (c =? d).
    + reflexivity.
    + pose proof (splitBy_not_nil (fun c => c =? d) q) as N0.
      rewrite <- split_splitBy in N0.
      destruct (split d q); [contradiction|reflexivity].
Qed.

Lemma splitValues_splitBy (s : jsstring) :
  splitValues s = splitBy isDelimiter (trim s).
Proof.
  unfold splitValues, delimiters. cbn [fold_left].
  replace [trim s] with (splitBy (fun _ => false) (trim s)).
  - rewrite !flat_map_split_splitBy. apply splitBy_ext.
    intros c. unfold isDelimiter, delimiters. cbn [existsb].
    now rewrite !orb_false_r, !orb_assoc.
  - generalize (trim s) as t. induction t as [|c t IH]; simpl; [reflexivity|].
    now rewrite IH.
Qed.

Lemma splitBy_none (p : N -> bool) (t : jsstring) :
  forallb (fun c => negb (p c)) t = true -> splitBy p t = [t].
Proof.
  induction t as [|c t IH]; simpl; [reflexivity|].
  intros [Hc Ht]%andb_true_iff. apply negb_true_iff in Hc.
  now rewrite Hc, IH.
Qed.

Lemma splitBy_token (p : N -> bool) (t : jsstring) (d : N) (rest : jsstring) :
  forallb (fun c => negb (p c)) t = true -> p d = true ->
  splitBy p (t ++ d :: rest) = t :: splitBy p rest.
Proof.
  intros Ht Hd. induction t as [|c t IH]; simpl.
  - now rewrite Hd.
  - simpl in Ht. apply andb_true_iff in Ht as [Hc Ht]. apply negb_true_iff in Hc.
    now rewrite Hc, IH.
Qed.

Lemma trimStart_head (c : N) (s : jsstring) :
  isWhiteSpace c = false -> trimStart (c :: s) = c :: s.
Proof. intros H. simpl. now rewrite H. Qed.

Lemma trimEnd_last (s : jsstring) (c : N) :
  isWhiteSpace c = false -> trimEnd (s ++ [c]) = s ++ [c].
Proof.
  intros H. unfold trimEnd. rewrite rev_app_distr. simpl. rewrite H.
  simpl. now rewrite rev_involutive.
Qed.

Lemma hexToken_cons (t : jsstring) :
  hexToken t = true -> exists c r, t = c :: r /\ isHexDigit c = true /\ forallb isHexDigit r = true.
Proof.
  destruct t as [|c r]; [discriminate|]. unfold hexToken.
  intros [Hc Hr]%andb_true_iff. eauto.
Qed.

Lemma hexToken_snoc (t : jsstring) :
  hexToken t = true -> exists r c, t = r ++ [c] /\ isHexDigit c = true.
Proof.
  intros H. destruct (hexToken_cons _ H) as (c & r & -> & Hc & Hr).
  destruct (exists_last (l := c :: r)) as (r' & c' & E); [discriminate|].
  exists r', c'. split; [exact E|].
  assert (A : forallb isHexDigit (c :: r) = true) by (simpl; now rewrite Hc, Hr).
  rewrite E, forallb_app in A. apply andb_true_iff in A as [_ A].
  simpl in A. now rewrite andb_true_r in A.
Qed.

Lemma hexToken_forallb (t : jsstring) : hexToken t = true -> forallb isHexDigit t = true.
Proof. destruct t; [discriminate|trivial]. Qed.

Lemma hexToken_no_delimiter (t : jsstring) :
  hexToken t = true -> forallb (fun c => negb (isDelimiter c)) t = true.
Proof.
  intros H%hexToken_forallb. rewrite forallb_forall in *. intros c Hc.
  now rewrite (hexDigit_not_delimiter _ (H c Hc)).
Qed.

Lemma trim_hexToken (t : jsstring) : hexToken t = true -> trim t = t.
Proof.
  intros H. unfold trim.
  destruct (hexToken_cons _ H) as (c & r & -> & Hc & _).
  rewrite (trimStart_head _ _ (hexDigit_not_white _ Hc)).
  destruct (hexToken_snoc _ H) as (r' & c' & -> & Hc').
  now apply trimEnd_last, hexDigit_not_white.
Qed.

(** Tokens joined by delimiters: the cascading split gives the tokens back. *)
Lemma joinTokens_shape (first : jsstring) (more : list (N * jsstring)) :
  hexToken first = true ->
  Forall (fun p => hexToken (snd p) = true) more ->
  (exists c r, joinTokens first more = c :: r /\ isHexDigit c = true) /\
  (exists r c, joinTokens first more = r ++ [c] /\ isHexDigit c = true).
Proof.
  intros Hf Hm. split.
  - destruct (hexToken_cons _ Hf) as (c & r & -> & Hc & _).
    destruct more as [|[d t] more]; simpl; eauto.
  - revert first Hf. induction Hm as [|[d t] more Ht _ IH]; intros first Hf; simpl.
    + now apply hexToken_snoc.
    + destruct (IH t Ht) as (r & c & E & Hc). rewrite E.
      exists (first ++ d :: r), c. split; [|exact Hc].
      now rewrite <- app_assoc.
Qed.

Lemma trim_joinTokens (first : jsstring) (more : list (N * jsstring)) :
  hexToken first = true ->
  Forall (fun p => hexToken (snd p) = true) more ->
  trim (joinTokens first more) = joinTokens first more.
Proof.
  intros Hf Hm. destruct (joinTokens_shape _ _ Hf Hm) as [(c & r & E & Hc) (r' & c' & E' & Hc')].
  unfold trim. rewrite E, (trimStart_head _ _ (hexDigit_not_white _ Hc)), <- E, E'.
  now apply trimEnd_last, hexDigit_not_white.
Qed.

Lemma splitBy_joinTokens (first : jsstring) (more : list (N * jsstring)) :
  hexToken first = true ->
  Forall (fun p => hexToken (snd p) = true) more ->
  Forall (fun p => isDelimiter (fst p) = true) more ->
  splitBy isDelimiter (joinTokens first more) = first :: map snd more.
Proof.
  intros Hf Hm. revert first Hf.
  induction Hm as [|[d t] more Ht _ IH]; intros first Hf Hd; simpl.
  - now apply splitBy_none, hexToken_no_delimiter.
  - inversion Hd as [|? ? Hd1 Hd2]; subst. simpl in *.
    rewrite splitBy_token; [|now apply hexToken_no_delimiter|exact Hd1].
    now rewrite IH.
Qed.

Lemma idsOf_validToken (t : jsstring) (n : number) :
  hexToken t = true -> identifierOf t = Some n -> idsOf [t] = [n].
Proof.
  intros H E. unfold idsOf. simpl. unfold processValue.
  rewrite (trim_hexToken _ H).
  destruct (hexToken_cons _ H) as (c & r & -> & Hc & _).
  cbn [startsWith]. rewrite (hexDigit_not_plus _ Hc).
  unfold identifierOf in E.
  unfold decodeToken, Buffer_from_hex, bind, try_catch.
  destruct (1 <? _)%nat; [|discriminate].
  destruct (isNaN _); [discriminate|]. now injection E as <-.
Qed.

End SplitFacts.

Section TokenSequences.
Import JS Extractor Vocabulary.
Local Open Scope N_scope.

Lemma idsOf_validTokens (ts : list jsstring) (zs : list Z) :
  Forall2 validToken ts zs -> map number_value (idsOf ts) = map Some zs.
Proof.
  induction 1 as [|t z ts zs [Ht (n & En & Ez)] _ IH]; [reflexivity|].
  rewrite idsOf_cons, (idsOf_validToken _ _ Ht En). simpl. now rewrite Ez, IH.
Qed.

Lemma validTokens_hex (ts : list jsstring) (zs : list Z) :
  Forall2 validToken ts zs -> Forall (fun t => hexToken t = true) ts.
Proof. induction 1 as [|t z ts zs [Ht _] _ IH]; constructor; assumption. Qed.

(** C9. Valid hex tokens joined by any mixture of the five delimiters: the
    cascading split gives the tokens back in order, and the array returned
    holds exactly the integer of each token, in token order, duplicates
    kept. An absent or empty field gives the empty array. *)
Theorem tokens_extracted_in_order (first : jsstring) (more : list (N * jsstring))
    (zs : list Z) :
  Forall (fun p => isDelimiter (fst p) = true) more ->
  Forall2 validToken (first :: map snd more) zs ->
  splitValues (joinTokens first more) = first :: map snd more /\
  (exists a, extractDeviceKitIds (Str (joinTokens first more)) = Normal a /\
             map number_value (extractedIds a) = map Some zs) /\
  extractDeviceKitIds Undefined = Normal empty /\
  extractDeviceKitIds Null = Normal empty /\
  extractDeviceKitIds (Str []) = Normal empty.
Proof.
  intros Hd Hv.
  pose proof (validTokens_hex _ _ Hv) as Hh. inversion Hh as [|? ? Hf Hm]; subst.
  assert (Hm' : Forall (fun p : N * jsstring => hexToken (snd p) = true) more)
    by (now apply Forall_map in Hm).
  assert (Hs : splitValues (joinTokens first more) = first :: map snd more)
    by (rewrite splitValues_splitBy, trim_joinTokens by assumption;
        now apply splitBy_joinTokens).
  split; [exact Hs|]. split; [|repeat split].
  destruct (joinTokens_shape _ _ Hf Hm') as [(c & r & E & _) _].
  unfold extractDeviceKitIds. cbn [toString]. rewrite Hs. rewrite E. cbn [falsy].
  eexists. split; [reflexivity|]. now apply idsOf_validTokens.
Qed.

Lemma tokens_extracted_in_order_witness :
  splitValues (str "412e35;412e36|412e35")
  = [str "412e35"; str "412e36"; str "412e35"] /\
  (exists a, extractDeviceKitIds (Str (str "412e35;412e36|412e35")) = Normal a /\
             map number_value (extractedIds a) = [Some 5%Z; Some 6%Z; Some 5%Z]) /\
  extractDeviceKitIds Undefined = Normal empty /\
  extractDeviceKitIds Null = Normal empty /\
  extractDeviceKitIds (Str []) = Normal empty.
Proof.
  apply (tokens_extracted_in_order (str "412e35")
           [(59, str "412e36"); (124, str "412e35")] [5; 6; 5]%Z).
  - repeat constructor.
  - repeat constructor; try (exists (Int 5); split; reflexivity);
      exists (Int 6); split; reflexivity.
Defined.

End TokenSequences.

(* ================================================================== *)
(** ** The Loader: facts and claims                                    *)
(* ================================================================== *)

Section TableFacts.
Import JS Loader Vocabulary.
Variable sch : schema.

Lemma rowsOf_absent (k : Z) (t : table) : ~ In k (keys t) -> rowsOf k t = [].
Proof.
  induction t as [|r t IH]; simpl; [reflexivity|]. intros H.
  destruct (Z.eqb_spec (t_account_id r) k) as [E|E]; [tauto|]. apply IH. tauto.
Qed.

Lemma keys_upsert (now : Z) (e : excluded) (t : table) :
  keys (upsert sch now e t)
  = if in_dec Z.eq_dec (e_account_id e) (keys t) then keys t
    else keys t ++ [e_account_id e].
Proof.
  induction t as [|r t IH]; simpl; [reflexivity|].
  destruct (Z.eqb_spec (t_account_id r) (e_account_id e)) as [E|E]; simpl.
  - destruct (Z.eq_dec (t_account_id r) (e_account_id e)); [reflexivity|contradiction].
  - rewrite IH. destruct (Z.eq_dec (t_account_id r) (e_account_id e)); [contradiction|].
    now destruct (in_dec Z.eq_dec (e_account_id e) (keys t)).
Qed.

(** No row is deleted. *)
Lemma keys_upsert_incl (now : Z) (e : excluded) (t : table) (k : Z) :
  In k (keys t) -> In k (keys (upsert sch now e t)).
Proof.
  rewrite keys_upsert. destruct (in_dec _ _ _); [trivial|].
  intros H. apply in_or_app. now left.
Qed.

Lemma keys_upsert_key (now : Z) (e : excluded) (t : table) :
  In (e_account_id e) (keys (upsert sch now e t)).
Proof.
  rewrite keys_upsert. destruct (in_dec _ _ _); [trivial|].
  apply in_or_app. right. now left.
Qed.

(** No duplicate row is created. *)
Lemma NoDup_keys_upsert (now : Z) (e : excluded) (t : table) :
  NoDup (keys t) -> NoDup (keys (upsert sch now e t)).
Proof.
  intros H. rewrite keys_upsert. destruct (in_dec _ _ _) as [|N]; [trivial|].
  apply NoDup_app; [exact H|repeat constructor; intros []|].
  intros k Hk [<-|[]]. contradiction.
Qed.

Lemma rowsOf_upsert_other (now : Z) (e : excluded) (t : table) (k : Z) :
  k <> e_account_id e -> rowsOf k (upsert sch now e t) = rowsOf k t.
Proof.
  intros Hk. induction t as [|r t IH]; simpl.
  - destruct (Z.eqb_spec (e_account_id e) k); [congruence|reflexivity].
  - destruct (Z.eqb_spec (t_account_id r) (e_account_id e)) as [E|E]; simpl.
    + destruct (Z.eqb_spec (t_account_id r) k); [congruence|reflexivity].
    + now rewrite IH.
Qed.

(** The row of the key afterwards: the proposed fields, and the current
    timestamp when the key was there before. *)
Lemma rowsOf_upsert_same (now : Z) (e : excluded) (t : table) :
  NoDup (keys t) ->
  exists r, rowsOf (e_account_id e) (upsert sch now e t) = [r] /\ holds r e /\
            t_updated_at r = if in_dec Z.eq_dec (e_account_id e) (keys t)
                             then Some now else updated_at_default sch now.
Proof.
  induction t as [|r t IH]; simpl; intros ND.
  - rewrite Z.eqb_refl. eexists. split; [reflexivity|]. now repeat split.
  - inversion ND as [|? ? Hr ND']; subst.
    destruct (Z.eqb_spec (t_account_id r) (e_account_id e)) as [E|E]; simpl.
    + rewrite E in Hr |- *. rewrite Z.eqb_refl.
      rewrite (rowsOf_absent _ _ Hr).
      eexists. split; [reflexivity|]. split; [now repeat split|].
      simpl. destruct (Z.eq_dec _ _); [reflexivity|]. congruence.
    + destruct (Z.eqb_spec (t_account_id r) (e_account_id e)); [contradiction|].
      destruct (IH ND') as (r' & E1 & E2 & E3). exists r'. repeat split; try apply E2; trivial.
      rewrite E3. destruct (Z.eq_dec _ _); [contradiction|].
      now destruct (in_dec Z.eq_dec (e_account_id e) (keys t)).
Qed.

End TableFacts.

Section LoadSequences.
Import JS Loader Vocabulary.
Variable sch : schema.

Lemma applyLoads_app (l1 l2 : list (Z * excluded)) (t : table) :
  applyLoads sch (l1 ++ l2) t = applyLoads sch l2 (applyLoads sch l1 t).
Proof. apply fold_left_app. Qed.

Lemma NoDup_keys_applyLoads (loads : list (Z * excluded)) (t : table) :
  NoDup (keys t) -> NoDup (keys (applyLoads sch loads t)).
Proof.
  revert t. induction loads as [|l loads IH]; intros t H; simpl; [exact H|].
  apply IH. now apply NoDup_keys_upsert.
Qed.

Lemma keys_applyLoads_incl (loads : list (Z * excluded)) (t : table) (k : Z) :
  In k (keys t) -> In k (keys (applyLoads sch loads t)).
Proof.
  revert t. induction loads as [|l loads IH]; intros t H; simpl; [exact H|].
  apply IH. now apply keys_upsert_incl.
Qed.

Lemma keys_applyLoads_loaded (loads : list (Z * excluded)) (t : table) (k : Z) :
  Exists (fun l => e_account_id (snd l) = k) loads ->
  In k (keys (applyLoads sch loads t)).
Proof.
  intros H. revert t. induction H as [l loads <-|l loads _ IH]; intros t; simpl.
  - apply keys_applyLoads_incl, keys_upsert_key.
  - apply IH.
Qed.

Lemma rowsOf_applyLoads_other (loads : list (Z * excluded)) (t : table) (k : Z) :
  Forall (fun l => e_account_id (snd l) <> k) loads ->
  rowsOf k (applyLoads sch loads t) = rowsOf k t.
Proof.
  intros H. revert t. induction H as [|l loads Hl _ IH]; intros t; simpl; [reflexivity|].
  rewrite IH. apply rowsOf_upsert_other. congruence.
Qed.

(** Writes to keys that are all in the table add no row. *)
Lemma keys_applyLoads_same (loads : list (Z * excluded)) (t : table) :
  Forall (fun l => In (e_account_id (snd l)) (keys t)) loads ->
  keys (applyLoads sch loads t) = keys t.
Proof.
  intros H. revert t H. induction loads as [|l loads IH]; intros t H; simpl;
    [reflexivity|].
  inversion H as [|? ? Hl Hs]; subst.
  assert (K : keys (upsert sch (fst l) (snd l) t) = keys t).
  { rewrite keys_upsert. now destruct (in_dec _ _ _). }
  rewrite IH; [exact K|]. now rewrite K.
Qed.

(** After any sequence of writes, the key of a write that no later write
    touches has exactly one row, holding what that write proposed; its
    timestamp is that of the write when the key was already there. *)
Lemma applyLoads_last (l1 l2 : list (Z * excluded)) (now : Z) (e : excluded) (t : table) :
  NoDup (keys t) ->
  Forall (fun l => e_account_id (snd l) <> e_account_id e) l2 ->
  exists r, rowsOf (e_account_id e) (applyLoads sch (l1 ++ (now, e) :: l2) t) = [r] /\
            holds r e /\
            (In (e_account_id e) (keys t) \/
             Exists (fun l => e_account_id (snd l) = e_account_id e) l1 ->
             t_updated_at r = Some now).
Proof.
  intros ND H2. rewrite applyLoads_app. simpl.
  change (fold_left _ l2 ?x) with (applyLoads sch l2 x).
  rewrite (rowsOf_applyLoads_other _ _ _ H2).
  destruct (rowsOf_upsert_same sch now e (applyLoads sch l1 t)) as (r & E1 & E2 & E3);
    [now apply NoDup_keys_applyLoads|].
  exists r. split; [exact E1|]. split; [exact E2|].
  intros H. rewrite E3. destruct (in_dec _ _ _) as [|N]; [reflexivity|].
  exfalso. apply N. destruct H as [H|H].
  - now apply keys_applyLoads_incl.
  - now apply keys_applyLoads_loaded.
Qed.

End LoadSequences.

Section Runs.
Import JS Loader Vocabulary.
Variable sch : schema.

Lemma accepted_bind (records : list processedRow) :
  forallb (fun r => negb (rejected sch r)) records = true ->
  exists es, bind_records records = Some es /\ existsb (refuses sch) es = false.
Proof.
  induction records as [|r records IH]; simpl.
  - intros _. now exists [].
  - intros [Hr Hs]%andb_true_iff. destruct (IH Hs) as (es & E1 & E2).
    unfold rejected in Hr. destruct (bind_record r) as [e|]; [|discriminate].
    rewrite E1. exists (e :: es). split; [reflexivity|]. simpl.
    apply negb_true_iff in Hr. now rewrite Hr.
Qed.

Lemma rejected_bind (records : list processedRow) (es : list excluded) :
  existsb (rejected sch) records = true ->
  bind_records records = Some es -> existsb (refuses sch) es = true.
Proof.
  revert es. induction records as [|r records IH]; simpl; intros es; [discriminate|].
  unfold rejected at 1. destruct (bind_record r) as [e|]; [|discriminate].
  destruct (bind_records records) as [es'|]; [|discriminate].
  intros H E. injection E as <-. simpl.
  apply orb_true_iff in H as [H|H]; [now rewrite H|].
  rewrite (IH es' H eq_refl). apply orb_true_r.
Qed.

(** A statement with a rejected record fails. *)
Lemma insert_rejected (records : list processedRow) :
  existsb (rejected sch) records = true ->
  forall now t, match bind_records records with
                | None => True
                | Some es => insert_rows sch now es t = None
                end.
Proof.
  intros H now t. destruct (bind_records records) as [es|] eqn:E; [|trivial].
  unfold insert_rows. rewrite (rejected_bind _ _ H E). now destruct es.
Qed.

(** A one-row statement with an accepted record is the upsert of its row. *)
Lemma insert_accepted (record : processedRow) (e : excluded) (now : Z) (t : table) :
  bind_record record = Some e -> refuses sch e = false ->
  bind_records [record] = Some [e] /\
  insert_rows sch now [e] t = Some (upsert sch now e t).
Proof.
  intros E R. simpl. rewrite E. split; [reflexivity|].
  unfold insert_rows. simpl. now rewrite R.
Qed.

(** The loop on accepted records, inside an open transaction. *)
Lemma insertEach_accepted (records : list processedRow) (es : list excluded) :
  bind_records records = Some es -> existsb (refuses sch) es = false ->
  forall c t ck started work out,
  insertEach sch records c
    {| db := {| committed := t; state := InTransaction started work; clock := ck |};
       console := out |}
  = ({| db := {| committed := t;
                 state := InTransaction started
                            (fold_left (fun t e => upsert sch started e t) es work);
                 clock := ck |};
        console := out |},
     Normal {| successCount := successCount c + List.length records;
               errorCount := errorCount c |}).
Proof.
  revert es. induction records as [|r records IH]; intros es E R c t ck started work out.
  - injection E as <-. simpl. unfold ret. destruct c. simpl. now rewrite Nat.add_0_r.
  - simpl in E. destruct (bind_record r) as [e|] eqn:Er; [|discriminate].
    destruct (bind_records records) as [es'|] eqn:Es; [|discriminate].
    injection E as <-. simpl in R. apply orb_false_iff in R as [Re Rs].
    destruct (insert_accepted r e started work Er Re) as [B I].
    cbn [insertEach]. unfold mbind at 1. unfold try_, mbind, client_query, ret.
    cbn [db console query state]. change (bindable [r]) with true. cbn [negb].
    rewrite B, I. unfold with_state.
    cbn [committed clock]. rewrite (IH es' eq_refl Rs). cbn [successCount errorCount fold_left List.length].
    now rewrite Nat.add_succ_r.
Qed.

(** The loop on an aborted transaction: every record is an error. *)
Lemma insertEach_aborted (records : list processedRow) :
  forall c t ck out,
  insertEach sch records c
    {| db := {| committed := t; state := Aborted; clock := ck |}; console := out |}
  = ({| db := {| committed := t; state := Aborted; clock := ck |};
        console := out ++ map (fun r => ErrorInserting (account_id r) aborted_message)
                              records |},
     Normal {| successCount := successCount c;
               errorCount := errorCount c + List.length records |}).
Proof.
  induction records as [|r records IH]; intros c t ck out.
  - simpl. unfold ret. destruct c. simpl. now rewrite Nat.add_0_r, app_nil_r.
  - cbn [insertEach]. unfold mbind at 1. unfold try_, mbind, client_query, ret, print.
    cbn [db console query state]. rewrite IH.
    cbn [successCount errorCount map List.length].
    now rewrite Nat.add_succ_r, <- app_assoc.
Qed.

End Runs.

Section Strategies.
Import JS Loader Vocabulary.
Variable sch : schema.

Lemma mbind_assoc {A B C} (m : M A) (f : A -> M B) (g : B -> M C) (w : world) :
  mbind (mbind m f) g w = mbind m (fun a => mbind (f a) g) w.
Proof. unfold mbind. destruct (m w) as [w' [a|e]]; reflexivity. Qed.

Lemma mbind_ext {A B} (m : M A) (f g : A -> M B) (w : world) :
  (forall a w', f a w' = g a w') -> mbind m f w = mbind m g w.
Proof. intros E. unfold mbind. destruct (m w) as [w' [a|e]]; [apply E|reflexivity]. Qed.

Lemma insertEach_app (l1 l2 : list processedRow) (c : counts) (w : world) :
  insertEach sch (l1 ++ l2) c w
  = (c' <- insertEach sch l1 c ;; insertEach sch l2 c') w.
Proof.
  revert c w. induction l1 as [|r l1 IH]; intros c w.
  - reflexivity.
  - cbn [app insertEach]. rewrite mbind_assoc. apply mbind_ext.
    intros c' w'. apply IH.
Qed.

(** The loop from the first rejected record on: the record aborts the
    transaction, and every record after it is refused. *)
Lemma insertEach_rejected (bad : processedRow) (after : list processedRow) :
  rejected sch bad = true ->
  forall c t ck started work out, exists message,
  insertEach sch (bad :: after) c
    {| db := {| committed := t; state := InTransaction started work; clock := ck |};
       console := out |}
  = ({| db := {| committed := t; state := Aborted; clock := ck |};
        console := (out ++ [ErrorInserting (account_id bad) message])
                   ++ map (fun r => ErrorInserting (account_id r) aborted_message) after |},
     Normal {| successCount := successCount c;
               errorCount := S (errorCount c) + List.length after |}).
Proof.
  intros R c t ck started work out.
  assert (F : exists message,
    query sch (INSERT [bad])
      {| committed := t; state := InTransaction started work; clock := ck |}
    = ({| committed := t; state := Aborted; clock := ck |}, Some message)).
  { cbn [query state]. unfold rejected in R. simpl.
    destruct (bind_record bad) as [e|]; [|eauto].
    unfold insert_rows. simpl. rewrite R. simpl. eauto. }
  destruct F as [message F]. exists message.
  cbn [insertEach]. unfold mbind at 1. unfold try_, mbind, client_query, ret, print.
  cbn [db console]. rewrite F. cbn [db console].
  now rewrite insertEach_aborted.
Qed.

Lemma applyLoads_same_time (now : Z) (es : list excluded) (t : table) :
  applyLoads sch (map (pair now) es) t
  = fold_left (fun t e => upsert sch now e t) es t.
Proof.
  unfold applyLoads. revert t. induction es as [|e es IH]; intros t; simpl;
    [reflexivity|apply IH].
Qed.

(** A run of the per-row strategy on accepted records: every row is
    written and the transaction commits. *)
Lemma insertDataToDatabase_accepted (records : list processedRow) (t : table)
    (now : Z) (out : list event) :
  forallb (fun r => negb (rejected sch r)) records = true ->
  insertDataToDatabase sch records (fresh t now out)
  = (fresh (applyLoads sch (map (pair now) (proposed records)) t) now
           (out ++ [Processed (List.length records) 0]),
     Normal tt).
Proof.
  intros A. destruct (accepted_bind sch _ A) as (es & B & R).
  unfold insertDataToDatabase, fresh, idle, try_, mbind, client_query, print.
  cbn [db console query state]. unfold with_state. cbn [committed clock].
  rewrite (insertEach_accepted sch records es B R). cbn.
  unfold proposed. rewrite B, applyLoads_same_time. reflexivity.
Qed.

(** C5. In per-row mode a record the storage rejects aborts the enclosing
    transaction: the records before it are counted as successes, the
    rejected record and every record after it as errors, the run completes
    normally, and the table is left as it was: no row of the batch is
    present afterwards. *)
Theorem per_row_failure_aborts_all (before : list processedRow) (bad : processedRow)
    (after : list processedRow) (t : table) (now : Z) (out : list event) :
  forallb (fun r => negb (rejected sch r)) before = true ->
  rejected sch bad = true ->
  exists message,
  insertDataToDatabase sch (before ++ bad :: after) (fresh t now out)
  = (fresh t now
       (out ++ ErrorInserting (account_id bad) message
            :: map (fun r => ErrorInserting (account_id r) aborted_message) after
            ++ [Processed (List.length before) (S (List.length after))]),
     Normal tt).
Proof.
  intros A R. destruct (accepted_bind sch _ A) as (es & B & Rs).
  destruct (insertEach_rejected bad after R
              {| successCount := 0 + List.length before; errorCount := 0 |}
              t now now
              (fold_left (fun t e => upsert sch now e t) es t) out)
    as [message E].
  exists message.
  unfold insertDataToDatabase, fresh, idle, try_, mbind, client_query, print.
  cbn [db console query state]. unfold with_state. cbn [committed clock].
  rewrite insertEach_app. unfold mbind.
  rewrite (insertEach_accepted sch before es B Rs). cbn [successCount errorCount].
  rewrite E. cbn.
  now rewrite <- !app_assoc.
Qed.

(** C6. In batch mode a record the storage rejects, or a second record
    with the key of another, fails the single statement: the transaction is
    rolled back, the table is left as it was, and the error is thrown to
    the caller. *)
Theorem batch_failure_rolls_back (records : list processedRow) (t : table)
    (now : Z) (out : list event) :
  existsb (rejected sch) records = true \/ distinct_keys (proposed records) = false ->
  exists message,
  batchInsertDataToDatabase sch records (fresh t now out)
  = (fresh t now (out ++ [ErrorDuringBatch message]), Throw message).
Proof.
  intros R.
  assert (F : match bind_records records with
              | None => True
              | Some es => insert_rows sch now es t = None
              end).
  { destruct R as [R|D]; [now apply insert_rejected|].
    unfold proposed in D. destruct (bind_records records) as [es|]; [|trivial].
    unfold insert_rows. rewrite D. destruct es; [reflexivity|].
    now destruct (existsb (refuses sch) (e :: es)). }
  unfold batchInsertDataToDatabase, fresh, idle, try_, mbind, client_query, print, throw.
  cbn [db console query state]. unfold with_state. cbn [db console query committed clock state].
  destruct (negb (bindable records)); [eexists; reflexivity|].
  destruct (bind_records records) as [es|].
  - rewrite F. eexists. reflexivity.
  - eexists. reflexivity.
Qed.

End Strategies.

Section Idempotence.
Import JS Loader Vocabulary.
Variable sch : schema.

Lemma bind_record_key (r : processedRow) (e : excluded) :
  bind_record r = Some e -> keyOf r = Some (e_account_id e).
Proof.
  unfold bind_record, keyOf. destruct (int4_of_number (account_id r)); [|discriminate].
  now intros [= <-].
Qed.

Lemma bind_records_Forall2 (records : list processedRow) (es : list excluded) :
  bind_records records = Some es ->
  Forall2 (fun r e => bind_record r = Some e) records es.
Proof.
  revert es. induction records as [|r records IH]; simpl; intros es E.
  - injection E as <-. constructor.
  - destruct (bind_record r) as [e|] eqn:Er; [|discriminate].
    destruct (bind_records records) as [es'|]; [|discriminate].
    injection E as <-. constructor; [exact Er|now apply IH].
Qed.

Lemma proposed_Forall2 (records : list processedRow) :
  forallb (fun r => negb (rejected sch r)) records = true ->
  Forall2 (fun r e => bind_record r = Some e) records (proposed records).
Proof.
  intros A. destruct (accepted_bind sch _ A) as (es & B & _).
  unfold proposed. rewrite B. now apply bind_records_Forall2.
Qed.

Lemma loads_keys_differ (now : Z) (records : list processedRow) (es : list excluded) (k : Z) :
  Forall2 (fun r e => bind_record r = Some e) records es ->
  Forall (fun r => keyOf r <> Some k) records ->
  Forall (fun l : Z * excluded => e_account_id (snd l) <> k) (map (pair now) es).
Proof.
  induction 1 as [|r e records es Hr _ IH]; intros F; simpl; constructor;
    inversion F as [|? ? F1 F2]; subst.
  - simpl. intros <-. apply F1. now apply bind_record_key.
  - now apply IH.
Qed.

Lemma loads_keys_meet (now : Z) (records : list processedRow) (es : list excluded) (k : Z) :
  Forall2 (fun r e => bind_record r = Some e) records es ->
  Exists (fun r => keyOf r = Some k) records ->
  Exists (fun l : Z * excluded => e_account_id (snd l) = k) (map (pair now) es).
Proof.
  induction 1 as [|r e records es Hr _ IH]; intros X; simpl;
    inversion X as [? ? X1|? ? X1]; subst.
  - left. simpl. apply bind_record_key in Hr. congruence.
  - right. now apply IH.
Qed.

Lemma Forall2_split (records : list processedRow) (es : list excluded)
    (l1 : list processedRow) (r : processedRow) (l2 : list processedRow) :
  Forall2 (fun r e => bind_record r = Some e) records es ->
  records = l1 ++ r :: l2 ->
  exists es1 e es2, es = es1 ++ e :: es2 /\ bind_record r = Some e /\
    Forall2 (fun r e => bind_record r = Some e) l1 es1 /\
    Forall2 (fun r e => bind_record r = Some e) l2 es2.
Proof.
  intros F ->. apply Forall2_app_inv_l in F as (es1 & es' & F1 & F2 & ->).
  inversion F2 as [|? e ? es2 Hr F3]; subst. exists es1, e, es2. auto.
Qed.

(** The table after the accepted records of one run, at a record that no
    later record of the run shares its key with. *)
Lemma proposed_last_record (t : table) (now : Z)
    (earlier : list processedRow) (record : processedRow)
    (later : list processedRow) (e : excluded) :
  NoDup (keys t) ->
  forallb (fun r => negb (rejected sch r)) (earlier ++ record :: later) = true ->
  bind_record record = Some e ->
  Forall (fun r => keyOf r <> Some (e_account_id e)) later ->
  let t' := applyLoads sch (map (pair now) (proposed (earlier ++ record :: later))) t in
  NoDup (keys t') /\
  (forall k, In k (keys t) -> In k (keys t')) /\
  exists row, rowsOf (e_account_id e) t' = [row] /\ holds row e /\
    (In (e_account_id e) (keys t) \/
     Exists (fun r => keyOf r = Some (e_account_id e)) earlier ->
     t_updated_at row = Some now).
Proof.
  intros ND A Er Hl t'. subst t'.
  split; [now apply NoDup_keys_applyLoads|].
  split; [intros k; apply keys_applyLoads_incl|].
  destruct (Forall2_split _ _ earlier record later (proposed_Forall2 _ A) eq_refl)
    as (es1 & e' & es2 & E & Er' & F1 & F2).
  assert (e' = e) as -> by congruence.
  rewrite E, map_app. cbn [map].
  destruct (applyLoads_last sch (map (pair now) es1) (map (pair now) es2) now e t ND)
    as (row & R1 & R2 & R3).
  - now apply loads_keys_differ with (records := later).
  - exists row. split; [exact R1|]. split; [exact R2|].
    intros [H|H]; apply R3; [now left|right].
    now apply loads_keys_meet with (records := earlier).
Qed.

Lemma tableAfter_fresh (t : table) (now : Z) (out : list event) (c : completion unit) :
  tableAfter (fresh t now out, c) = t.
Proof. reflexivity. Qed.

(** The keys of the accepted records of a run are in the table after it. *)
Lemma proposed_keys_loaded (t : table) (now now' : Z) (records : list processedRow) :
  Forall (fun l : Z * excluded =>
            In (e_account_id (snd l))
               (keys (applyLoads sch (map (pair now) (proposed records)) t)))
         (map (pair now') (proposed records)).
Proof.
  apply Forall_forall. intros [n e] H. apply in_map_iff in H as (e' & [= <- <-] & He).
  apply keys_applyLoads_loaded. apply Exists_exists. exists (now, e'). split; [|reflexivity].
  now apply in_map.
Qed.

End Idempotence.


Section Mapping.
Import JS Loader Vocabulary.
Variable sch : schema.


(** A run of the batch strategy on accepted records of distinct keys. *)
Lemma batchInsertDataToDatabase_accepted (records : list processedRow) (t : table)
    (now : Z) (out : list event) :
  bindable records = true ->
  forallb (fun r => negb (rejected sch r)) records = true ->
  records <> [] ->
  distinct_keys (proposed records) = true ->
  batchInsertDataToDatabase sch records (fresh t now out)
  = (fresh (applyLoads sch (map (pair now) (proposed records)) t) now
           (out ++ [BatchInserted (List.length records)]),
     Normal tt).
Proof.
  intros P A N D. destruct (accepted_bind sch _ A) as (es & B & R).
  unfold proposed in *. rewrite B in *. rewrite applyLoads_same_time.
  unfold batchInsertDataToDatabase, fresh, idle, try_, mbind, client_query, print.
  cbn [db console query state]. unfold with_state. cbn [db console query state committed clock].
  rewrite P. cbn [negb]. rewrite B. unfold insert_rows. rewrite R, D.
  destruct es as [|e es].
  - destruct records as [|r records]; [contradiction|]. simpl in B.
    destruct (bind_record r); [|discriminate].
    destruct (bind_records records); discriminate.
  - reflexivity.
Qed.




End Mapping.

(* ================================================================== *)
(** ** The Extractor against the SQL decode rule                       *)
(* ================================================================== *)

Section Utf8.
Import JS Vocabulary.
Local Open Scope N_scope.

Lemma pending_init : pending utf8_init.
Proof. split; simpl; [lia|trivial]. Qed.

Lemma utf8_lead_spec (b : N) :
  pending (snd (utf8_lead b)) /\
  (b <> 46 -> ~ In 46 (fst (utf8_lead b))) /\
  (b < 128 -> utf8_lead b = ([b], utf8_init)).
Proof.
  unfold utf8_lead.
  destruct (N.leb_spec b 127) as [A|A].
  - split; [apply pending_init|]. split; [|reflexivity].
    intros N [E|[]]. congruence.
  - destruct (between 194 223 b) eqn:B2.
    { apply between_true in B2. split; [|split; [intros _ []|lia]].
      split; simpl; lia. }
    destruct (between 224 239 b) eqn:B3.
    { apply between_true in B3. split; [|split; [intros _ []|lia]].
      split; simpl.
      - destruct (N.eqb_spec b 224); lia.
      - destruct (N.eqb_spec b 224); [right; cbn; lia|left; lia]. }
    destruct (between 240 244 b) eqn:B4.
    { apply between_true in B4. split; [|split; [intros _ []|lia]].
      split; simpl.
      - destruct (N.eqb_spec b 240); lia.
      - destruct (N.eqb_spec b 240); [right; cbn; lia|left; lia]. }
    split; [apply pending_init|]. split; [|lia].
    intros _ [E|[]]. discriminate.
Qed.

Lemma utf16_no_dot (cp : N) : 128 <= cp -> ~ In 46 (utf16 cp).
Proof.
  intros H. unfold utf16. destruct (cp <? 65536).
  - intros [E|[]]. lia.
  - generalize ((cp - 65536) / 1024), ((cp - 65536) mod 1024). intros x y.
    intros [E|[E|[]]]; lia.
Qed.

Lemma utf8_step_spec (st : utf8_state) (b : N) :
  pending st ->
  pending (snd (utf8_step st b)) /\
  (b <> 46 -> ~ In 46 (fst (utf8_step st b))).
Proof.
  intros [L P]. unfold utf8_step.
  destruct (needed st) as [|n] eqn:Nd.
  - destruct (utf8_lead_spec b) as (A & B & _). auto.
  - destruct (between (lower st) (upper st) b) eqn:R.
    + apply between_true in R. destruct n as [|n].
      * split; [apply pending_init|]. intros _. apply utf16_no_dot. lia.
      * split; [|intros _ []]. split; simpl; [lia|].
        destruct n; [|left]; destruct P; lia.
    + destruct (utf8_lead_spec b) as (A & B & _).
      destruct (utf8_lead b) as [out st']. simpl in *. split; [exact A|].
      intros N [E|H]; [discriminate|]. now apply B.
Qed.

(** What the decoder emits for a pending sequence cut short. *)
Lemma utf8_step_ascii (st : utf8_state) (b : N) :
  pending st -> b < 128 ->
  utf8_step st b = (utf8_run st [] ++ [b], utf8_init).
Proof.
  intros [L P] B. unfold utf8_step. simpl.
  destruct (utf8_lead_spec b) as (_ & _ & E). rewrite (E B).
  destruct (needed st) as [|n]; [reflexivity|].
  assert (between (lower st) (upper st) b = false) as ->
    by (apply between_false; lia).
  reflexivity.
Qed.

Lemma utf8_run_ascii_byte (st : utf8_state) (pre : list N) (b : N) (rest : list N) :
  pending st -> b < 128 ->
  utf8_run st (pre ++ b :: rest) = utf8_run st pre ++ b :: utf8_run utf8_init rest.
Proof.
  revert st. induction pre as [|c pre IH]; intros st P B.
  - cbn [app utf8_run]. rewrite (utf8_step_ascii _ _ P B).
    now rewrite <- app_assoc.
  - cbn [app utf8_run]. pose proof (utf8_step_spec st c P) as [P' _].
    destruct (utf8_step st c) as [out st']. simpl in P'.
    now rewrite (IH st' P' B), app_assoc.
Qed.

Lemma utf8_run_no_dot (st : utf8_state) (pre : list N) :
  pending st -> ~ In 46 pre -> ~ In 46 (utf8_run st pre).
Proof.
  revert st. induction pre as [|c pre IH]; intros st P N.
  - simpl. destruct (needed st); [intros []|intros [E|[]]; discriminate].
  - cbn [utf8_run]. pose proof (utf8_step_spec st c P) as [P' O].
    destruct (utf8_step st c) as [out st']. simpl in P', O.
    intros H. apply in_app_or in H as [H|H].
    + apply O; [|exact H]. intros ->. apply N. now left.
    + apply (IH st' P'); [|exact H]. intros K. apply N. now right.
Qed.

Lemma utf8_run_ascii (s : list N) :
  Forall (fun c => c < 128) s -> utf8_run utf8_init s = s.
Proof.
  induction 1 as [|c s Hc _ IH]; [reflexivity|].
  cbn [utf8_run]. rewrite (utf8_step_ascii _ _ pending_init Hc). simpl.
  now rewrite IH.
Qed.

End Utf8.

Section Fields.
Import JS Vocabulary.
Local Open Scope N_scope.

Lemma split_none (sep : N) (a : jsstring) : ~ In sep a -> split sep a = [a].
Proof.
  induction a as [|c a IH]; intros N; simpl; [reflexivity|].
  destruct (N.eqb_spec c sep) as [->|_]; [exfalso; apply N; now left|].
  rewrite IH; [reflexivity|]. intros H. apply N. now right.
Qed.

Lemma split_first (sep : N) (a b : jsstring) :
  ~ In sep a -> split sep (a ++ sep :: b) = a :: split sep b.
Proof.
  induction a as [|c a IH]; intros N; simpl.
  - now rewrite N.eqb_refl.
  - destruct (N.eqb_spec c sep) as [->|_]; [exfalso; apply N; now left|].
    rewrite IH; [reflexivity|]. intros H. apply N. now right.
Qed.

Lemma after_field_spec (sep : N) (s rest : PG.text) :
  PG.after_field sep s = Some rest ->
  exists pre, s = pre ++ sep :: rest /\ ~ In sep pre.
Proof.
  revert rest. induction s as [|c s IH]; intros rest; simpl; [discriminate|].
  destruct (N.eqb_spec c sep) as [->|N].
  - intros [= ->]. exists []. split; [reflexivity|intros []].
  - intros H. destruct (IH _ H) as (pre & -> & P). exists (c :: pre).
    split; [reflexivity|]. intros [E|K]; [congruence|contradiction].
Qed.

Lemma first_field_spec (sep : N) (s : PG.text) :
  ~ In sep (PG.first_field sep s) /\
  (s = PG.first_field sep s \/
   exists tail, s = PG.first_field sep s ++ sep :: tail).
Proof.
  induction s as [|c s [IH1 IH2]]; simpl.
  - split; [intros []|now left].
  - destruct (N.eqb_spec c sep) as [->|N].
    + split; [intros []|]. right. now exists s.
    + split; [intros [E|K]; [congruence|contradiction]|].
      destruct IH2 as [E|(tail & E)]; [left|right; exists tail]; simpl; congruence.
Qed.

(** The second segment of the decoded string is the second field of the
    bytes, when that field is ASCII and the bytes have a separator. *)
Lemma second_segment (bytes rest : list N) :
  PG.after_field 46 bytes = Some rest ->
  Forall (fun c => c < 128) (PG.first_field 46 rest) ->
  exists p ps, split 46 (toString_utf8 bytes) = p :: PG.first_field 46 rest :: ps.
Proof.
  intros A F. destruct (after_field_spec _ _ _ A) as (pre & -> & P).
  unfold toString_utf8.
  rewrite (utf8_run_ascii_byte utf8_init pre 46 rest pending_init) by lia.
  rewrite split_first by (apply utf8_run_no_dot; [apply pending_init|exact P]).
  destruct (first_field_spec 46 rest) as [N E].
  remember (PG.first_field 46 rest) as f eqn:Ef. clear Ef.
  destruct E as [E|(tail & E)]; rewrite E.
  - rewrite (utf8_run_ascii _ F), (split_none _ _ N). eauto.
  - rewrite (utf8_run_ascii_byte utf8_init _ 46 tail pending_init) by lia.
    rewrite (utf8_run_ascii _ F), (split_first _ _ _ N). eauto.
Qed.

End Fields.

Section IntegerText.
Import JS Vocabulary.
Local Open Scope N_scope.

Lemma isspace_white (c : N) : PG.isspace c = true -> isWhiteSpace c = true.
Proof.
  unfold PG.isspace, isWhiteSpace. intros H. apply orb_true_iff in H as [H|H].
  - apply N.eqb_eq in H. now subst c.
  - change (PG.between 9 13 c) with (between 9 13 c) in H. now rewrite H.
Qed.

Lemma isspace_range (c : N) : PG.isspace c = true -> c = 32 \/ 9 <= c <= 13.
Proof.
  unfold PG.isspace. intros H. apply orb_true_iff in H as [H|H].
  - apply N.eqb_eq in H. now left.
  - right. now apply (between_true 9 13 c).
Qed.

Lemma isdigit_range (c : N) : PG.isdigit c = true <-> 48 <= c <= 57.
Proof. apply (between_true 48 57 c). Qed.

Lemma skip_spaces_spec (s : PG.text) :
  exists ws, s = ws ++ PG.skip_spaces s /\ Forall (fun c => PG.isspace c = true) ws.
Proof.
  induction s as [|c s (ws & E & F)]; simpl.
  - exists []. split; [reflexivity|constructor].
  - destruct (PG.isspace c) eqn:Sc.
    + exists (c :: ws). split; [simpl; congruence|now constructor].
    + exists []. split; [reflexivity|constructor].
Qed.

Lemma skip_spaces_nil (s : PG.text) :
  PG.skip_spaces s = [] -> Forall (fun c => PG.isspace c = true) s.
Proof.
  induction s as [|c s IH]; simpl; [constructor|].
  destruct (PG.isspace c) eqn:Sc; [|discriminate]. intros H. constructor; auto.
Qed.

Lemma read_digits_spec (s : PG.text) (acc : N) :
  exists ds rest,
    PG.read_digits acc s = (fold_left (fun a c => a * 10 + (c - 48)) ds acc, rest) /\
    s = ds ++ rest /\ Forall (fun c => PG.isdigit c = true) ds /\
    (forall c r, rest = c :: r -> PG.isdigit c = false).
Proof.
  revert acc. induction s as [|c s IH]; intros acc; simpl.
  - exists [], []. repeat split; [constructor|discriminate].
  - destruct (PG.isdigit c) eqn:Dc.
    + destruct (IH (acc * 10 + (c - 48))) as (ds & rest & E & -> & F & R).
      exists (c :: ds), rest. repeat split; auto.
    + exists [], (c :: s). repeat split; [constructor|]. now intros ? ? [= <- _].
Qed.

(** The shape of a text the decimal integer input accepts. *)
Lemma int4in_shape (f : PG.text) (z : Z) :
  PG.pg_strtoint32 f = PG.Value z ->
  exists ws negative sg ds ws',
    f = ws ++ sg ++ ds ++ ws' /\
    Forall (fun c => PG.isspace c = true) ws /\
    (sg = [] \/ (sg = [45] /\ negative = true) \/ (sg = [43] /\ negative = false)) /\
    (sg = [] -> negative = false) /\
    ds <> [] /\ Forall (fun c => PG.isdigit c = true) ds /\
    Forall (fun c => PG.isspace c = true) ws' /\
    z = (if negative then - Z.of_N (decimal ds) else Z.of_N (decimal ds))%Z /\
    decimal ds <= 2147483648.
Proof.
  unfold PG.pg_strtoint32. destruct (skip_spaces_spec f) as (ws & E & Fw).
  set (s1 := PG.skip_spaces f) in *. clearbody s1. subst f.
  assert (G : forall (negative : bool) (s : PG.text),
    PG.decimal_number negative s = PG.Value z ->
    exists ds ws', s = ds ++ ws' /\ ds <> [] /\
      Forall (fun c => PG.isdigit c = true) ds /\
      Forall (fun c => PG.isspace c = true) ws' /\
      z = (if negative then - Z.of_N (decimal ds) else Z.of_N (decimal ds))%Z /\
      decimal ds <= 2147483648).
  { intros negative s. unfold PG.decimal_number. destruct s as [|c s]; [discriminate|].
    destruct (PG.isdigit c) eqn:Dc; [|discriminate].
    destruct (read_digits_spec (c :: s) 0) as (ds & rest & R & Es & Fd & _).
    rewrite R. cbv beta iota zeta. fold (decimal ds).
    destruct (andb _ _) eqn:Rg; [|discriminate].
    destruct (PG.skip_spaces rest) eqn:Sr; [|discriminate].
    intros [= <-]. exists ds, rest. split; [exact Es|].
    split.
    { intros ->. simpl in Es. subst rest. simpl in Sr. unfold PG.isdigit in Dc.
      assert (PG.isspace c = false) as K.
      { apply isdigit_range in Dc. unfold PG.isspace.
        apply orb_false_intro; [apply N.eqb_neq; lia|].
        apply (between_false 9 13 c). lia. }
      now rewrite K in Sr. }
    split; [exact Fd|]. split; [now apply skip_spaces_nil|]. split; [reflexivity|].
    apply andb_true_iff in Rg as [R1 R2]. apply Z.leb_le in R1, R2.
    destruct negative; lia. }
  unfold PG.sign. destruct s1 as [|c s].
  - discriminate.
  - destruct (N.eqb_spec c 45) as [->|N45]; [|destruct (N.eqb_spec c 43) as [->|N43]].
    + intros H. destruct (G true s H) as (ds & ws' & -> & A & B & C & D & E').
      exists ws, true, [45], ds, ws'. repeat split; auto. intros; discriminate.
    + intros H. destruct (G false s H) as (ds & ws' & -> & A & B & C & D & E').
      exists ws, false, [43], ds, ws'. repeat split; auto.
    + intros H. destruct (G false (c :: s) H) as (ds & ws' & -> & A & B & C & D & E').
      exists ws, false, [], ds, ws'. repeat split; auto.
Qed.

(** The digits read so far only grow. *)
Lemma read_digits_le (s : PG.text) (acc : N) : acc <= fst (PG.read_digits acc s).
Proof.
  revert acc. induction s as [|c s IH]; intros acc; simpl; [lia|].
  destruct (PG.isdigit c); [|simpl; lia].
  specialize (IH (acc * 10 + (c - 48))). lia.
Qed.

(** On decimal digits of a value of 32 bits, not followed by an underscore,
    the digit loop of version 16 reads what the decimal loop reads. *)
Lemma read_number_digits (s : PG.text) (acc m : N) (rest : PG.text) :
  PG.read_digits acc s = (m, rest) -> m <= 2147483648 ->
  match rest with [] => True | c :: _ => c <> 95 end ->
  PG.read_number 10 PG.decimal_digit acc s = Some (m, rest).
Proof.
  revert acc. induction s as [|c s IH]; intros acc R B U; simpl in R |- *.
  - now injection R as <- <-.
  - unfold PG.decimal_digit at 1. destruct (PG.isdigit c) eqn:Dc.
    + pose proof (read_digits_le s (acc * 10 + (c - 48))) as L.
      rewrite R in L. cbn [fst] in L.
      assert ((2147483648 / 10 <? acc) = false) as ->.
      { apply N.ltb_ge. change (2147483648 / 10) with 214748364. lia. }
      now apply IH.
    + injection R as <- <-.
      now apply N.eqb_neq in U as ->.
Qed.

(** What the servers before version 16 read as an integer, the servers
    from version 16 on read as the same integer. *)
Lemma int4in_decimal (v : PG.server) (f : PG.text) (z : Z) :
  PG.int4in PG.Before16 f = PG.Value z -> PG.int4in v f = PG.Value z.
Proof.
  destruct v; [trivial|]. cbn [PG.int4in].
  unfold PG.pg_strtoint32, PG.pg_strtoint32_safe.
  destruct (PG.sign (PG.skip_spaces f)) as [neg s].
  unfold PG.decimal_number, PG.based_number.
  destruct s as [|c s]; [discriminate|].
  destruct (PG.isdigit c) eqn:Dc; [|discriminate].
  destruct (PG.read_digits 0 (c :: s)) as [m rest] eqn:R.
  destruct (andb _ _) eqn:Rg; [|discriminate].
  destruct (PG.skip_spaces rest) as [|x xs] eqn:Sr; [|discriminate].
  intros [= <-].
  apply andb_true_iff in Rg as [R1 R2]. apply Z.leb_le in R1, R2.
  assert (U : match rest with [] => True | d :: _ => d <> 95 end).
  { destruct rest as [|d rest']; [trivial|]. simpl in Sr.
    destruct (PG.isspace d) eqn:Sd; [|discriminate].
    apply isspace_range in Sd. lia. }
  assert (B : m <= 2147483648) by (destruct neg; lia).
  pose proof Dc as Dc'. apply isdigit_range in Dc'.
  assert (P : PG.number_base (c :: s) = (10, PG.decimal_digit, false, c :: s)).
  { unfold PG.number_base. destruct s as [|c1 s']; [reflexivity|].
    destruct (N.eqb_spec c 48) as [->|]; [|reflexivity].
    assert (K : PG.isdigit c1 = true \/ PG.isspace c1 = true).
    { cbn [PG.read_digits] in R. rewrite Dc in R.
      destruct (PG.isdigit c1) eqn:D1; [now left|right].
      injection R as <- <-. cbn [PG.skip_spaces] in Sr.
      now destruct (PG.isspace c1). }
    assert (c1 <> 120 /\ c1 <> 88 /\ c1 <> 111 /\ c1 <> 79 /\ c1 <> 98 /\ c1 <> 66)
      as (K1 & K2 & K3 & K4 & K5 & K6).
    { destruct K as [K|K]; [apply isdigit_range in K|apply isspace_range in K];
        repeat split; lia. }
    apply N.eqb_neq in K1, K2, K3, K4, K5, K6.
    now rewrite K1, K2, K3, K4, K5, K6. }
  rewrite P. unfold PG.is_digit at 1. unfold PG.decimal_digit at 1. rewrite Dc.
  cbn [orb]. rewrite (read_number_digits _ _ _ _ R B U), Sr.
  destruct neg.
  - assert ((2147483648 <? m) = false) as -> by (apply N.ltb_ge; lia). reflexivity.
  - assert ((2147483647 <? m) = false) as -> by (apply N.ltb_ge; lia). reflexivity.
Qed.

End IntegerText.

Section ParseIntDecimal.
Import JS Vocabulary.
Local Open Scope N_scope.

(** [parseInt] on white space, a sign, decimal digits and white space. *)
Lemma parseIntString_decimal (ws sg ds ws' : jsstring) (negative : bool) :
  Forall (fun c => PG.isspace c = true) ws ->
  (sg = [] \/ (sg = [45] /\ negative = true) \/ (sg = [43] /\ negative = false)) ->
  (sg = [] -> negative = false) ->
  ds <> [] -> Forall (fun c => PG.isdigit c = true) ds ->
  Forall (fun c => PG.isspace c = true) ws' ->
  parseIntString (ws ++ sg ++ ds ++ ws') = toNumber negative (decimal ds).
Proof.
  intros Fw Sg Sn Nd Fd Fw'. apply parseIntString_leading.
  exists ws, sg, ws'. split; [reflexivity|]. split.
  { apply forallb_forall. intros c Hc. rewrite Forall_forall in Fw.
    now apply isspace_white, Fw. }
  split; [destruct Sg as [E|[E|E]]; auto|].
  split; [exact Nd|]. split.
  { apply forallb_forall. intros c Hc. rewrite Forall_forall in Fd.
    now apply Fd. }
  destruct ws' as [|c r]; [trivial|]. apply Forall_inv in Fw'.
  apply isspace_range in Fw'. split; [apply between_false; lia|lia].
Qed.

(** What the integer input function accepts, [parseInt] reads as the same
    integer. *)
Lemma int4in_parseInt (f : PG.text) (z : Z) :
  PG.int4in PG.Before16 f = PG.Value z ->
  isNaN (parseIntString f) = false /\ number_value (parseIntString f) = Some z /\
  Forall (fun c => c < 128) f.
Proof.
  intros H.
  destruct (int4in_shape _ _ H) as (ws & neg & sg & ds & ws' & -> & Fw & Sg & Sn & Nd & Fd & Fw' & -> & B).
  rewrite (parseIntString_decimal _ _ _ _ neg Fw Sg Sn Nd Fd Fw').
  split; [apply toNumber_notNaN|]. split.
  - apply toNumber_value. apply N.le_lt_trans with (1 := B). reflexivity.
  - assert (S : forall l, Forall (fun c => PG.isspace c = true) l ->
                          Forall (fun c => c < 128) l).
    { intros l F. eapply Forall_impl; [|exact F]. intros c Hc. simpl in Hc.
      apply isspace_range in Hc. lia. }
    apply Forall_app. split; [now apply S|].
    apply Forall_app. split.
    { destruct Sg as [->|[[-> _]|[-> _]]]; repeat constructor. }
    apply Forall_app. split; [|now apply S].
    eapply Forall_impl; [|exact Fd]. intros c Hc. simpl in Hc.
    apply isdigit_range in Hc. lia.
Qed.

End ParseIntDecimal.

Section DecodeRule.
Import JS Extractor Vocabulary.
Local Open Scope N_scope.

Lemma hex_decode_agree (s : jsstring) :
  (forall bytes, forallb (fun c => negb (PG.hex_space c)) s = true ->
     PG.hex_decode s = PG.Value bytes ->
     hexDecode s = bytes /\ forallb isHexDigit s = true) /\
  (forall c bytes, forallb (fun c => negb (PG.hex_space c)) (c :: s) = true ->
     PG.hex_decode (c :: s) = PG.Value bytes ->
     hexDecode (c :: s) = bytes /\ forallb isHexDigit (c :: s) = true).
Proof.
  induction s as [|c2 s [IH1 IH2]].
  - split.
    + intros bytes _ [= <-]. now split.
    + intros c bytes W. simpl in W. rewrite andb_true_r in W.
      apply negb_true_iff in W. simpl. rewrite W.
      now destruct (PG.get_hex c).
  - split; [apply IH2|].
    intros c bytes W. cbn [forallb] in W.
    apply andb_true_iff in W as [Wc [Wc2 Ws]%andb_true_iff].
    apply negb_true_iff in Wc. cbn [PG.hex_decode hexDecode forallb].
    rewrite Wc.
    change (PG.get_hex c) with (unhex c). change (PG.get_hex c2) with (unhex c2).
    change (isHexDigit c) with (match unhex c with Some _ => true | None => false end).
    change (isHexDigit c2) with (match unhex c2 with Some _ => true | None => false end).
    destruct (unhex c) as [v1|] eqn:U1; [|discriminate].
    destruct (unhex c2) as [v2|] eqn:U2; [|discriminate].
    rewrite (hexValue_digit _ _ U1), (hexValue_digit _ _ U2).
    destruct (PG.hex_decode s) as [bs|e] eqn:D; [|discriminate].
    intros [= <-]. destruct (IH1 bs Ws eq_refl) as [E F].
    rewrite E, F. now split.
Qed.

Lemma trimStart_snoc (l : jsstring) (c : N) :
  isWhiteSpace c = false -> exists l', trimStart (l ++ [c]) = l' ++ [c].
Proof.
  intros H. induction l as [|d l (l' & IH)]; simpl.
  - rewrite H. now exists [].
  - destruct (isWhiteSpace d); [now exists l'|]. now exists (d :: l).
Qed.

(** Trimming keeps a first character that is not white space. *)
Lemma trim_head (c : N) (r : jsstring) :
  isWhiteSpace c = false -> exists r', trim (c :: r) = c :: r'.
Proof.
  intros H. unfold trim, trimEnd. cbn [trimStart]. rewrite H. cbn [rev].
  destruct (trimStart_snoc (rev r) c H) as (l' & ->).
  rewrite rev_app_distr. simpl. eauto.
Qed.

Lemma trimStart_Forall (P : N -> Prop) (s : jsstring) :
  Forall P s -> Forall P (trimStart s).
Proof.
  induction 1 as [|c s Hc Hs IH]; simpl; [constructor|].
  destruct (isWhiteSpace c); [exact IH|now constructor].
Qed.

Lemma trim_Forall (P : N -> Prop) (s : jsstring) : Forall P s -> Forall P (trim s).
Proof.
  intros H. unfold trim, trimEnd.
  apply Forall_rev, trimStart_Forall, Forall_rev, trimStart_Forall, H.
Qed.

Lemma plus_value_skipped (s : jsstring) :
  PG.starts_with_plus s = true -> singleValued s = true -> extracted (Str s) = Some [].
Proof.
  intros P S. destruct s as [|c r]; [discriminate|]. simpl in P.
  apply N.eqb_eq in P. subst c.
  unfold extracted, extractDeviceKitIds. cbn [falsy toString].
  rewrite splitValues_splitBy.
  destruct (trim_head 43 r eq_refl) as (r' & E).
  assert (D : forallb (fun c => negb (isDelimiter c)) (trim (43 :: r)) = true).
  { apply forallb_forall. apply Forall_forall. apply trim_Forall.
    apply Forall_forall. intros c Hc. unfold singleValued in S.
    rewrite forallb_forall in S. specialize (S c Hc).
    apply negb_true_iff, orb_false_iff in S as [S _]. now rewrite S. }
  rewrite (splitBy_none _ _ D), E. cbn [fold_left].
  destruct (trim_head 43 r' eq_refl) as (r'' & E').
  unfold processValue. rewrite E'. reflexivity.
Qed.

Lemma integer_value_extracted (s : jsstring) (z : Z) :
  singleValued s = true ->
  PG.extensions_expr PG.Before16 (Some s) = PG.Value (Some z) ->
  exists n, extracted (Str s) = Some [n] /\ number_value n = Some z.
Proof.
  intros S H. unfold PG.extensions_expr in H.
  destruct s as [|c r]; [discriminate|].
  destruct (PG.starts_with_plus (c :: r)); [discriminate|].
  destruct (PG.hex_decode (c :: r)) as [bytes|] eqn:D; [|discriminate].
  unfold PG.convert_from_utf8 in H.
  destruct (PG.utf8_islegal bytes); [|discriminate].
  destruct (PG.int4in PG.Before16 (PG.split_part bytes 46 2)) as [z'|] eqn:I;
    [|discriminate].
  injection H as ->.
  assert (W : forallb (fun c => negb (PG.hex_space c)) (c :: r) = true).
  { apply forallb_forall. intros x Hx. unfold singleValued in S.
    rewrite forallb_forall in S. specialize (S x Hx).
    apply negb_true_iff, orb_false_iff in S as [_ S]. now rewrite S. }
  destruct (proj1 (hex_decode_agree (c :: r)) bytes W D) as [Eb Hh].
  assert (Ht : hexToken (c :: r) = true) by exact Hh.
  destruct (int4in_parseInt _ _ I) as (Nn & V & A).
  cbn [PG.split_part] in *.
  destruct (PG.after_field 46 bytes) as [rest|] eqn:Af; [|discriminate].
  destruct (second_segment bytes rest Af A) as (p & ps & Sp).
  exists (parseIntString (PG.first_field 46 rest)). split; [|exact V].
  assert (Id : identifierOf (c :: r) = Some (parseIntString (PG.first_field 46 rest))).
  { unfold identifierOf. rewrite Eb, Sp. cbn [List.length nth Nat.ltb Nat.leb].
    now rewrite Nn. }
  unfold extracted, extractDeviceKitIds. cbn [falsy toString].
  rewrite splitValues_splitBy, (trim_hexToken _ Ht).
  rewrite (splitBy_none _ _ (hexToken_no_delimiter _ Ht)).
  pose proof (idsOf_validToken _ _ Ht Id) as X. unfold idsOf, empty in X.
  now rewrite X.
Qed.

(** The value the rule has on a server before version 16, it has on every
    server. *)
Lemma extensions_expr_decimal (v : PG.server) (feature_value : option PG.text)
    (x : option Z) :
  PG.extensions_expr PG.Before16 feature_value = PG.Value x ->
  PG.extensions_expr v feature_value = PG.Value x.
Proof.
  unfold PG.extensions_expr. destruct feature_value as [[|c r]|]; try trivial.
  destruct (PG.starts_with_plus (c :: r)); [trivial|].
  destruct (PG.hex_decode (c :: r)) as [bytes|]; [|discriminate].
  destruct (PG.convert_from_utf8 bytes) as [decoded|]; [|discriminate].
  destruct (PG.int4in PG.Before16 (PG.split_part decoded 46 2)) as [z|] eqn:I;
    [|discriminate].
  now rewrite (int4in_decimal v _ _ I).
Qed.

(** C1. On a single-valued feature value, or an absent one, to which the
    SQL decode rule gives a value on a server before version 16 (where the
    integer cast reads decimal digits only), the rule gives that value on
    every server, and the Extractor agrees with it: no identifier where the
    rule gives NULL (absent, empty, [+] first), and exactly the integer of
    the rule where it gives one. *)
Theorem decode_rule_agreement (v : PG.server) (feature_value : option jsstring)
    (x : option Z) :
  match feature_value with
  | Some s => singleValued s = true
  | None => True
  end ->
  PG.extensions_expr PG.Before16 feature_value = PG.Value x ->
  PG.extensions_expr v feature_value = PG.Value x /\
  exists ids, extracted (asValue feature_value) = Some ids /\
              agrees ids (PG.extensions_expr v feature_value) = true.
Proof.
  intros S E. rewrite (extensions_expr_decimal v _ _ E). split; [reflexivity|].
  destruct feature_value as [s|]; [|injection E as <-; now exists []].
  destruct s as [|c r]; [injection E as <-; now exists []|].
  destruct x as [z|].
  - destruct (integer_value_extracted _ _ S E) as (n & X & V).
    exists [n]. split; [exact X|]. unfold agrees. rewrite V. apply Z.eqb_refl.
  - exists []. split; [|reflexivity]. apply plus_value_skipped; [|exact S].
    unfold PG.extensions_expr in E.
    destruct (PG.starts_with_plus (c :: r)); [reflexivity|].
    destruct (PG.hex_decode (c :: r)); [|discriminate].
    destruct (PG.convert_from_utf8 _); [|discriminate].
    destruct (PG.int4in _ _); discriminate.
Qed.

Lemma decode_rule_agreement_witness :
  singleValued (str "48656c6c6f2e343432") = true /\
  PG.extensions_expr PG.Before16 (Some (str "48656c6c6f2e343432"))
  = PG.Value (Some 442%Z) /\
  PG.extensions_expr PG.From16 (Some (str "48656c6c6f2e343432"))
  = PG.Value (Some 442%Z) /\
  exists ids, extracted (Str (str "48656c6c6f2e343432")) = Some ids /\
              agrees ids (PG.extensions_expr PG.From16
                            (Some (str "48656c6c6f2e343432"))) = true.
Proof.
  split; [reflexivity|]. split; [reflexivity|].
  apply (decode_rule_agreement PG.From16 (Some (str "48656c6c6f2e343432"))
           (Some 442%Z)); reflexivity.
Defined.

(** C1, as stated, fails. On a field whose first token begins with [+] the
    SQL rule gives NULL for the whole field, on every server, and the
    Extractor returns the identifier of the second token. On a server from
    version 16 on, the rule reads the hexadecimal text of [A.1_000] as 1000
    and that of [A.0b101] as 5, where the Extractor returns 1 and 0; a
    server before version 16 raises an error on both. *)
Lemma decode_rule_disagreement :
  (forall v, PG.extensions_expr v (Some (str "+,412e35")) = PG.Value None) /\
  extracted (Str (str "+,412e35")) = Some [Int 5] /\
  (forall v, agrees [Int 5] (PG.extensions_expr v (Some (str "+,412e35"))) = false) /\
  (singleValued (str "412e315f303030") = true /\
   PG.extensions_expr PG.From16 (Some (str "412e315f303030")) = PG.Value (Some 1000%Z) /\
   PG.extensions_expr PG.Before16 (Some (str "412e315f303030"))
   = PG.Raise PG.InvalidInteger /\
   extracted (Str (str "412e315f303030")) = Some [Int 1]) /\
  (singleValued (str "412e3062313031") = true /\
   PG.extensions_expr PG.From16 (Some (str "412e3062313031")) = PG.Value (Some 5%Z) /\
   PG.extensions_expr PG.Before16 (Some (str "412e3062313031"))
   = PG.Raise PG.InvalidInteger /\
   extracted (Str (str "412e3062313031")) = Some [Int 0]).
Proof.
  split; [now intros []|]. split; [reflexivity|]. split; [now intros []|].
  split; repeat split.
Qed.

End DecodeRule.

(* ================================================================== *)
(** ** The claims on sample data                                       *)
(* ================================================================== *)

Section Samples.
Import JS Loader Vocabulary.

Lemma per_row_failure_aborts_all_witness :
  rejected permissive (onData (csvRow "abc" "mithlesh1@gmail.com" "18109661265" "412e35"))
  = true /\
  exists message,
  insertDataToDatabase permissive
    ([onData (csvRow "850527" "yadav@gmail.com" "18109651265" "48656c6c6f2e343432")]
     ++ onData (csvRow "abc" "mithlesh1@gmail.com" "18109661265" "412e35")
     :: [onData (csvRow "844559" "yadavmithlesh122@gmail.com" "18209661265" "412e36")])
    (fresh [] 7 [])
  = (fresh [] 7
       ([] ++ ErrorInserting NaN message
           :: map (fun r => ErrorInserting (account_id r) aborted_message)
                  [onData (csvRow "844559" "yadavmithlesh122@gmail.com" "18209661265" "412e36")]
           ++ [Processed 1 2]),
     Normal tt).
Proof.
  split; [reflexivity|].
  apply (per_row_failure_aborts_all permissive
           [onData (csvRow "850527" "yadav@gmail.com" "18109651265" "48656c6c6f2e343432")]
           (onData (csvRow "abc" "mithlesh1@gmail.com" "18109661265" "412e35"))
           [onData (csvRow "844559" "yadavmithlesh122@gmail.com" "18209661265" "412e36")]
           [] 7 []); reflexivity.
Defined.

Lemma batch_failure_rolls_back_witness :
  existsb (rejected permissive) (map onData sampleRows) = true /\
  exists message,
  batchInsertDataToDatabase permissive (map onData sampleRows) (fresh [] 7 [])
  = (fresh [] 7 ([] ++ [ErrorDuringBatch message]), Throw message).
Proof.
  split; [reflexivity|].
  apply (batch_failure_rolls_back permissive (map onData sampleRows) [] 7 []).
  left. reflexivity.
Defined.



End Samples.

(* ================================================================== *)
(** ** More of the Extractor: properties                               *)
(* ================================================================== *)

Section ExtractorObservations.
Import JS Extractor Vocabulary Observations.
Local Open Scope N_scope.

Lemma length_splitBy (p : N -> bool) (s : jsstring) :
  List.length (splitBy p s) = S (List.length (filter p s)).
Proof.
  induction s as [|c s IH]; simpl; [reflexivity|].
  destruct (p c); simpl; [now rewrite IH|].
  destruct (splitBy p s); [discriminate|exact IH].
Qed.

Lemma length_splitValues (s : jsstring) :
  List.length (splitValues s) = S (delimiterCount (trim s)).
Proof. rewrite splitValues_splitBy. apply length_splitBy. Qed.

(** X1. The cascade of five splits gives exactly the fragments between the
    delimiter characters of the trimmed field, in order, whatever the
    delimiters are and however they are mixed: one fragment more than
    there are delimiter characters. *)
Theorem splitValues_fragments (s : jsstring) :
  splitValues s = splitBy isDelimiter (trim s) /\
  List.length (splitValues s) = S (delimiterCount (trim s)).
Proof.
  split; [apply splitValues_splitBy|apply length_splitValues].
Qed.

Lemma processValue_logged (a : acc) (v : jsstring) :
  loggedIds (console a) = extractedIds a ->
  loggedIds (console (processValue a v)) = extractedIds (processValue a v).
Proof.
  intros H. unfold processValue.
  destruct (trim v) as [|c t]; [exact H|].
  destruct (startsWith PLUS (c :: t)).
  - unfold log, loggedIds in *. cbn [console extractedIds].
    rewrite flat_map_app. cbn. now rewrite app_nil_r.
  - unfold decodeToken, Buffer_from_hex, bind, try_catch.
    destruct (1 <? _)%nat; [|exact H].
    destruct (negb _); [|exact H].
    unfold push, loggedIds in *. cbn [console extractedIds].
    rewrite flat_map_app. cbn. now rewrite H.
Qed.

Lemma processValue_justified (a : acc) (v : jsstring) :
  Forall justified (console a) -> Forall justified (console (processValue a v)).
Proof.
  intros H. unfold processValue.
  destruct (trim v) as [|c t] eqn:T; [exact H|].
  destruct (startsWith PLUS (c :: t)) eqn:P.
  - apply Forall_app. split; [exact H|]. constructor; [exact P|constructor].
  - unfold decodeToken, Buffer_from_hex, bind, try_catch.
    destruct (1 <? _)%nat eqn:L; [|exact H].
    destruct (isNaN _) eqn:I; cbn [negb]; [exact H|].
    apply Forall_app. split; [exact H|]. constructor; [|constructor].
    cbn [justified]. repeat split; auto.
    now apply Nat.ltb_lt in L.
Qed.

Lemma processValue_one_more (a : acc) (v : jsstring) :
  (List.length (extractedIds (processValue a v)) <= S (List.length (extractedIds a)))%nat.
Proof.
  unfold processValue.
  destruct (trim v) as [|c t]; [lia|].
  destruct (startsWith PLUS (c :: t)); [cbn; lia|].
  unfold decodeToken, Buffer_from_hex, bind, try_catch.
  destruct (1 <? _)%nat; [|lia].
  destruct (negb _); [|lia].
  cbn [push extractedIds]. rewrite length_app. simpl. lia.
Qed.

Lemma fold_processValue_length (vs : list jsstring) (a : acc) :
  (List.length (extractedIds (fold_left processValue vs a))
   <= List.length (extractedIds a) + List.length vs)%nat.
Proof.
  revert a. induction vs as [|v vs IH]; intros a; simpl; [lia|].
  specialize (IH (processValue a v)). pose proof (processValue_one_more a v). lia.
Qed.

(** X2. Whatever the field, the identifiers returned are exactly those the
    [Extracted] lines of the console name, in order; every line is
    justified by its token (a skipped token begins with [+], an extracted
    identifier is the integer read from the second segment of the text the
    token decodes to); and there are no more identifiers than fragments. *)
Theorem extracted_ids_are_logged (featureValue : value) (a : acc) :
  extractDeviceKitIds featureValue = Normal a ->
  loggedIds (console a) = extractedIds a /\
  Forall justified (console a) /\
  (List.length (extractedIds a)
   <= S (delimiterCount (trim (toString featureValue))))%nat.
Proof.
  unfold extractDeviceKitIds. destruct (falsy featureValue); intros [= <-].
  - cbn. repeat split; [constructor|lia].
  - split; [|split].
    + apply fold_processValue_invariant
        with (P := fun b => loggedIds (console b) = extractedIds b);
        [intros b v; apply processValue_logged|reflexivity].
    + apply fold_processValue_invariant
        with (P := fun b => Forall justified (console b));
        [intros b v; apply processValue_justified|constructor].
    + pose proof (fold_processValue_length (splitValues (toString featureValue))
                    {| extractedIds := []; console := [] |}) as B.
      rewrite length_splitValues in B. exact B.
Qed.

Lemma unhex_hexDigit (v : N) : v < 16 -> unhex (hexDigit v) = Some v.
Proof.
  intros H. unfold hexDigit, unhex.
  destruct (N.ltb_spec v 10) as [A|A].
  - assert (between 48 57 (48 + v) = true) as -> by (apply between_true; lia).
    f_equal. lia.
  - assert (between 48 57 (87 + v) = false) as -> by (apply between_false; lia).
    assert (between 97 102 (87 + v) = true) as -> by (apply between_true; lia).
    f_equal. lia.
Qed.

Lemma byte_digits (b : N) : b < 256 -> b / 16 < 16 /\ b mod 16 < 16 /\ 16 * (b / 16) + b mod 16 = b.
Proof.
  intros H. split; [apply N.Div0.div_lt_upper_bound; lia|].
  split; [apply N.mod_lt; lia|]. symmetry. apply N.div_mod. lia.
Qed.

(** Decoding the hexadecimal text of bytes gives the bytes back. *)
Lemma hexDecode_hexEncode (bytes : list N) :
  forallb isByte bytes = true ->
  hexDecode (hexEncode bytes) = bytes /\ forallb isHexDigit (hexEncode bytes) = true.
Proof.
  induction bytes as [|b bytes IH]; [now split|].
  cbn [forallb hexEncode hexDecode]. intros [Hb Hs]%andb_true_iff.
  apply N.ltb_lt in Hb. destruct (byte_digits b Hb) as (A & B & C).
  destruct (IH Hs) as [E F]. unfold isHexDigit.
  rewrite (hexValue_digit _ _ (unhex_hexDigit _ A)),
          (hexValue_digit _ _ (unhex_hexDigit _ B)).
  rewrite (unhex_hexDigit _ A), (unhex_hexDigit _ B), E, C. split; [reflexivity|exact F].
Qed.

(** The result on a field that is one hex token with an identifier. *)
Lemma extracted_hexToken (t : jsstring) (n : number) :
  hexToken t = true -> identifierOf t = Some n -> extracted (Str t) = Some [n].
Proof.
  intros Ht Id. destruct (hexToken_cons _ Ht) as (c & r & -> & _ & _).
  unfold extracted, extractDeviceKitIds. cbn [falsy toString].
  rewrite splitValues_splitBy, (trim_hexToken _ Ht).
  rewrite (splitBy_none _ _ (hexToken_no_delimiter _ Ht)).
  pose proof (idsOf_validToken _ _ Ht Id) as X. unfold idsOf, empty in X.
  now rewrite X.
Qed.

Lemma toNumber_small (m : N) : m < 2 ^ 53 -> toNumber false m = Int (Z.of_N m).
Proof.
  intros H. unfold toNumber. destruct (N.eqb_spec m 0) as [->|N]; [reflexivity|].
  unfold roundToDouble. apply size_small in H. apply N.leb_le in H. now rewrite H.
Qed.

Lemma digitRun_ascii (ds : list N) :
  digitRun ds = true -> Forall (fun c => c < 128) ds /\ ~ In DOT ds.
Proof.
  intros H. assert (F : forallb (between 48 57) ds = true) by (now destruct ds).
  rewrite forallb_forall in F. split.
  - apply Forall_forall. intros c Hc. specialize (F c Hc). apply between_true in F. lia.
  - intros Hc. specialize (F _ Hc). discriminate.
Qed.

Lemma dotFree_spec (bytes : list N) :
  dotFree bytes = true -> forallb isByte bytes = true /\ ~ In DOT bytes.
Proof.
  unfold dotFree. intros H. rewrite forallb_forall in H. split.
  - apply forallb_forall. intros b Hb. now apply H, andb_true_iff in Hb.
  - intros Hd. apply H, andb_true_iff in Hd as [_ Hd]. discriminate.
Qed.

(** The second segment of [name.digits] and of [name.digits.more]. *)
Lemma second_segment_digits (name ds tail : list N) :
  dotFree name = true -> digitRun ds = true -> segmentTail tail = true ->
  exists p ps, split DOT (toString_utf8 (name ++ DOT :: ds ++ tail)) = p :: ds :: ps.
Proof.
  intros Hn Hd Ht. destruct (dotFree_spec _ Hn) as [_ Nn].
  destruct (digitRun_ascii _ Hd) as [Ad Nd]. unfold toString_utf8.
  rewrite (utf8_run_ascii_byte utf8_init name DOT _ pending_init) by lia.
  rewrite split_first by (apply utf8_run_no_dot; [apply pending_init|exact Nn]).
  destruct tail as [|c tail].
  - rewrite app_nil_r, (utf8_run_ascii _ Ad), (split_none _ _ Nd). eauto.
  - simpl in Ht. apply andb_true_iff in Ht as [Hc _]. apply N.eqb_eq in Hc. subst c.
    rewrite (utf8_run_ascii_byte utf8_init ds DOT tail pending_init) by lia.
    rewrite (utf8_run_ascii _ Ad), (split_first _ _ _ Nd). eauto.
Qed.

Lemma segmentTail_bytes (tail : list N) : segmentTail tail = true -> forallb isByte tail = true.
Proof.
  destruct tail as [|c tail]; [reflexivity|]. simpl.
  intros [Hc Ht]%andb_true_iff. apply N.eqb_eq in Hc. subst c. exact Ht.
Qed.

(** X3. Round trip: the hexadecimal text of [name.digits], or of
    [name.digits.more], gives back the number the digits write, and only
    it, whatever bytes the name is made of, as long as it has no [.] and
    the number is below 2^53. *)
Theorem hex_encoded_identifier_recovered (name ds tail : list N) :
  dotFree name = true -> digitRun ds = true -> segmentTail tail = true ->
  decimal ds < 2 ^ 53 ->
  extracted (Str (hexEncode (name ++ DOT :: ds ++ tail)))
  = Some [Int (Z.of_N (decimal ds))].
Proof.
  intros Hn Hd Ht B.
  assert (Hb : forallb isByte (name ++ DOT :: ds ++ tail) = true).
  { rewrite forallb_app. cbn [forallb]. rewrite forallb_app.
    rewrite (proj1 (dotFree_spec _ Hn)), (segmentTail_bytes _ Ht).
    destruct (digitRun_ascii _ Hd) as [Ad _].
    assert (forallb isByte ds = true) as ->.
    { apply forallb_forall. intros c Hc. rewrite Forall_forall in Ad.
      apply N.ltb_lt. specialize (Ad c Hc). simpl in Ad. lia. }
    reflexivity. }
  destruct (hexDecode_hexEncode _ Hb) as [E F].
  assert (Hh : hexToken (hexEncode (name ++ DOT :: ds ++ tail)) = true).
  { unfold hexToken. destruct (hexEncode _) eqn:X; [|exact F].
    destruct name; discriminate. }
  apply extracted_hexToken; [exact Hh|].
  unfold identifierOf. rewrite E.
  destruct (second_segment_digits name ds tail Hn Hd Ht) as (p & ps & ->).
  cbn [List.length nth Nat.ltb Nat.leb].
  assert (P : parseIntString ds = toNumber false (decimal ds)).
  { apply parseIntString_leading. exists [], [], []. rewrite app_nil_r.
    repeat split; auto; now destruct ds. }
  rewrite P, (toNumber_small _ B). reflexivity.
Qed.

Lemma hex_encoded_identifier_recovered_witness :
  hexEncode (str "Hello" ++ DOT :: str "442" ++ []) = str "48656c6c6f2e343432" /\
  extracted (Str (hexEncode (str "Hello" ++ DOT :: str "442" ++ []))) = Some [Int 442].
Proof.
  split; [reflexivity|].
  apply (hex_encoded_identifier_recovered (str "Hello") (str "442") []);
    reflexivity.
Defined.

Lemma extracted_ids_are_logged_witness :
  loggedIds (console {| extractedIds := [Int 5];
                        console := [Extracted (Int 5) (str "412e35") (str "A.5");
                                    SkippingPlus (str "+1")] |})
  = [Int 5] /\
  Forall justified [Extracted (Int 5) (str "412e35") (str "A.5"); SkippingPlus (str "+1")] /\
  (1 <= S (delimiterCount (trim (toString (Str (str "412e35,+1"))))))%nat.
Proof.
  apply (extracted_ids_are_logged (Str (str "412e35,+1"))
           {| extractedIds := [Int 5];
              console := [Extracted (Int 5) (str "412e35") (str "A.5");
                          SkippingPlus (str "+1")] |}).
  reflexivity.
Defined.

End ExtractorObservations.

(* ================================================================== *)
(** ** More of the SQL decode rule                                     *)
(* ================================================================== *)

Section DecodeRuleObservations.
Import JS Vocabulary Observations.
Local Open Scope N_scope.

Lemma hexDigit_not_space (v : N) : v < 16 -> PG.hex_space (hexDigit v) = false.
Proof.
  intros H. unfold hexDigit, PG.hex_space.
  destruct (N.ltb_spec v 10); cmp_false.
Qed.

Lemma pg_hex_decode_hexEncode (bytes : list N) :
  forallb isByte bytes = true -> PG.hex_decode (hexEncode bytes) = PG.Value bytes.
Proof.
  induction bytes as [|b bytes IH]; [reflexivity|].
  cbn [forallb hexEncode PG.hex_decode]. intros [Hb Hs]%andb_true_iff.
  apply N.ltb_lt in Hb. destruct (byte_digits b Hb) as (A & B & C).
  rewrite (hexDigit_not_space _ A).
  change (PG.get_hex (hexDigit (b / 16))) with (unhex (hexDigit (b / 16))).
  change (PG.get_hex (hexDigit (b mod 16))) with (unhex (hexDigit (b mod 16))).
  now rewrite (unhex_hexDigit _ A), (unhex_hexDigit _ B), (IH Hs), C.
Qed.

Lemma after_field_first (sep : N) (a b : PG.text) :
  ~ In sep a -> PG.after_field sep (a ++ sep :: b) = Some b.
Proof.
  induction a as [|c a IH]; intros N; simpl.
  - now rewrite N.eqb_refl.
  - destruct (N.eqb_spec c sep) as [->|_]; [exfalso; apply N; now left|].
    apply IH. intros H. apply N. now right.
Qed.

Lemma first_field_first (sep : N) (a tail : PG.text) :
  ~ In sep a -> match tail with [] => True | c :: _ => c = sep end ->
  PG.first_field sep (a ++ tail) = a.
Proof.
  induction a as [|c a IH]; intros N T; simpl.
  - destruct tail as [|d tail]; [reflexivity|]. simpl. subst d. now rewrite N.eqb_refl.
  - destruct (N.eqb_spec c sep) as [->|_]; [exfalso; apply N; now left|].
    rewrite IH; [reflexivity| |exact T]. intros H. apply N. now right.
Qed.

Lemma read_digits_run (ds : PG.text) (acc : N) :
  forallb (between ZERO NINE) ds = true ->
  PG.read_digits acc ds = (fold_left (fun a c => a * 10 + (c - ZERO)) ds acc, []).
Proof.
  revert acc. induction ds as [|c ds IH]; intros acc; [reflexivity|].
  cbn [forallb PG.read_digits fold_left]. intros [Hc Hs]%andb_true_iff.
  unfold PG.isdigit. change (PG.between 48 57 c) with (between 48 57 c).
  rewrite Hc. now apply IH.
Qed.

(** The integer input function on a run of digits, on every server. *)
Lemma int4in_digits (v : PG.server) (ds : PG.text) :
  digitRun ds = true -> decimal ds <= 2147483647 ->
  PG.int4in v ds = PG.Value (Z.of_N (decimal ds)).
Proof.
  intros H B. apply int4in_decimal. destruct ds as [|c ds]; [discriminate|].
  assert (F : forallb (between 48 57) (c :: ds) = true) by exact H.
  pose proof F as Fc. simpl in Fc. apply andb_true_iff in Fc as [Fc _].
  pose proof Fc as Rc. apply between_true in Rc.
  cbn [PG.int4in]. unfold PG.pg_strtoint32, PG.sign. cbn [PG.skip_spaces].
  assert (PG.isspace c = false) as ->.
  { unfold PG.isspace. apply orb_false_intro; [apply N.eqb_neq; lia|].
    apply (between_false 9 13 c). lia. }
  assert ((c =? 45) = false) as -> by (apply N.eqb_neq; lia).
  assert ((c =? 43) = false) as -> by (apply N.eqb_neq; lia).
  unfold PG.decimal_number.
  unfold PG.isdigit at 1. change (PG.between 48 57 c) with (between 48 57 c).
  rewrite Fc, (read_digits_run _ 0 F). fold (decimal (c :: ds)).
  assert (((-2147483648 <=? Z.of_N (decimal (c :: ds)))
           && (Z.of_N (decimal (c :: ds)) <=? 2147483647))%Z = true) as ->.
  { apply andb_true_iff. split; apply Z.leb_le; lia. }
  reflexivity.
Qed.

(** The text [name.digits] and what may follow it is made of bytes. *)
Lemma identifier_bytes (name ds tail : list N) :
  dotFree name = true -> digitRun ds = true -> segmentTail tail = true ->
  forallb isByte (name ++ DOT :: ds ++ tail) = true.
Proof.
  intros Hn Hd Ht. rewrite forallb_app. cbn [forallb]. rewrite forallb_app.
  rewrite (proj1 (dotFree_spec _ Hn)), (segmentTail_bytes _ Ht).
  destruct (digitRun_ascii _ Hd) as [Ad _].
  assert (forallb isByte ds = true) as ->.
  { apply forallb_forall. intros c Hc. rewrite Forall_forall in Ad.
    apply N.ltb_lt. specialize (Ad c Hc). simpl in Ad. lia. }
  reflexivity.
Qed.

(** The second field of [name.digits], and of [name.digits.more], as the
    integer cast reads it. *)
Lemma second_field_integer (v : PG.server) (name ds tail : list N) :
  dotFree name = true -> digitRun ds = true -> segmentTail tail = true ->
  decimal ds <= 2147483647 ->
  PG.int4in v (PG.split_part (name ++ DOT :: ds ++ tail) DOT 2)
  = PG.Value (Z.of_N (decimal ds)).
Proof.
  intros Hn Hd Ht B. cbn [PG.split_part].
  rewrite (after_field_first DOT name _ (proj2 (dotFree_spec _ Hn))).
  rewrite (first_field_first DOT ds tail (proj2 (digitRun_ascii _ Hd))).
  - now apply int4in_digits.
  - destruct tail as [|c tail]; [trivial|]. simpl in Ht.
    apply andb_true_iff in Ht as [Hc _]. now apply N.eqb_eq in Hc.
Qed.

(** X4. Round trip of the SQL rule: on the hexadecimal text of
    [name.digits], or of [name.digits.more], when these bytes are UTF-8
    with no zero byte, the name has no [.] and the number fits 32 bits,
    the [extensions] expression yields the number the digits write, on
    every server. *)
Theorem sql_decodes_hex_encoded_identifier (v : PG.server) (name ds tail : list N) :
  dotFree name = true -> digitRun ds = true -> segmentTail tail = true ->
  PG.utf8_islegal (name ++ DOT :: ds ++ tail) = true ->
  decimal ds <= 2147483647 ->
  PG.extensions_expr v (Some (hexEncode (name ++ DOT :: ds ++ tail)))
  = PG.Value (Some (Z.of_N (decimal ds))).
Proof.
  intros Hn Hd Ht U B.
  pose proof (identifier_bytes _ _ _ Hn Hd Ht) as Hb.
  unfold PG.extensions_expr.
  destruct (hexEncode (name ++ DOT :: ds ++ tail)) as [|h hs] eqn:E.
  { destruct name; discriminate. }
  assert (P : PG.starts_with_plus (h :: hs) = false).
  { destruct (hexDecode_hexEncode _ Hb) as [_ F]. rewrite E in F.
    simpl in F. apply andb_true_iff in F as [F _]. simpl.
    now apply hexDigit_not_plus. }
  rewrite P, <- E, (pg_hex_decode_hexEncode _ Hb).
  unfold PG.convert_from_utf8. rewrite U.
  now rewrite (second_field_integer v _ _ _ Hn Hd Ht B).
Qed.

Lemma sql_decodes_hex_encoded_identifier_witness :
  PG.extensions_expr PG.From16
    (Some (hexEncode (str "Hello" ++ DOT :: str "442" ++ str ".x")))
  = PG.Value (Some 442%Z).
Proof.
  apply (sql_decodes_hex_encoded_identifier PG.From16
           (str "Hello") (str "442") (str ".x"));
    try reflexivity. cbn. lia.
Defined.

End DecodeRuleObservations.

(* ================================================================== *)
(** ** More of the Loader: the two strategies on any records           *)
(* ================================================================== *)

Section StrategyRuns.
Import JS Loader Vocabulary Strategy.
Variable sch : schema.

(** The first rejected record of records that are not all accepted. *)
Lemma first_rejected (records : list processedRow) :
  accepted sch records = false ->
  exists before bad after,
    records = before ++ bad :: after /\
    accepted sch before = true /\ rejected sch bad = true.
Proof.
  unfold accepted. induction records as [|r records IH]; [discriminate|].
  cbn [forallb]. destruct (rejected sch r) eqn:R; cbn [negb andb].
  - intros _. exists [], r, records. auto.
  - intros H. destruct (IH H) as (before & bad & after & -> & A & B).
    exists (r :: before), bad, after. repeat split; auto.
    cbn [forallb]. now rewrite R.
Qed.

(** A per-row run that meets a rejected record. *)
Lemma insertDataToDatabase_rejected (before : list processedRow) (bad : processedRow)
    (after : list processedRow) (t : table) (now : Z) (out : list event) :
  accepted sch before = true -> rejected sch bad = true ->
  exists message,
  insertDataToDatabase sch (before ++ bad :: after) (fresh t now out)
  = (fresh t now
       (out ++ (ErrorInserting (account_id bad) message
                :: map (fun r => ErrorInserting (account_id r) aborted_message) after)
            ++ [Processed (List.length before) (S (List.length after))]),
     Normal tt).
Proof.
  intros A R. destruct (accepted_bind sch _ A) as (es & B & Rs).
  destruct (insertEach_rejected sch bad after R
              {| successCount := 0 + List.length before; errorCount := 0 |}
              t now now
              (fold_left (fun t e => upsert sch now e t) es t) out)
    as [message E].
  exists message.
  unfold insertDataToDatabase, fresh, idle, try_, mbind, client_query, print.
  cbn [db console query state]. unfold with_state. cbn [committed clock].
  rewrite insertEach_app. unfold mbind.
  rewrite (insertEach_accepted sch before es B Rs). cbn [successCount errorCount].
  rewrite E. cbn.
  now rewrite <- !app_assoc.
Qed.

(** The table and the completion of a per-row run on any records. *)
Lemma insertDataToDatabase_table (records : list processedRow) (t : table) (now : Z)
    (out : list event) :
  exists out',
    insertDataToDatabase sch records (fresh t now out)
    = (fresh (if accepted sch records then loaded sch now records t else t) now out',
       Normal tt) /\
    exists s e, last out' (Processed 0 0) = Processed s e /\
                (e = 0%nat <-> accepted sch records = true).
Proof.
  destruct (accepted sch records) eqn:A.
  - rewrite (insertDataToDatabase_accepted sch _ t now out A).
    eexists. split; [reflexivity|]. rewrite last_last. eexists _, _.
    split; [reflexivity|]. tauto.
  - destruct (first_rejected _ A) as (before & bad & after & -> & Ab & Rb).
    destruct (insertDataToDatabase_rejected before bad after t now out Ab Rb)
      as [message ->].
    eexists. split; [reflexivity|]. rewrite app_assoc, last_last. eexists _, _.
    split; [reflexivity|]. split; discriminate.
Qed.

(** X6. A per-row run on any records never throws and counts every record
    once: it prints one error line for each record it counts as an error
    and ends with the two counts, which add up to the number of records.
    It is all or nothing: when every record is accepted all are written,
    and when one is rejected the table is left as it was. *)
Theorem per_row_run (records : list processedRow) (t : table) (now : Z)
    (out : list event) :
  exists errors,
    insertDataToDatabase sch records (fresh t now out)
    = (fresh (if accepted sch records then loaded sch now records t else t) now
             (out ++ errors
                  ++ [Processed (List.length records - List.length errors)
                                (List.length errors)]),
       Normal tt) /\
    (List.length errors <= List.length records)%nat /\
    (errors = [] <-> accepted sch records = true) /\
    Forall (fun e => exists id message, e = ErrorInserting id message) errors.
Proof.
  destruct (accepted sch records) eqn:A.
  - exists []. rewrite (insertDataToDatabase_accepted sch _ t now out A).
    cbn [List.length app]. rewrite Nat.sub_0_r. repeat split; auto. lia.
  - destruct (first_rejected _ A) as (before & bad & after & -> & Ab & Rb).
    destruct (insertDataToDatabase_rejected before bad after t now out Ab Rb)
      as [message E].
    exists (ErrorInserting (account_id bad) message
            :: map (fun r => ErrorInserting (account_id r) aborted_message) after).
    rewrite E. cbn [List.length]. rewrite length_map, length_app. cbn [List.length].
    replace (List.length before + S (List.length after) - S (List.length after))%nat
      with (List.length before) by lia.
    repeat split; try discriminate; try lia.
    constructor; [eauto|]. apply Forall_forall. intros e He.
    apply in_map_iff in He as (r & <- & _). eauto.
Qed.

(** A batch run on records one statement cannot write. *)
Lemma batchInsertDataToDatabase_refused (records : list processedRow) (t : table)
    (now : Z) (out : list event) :
  batchable sch records = false ->
  exists message,
  batchInsertDataToDatabase sch records (fresh t now out)
  = (fresh t now (out ++ [ErrorDuringBatch message]), Throw message).
Proof.
  intros H.
  assert (F : bindable records = true ->
              match bind_records records with
              | None => True
              | Some es => insert_rows sch now es t = None
              end).
  { intros P. destruct records as [|r records]; [reflexivity|].
    unfold batchable in H. rewrite P in H. cbn [andb] in H.
    apply andb_false_iff in H as [H|H].
    - destruct (first_rejected _ H) as (before & bad & after & E & _ & Rb).
      apply insert_rejected. rewrite E, existsb_app. cbn [existsb].
      rewrite Rb. now rewrite orb_true_r.
    - unfold proposed in H. destruct (bind_records (r :: records)) as [es|]; [|trivial].
      unfold insert_rows. rewrite H. destruct es; [reflexivity|].
      now destruct (existsb (refuses sch) (e :: es)). }
  unfold batchInsertDataToDatabase, fresh, idle, try_, mbind, client_query, print, throw.
  cbn [db console query state]. unfold with_state. cbn [db console query committed clock state].
  destruct (bindable records); cbn [negb]; [|eexists; reflexivity].
  specialize (F eq_refl). destruct (bind_records records) as [es|].
  - rewrite F. eexists. reflexivity.
  - eexists. reflexivity.
Qed.

(** X7. A batch run writes all the records or none: it succeeds exactly on
    records that are not empty, are no more than the parameters of one
    statement allow (13107 records), are all accepted and have distinct
    keys, and then writes them all; on any other records, the empty list
    included, it throws and leaves the table as it was. *)
Theorem batch_run (records : list processedRow) (t : table) (now : Z)
    (out : list event) :
  (exists message,
     batchInsertDataToDatabase sch records (fresh t now out)
     = if batchable sch records
       then (fresh (loaded sch now records t) now
                   (out ++ [BatchInserted (List.length records)]), Normal tt)
       else (fresh t now (out ++ [ErrorDuringBatch message]), Throw message)) /\
  (batchable sch records = true <->
   records <> [] /\ (N.of_nat (List.length records) <= 13107)%N /\
   accepted sch records = true /\ distinct_keys (proposed records) = true).
Proof.
  split.
  - destruct (batchable sch records) eqn:B.
    + exists []. destruct records as [|r records]; [discriminate|].
      unfold batchable in B.
      apply andb_true_iff in B as [[P A]%andb_true_iff D].
      now apply batchInsertDataToDatabase_accepted.
    + now apply batchInsertDataToDatabase_refused.
  - unfold batchable, bindable. destruct records as [|r records].
    + split; [discriminate|]. now intros [N _].
    + rewrite !andb_true_iff, N.leb_le. split.
      * intros [[P A] D]. repeat split; auto; [discriminate|lia].
      * intros (_ & P & A & D). repeat split; auto. lia.
Qed.

(** X8. On accepted records the per-row run always writes them and
    completes normally. The batch run leaves the same table and completes
    normally exactly when the records are no more than one statement can
    carry (13107) and no two share a key; otherwise it throws and writes
    nothing, where the per-row run has written them. *)
Theorem strategies_agree (records : list processedRow) (t : table) (now : Z)
    (out : list event) :
  accepted sch records = true -> records <> [] ->
  tableAfter (insertDataToDatabase sch records (fresh t now out))
  = loaded sch now records t /\
  snd (insertDataToDatabase sch records (fresh t now out)) = Normal tt /\
  tableAfter (batchInsertDataToDatabase sch records (fresh t now out))
  = (if bindable records && distinct_keys (proposed records)
     then loaded sch now records t else t) /\
  (snd (batchInsertDataToDatabase sch records (fresh t now out)) = Normal tt
   <-> bindable records = true /\ distinct_keys (proposed records) = true).
Proof.
  intros A N.
  rewrite (insertDataToDatabase_accepted sch _ t now out A).
  split; [reflexivity|]. split; [reflexivity|].
  assert (B : batchable sch records
              = bindable records && distinct_keys (proposed records)).
  { unfold batchable. destruct records; [contradiction|].
    rewrite A. now rewrite andb_true_r. }
  destruct (bindable records) eqn:P; destruct (distinct_keys (proposed records)) eqn:D;
    cbn [andb] in *.
  - rewrite (batchInsertDataToDatabase_accepted sch _ t now out P A N D).
    split; [reflexivity|]. split; auto.
  - destruct (batchInsertDataToDatabase_refused records t now out B) as [m ->].
    split; [reflexivity|]. split; [discriminate|intros [_ ?]; discriminate].
  - destruct (batchInsertDataToDatabase_refused records t now out B) as [m ->].
    split; [reflexivity|]. split; [discriminate|intros [? _]; discriminate].
  - destruct (batchInsertDataToDatabase_refused records t now out B) as [m ->].
    split; [reflexivity|]. split; [discriminate|intros [? _]; discriminate].
Qed.

End StrategyRuns.

Section BatchParameters.
Import JS Loader Parameters.

Lemma prepareBatch_snoc (records : list processedRow) (record : processedRow) :
  prepareBatch (records ++ [record]) = addRecord (prepareBatch records) record.
Proof. unfold prepareBatch. now rewrite fold_left_app. Qed.

Lemma placeholder_app (ps more : list param) (k : nat) :
  (k <= List.length ps)%nat -> placeholder (ps ++ more) k = placeholder ps k.
Proof.
  destruct k as [|i]; [reflexivity|]. simpl. intros H.
  apply nth_error_app1. lia.
Qed.

Lemma placeholder_new (ps more : list param) (j : nat) :
  placeholder (ps ++ more) (List.length ps + 1 + j) = nth_error more j.
Proof.
  replace (List.length ps + 1 + j)%nat with (S (List.length ps + j)) by lia.
  simpl. rewrite nth_error_app2 by lia. f_equal. lia.
Qed.

Lemma prepareBatch_invariant (records : list processedRow) :
  List.length (params (prepareBatch records)) = (5 * List.length records)%nat /\
  paramIndex (prepareBatch records) = (5 * List.length records + 1)%nat /\
  Forall (Forall (fun k => (1 <= k <= 5 * List.length records)%nat))
         (values (prepareBatch records)) /\
  map (map (placeholder (params (prepareBatch records)))) (values (prepareBatch records))
  = map (fun r => map Some (recordParams r)) records.
Proof.
  induction records as [|record records (L & I & B & R)] using rev_ind.
  - cbn. repeat split; constructor.
  - rewrite prepareBatch_snoc. unfold addRecord. cbn [params paramIndex values].
    rewrite !length_app. cbn [List.length recordParams]. rewrite L, I.
    split; [lia|]. split; [lia|]. split.
    + apply Forall_app. split.
      * eapply Forall_impl; [|exact B]. intros row Hrow.
        eapply Forall_impl; [|exact Hrow]. cbn. lia.
      * repeat constructor; lia.
    + rewrite !map_app. f_equal.
      * rewrite <- R. apply map_ext_in. intros row Hrow.
        rewrite Forall_forall in B. specialize (B row Hrow).
        apply map_ext_in. intros k Hk. rewrite Forall_forall in B.
        apply placeholder_app. specialize (B k Hk). lia.
      * cbn [map]. rewrite <- L.
        rewrite <- (Nat.add_0_r (List.length (params (prepareBatch records)) + 1)) at 1.
        now rewrite !placeholder_new.
Qed.

(** X9. The batch statement numbers its placeholders so that each stands
    for the right parameter: the placeholders of the i-th [VALUES] row
    stand for the five fields of the i-th record, in column order; there
    are five parameters for each record, and every placeholder is within
    the parameters. *)
Theorem batch_placeholders (records : list processedRow) :
  map (map (placeholder (params (prepareBatch records)))) (values (prepareBatch records))
  = map (fun r => map Some (recordParams r)) records /\
  List.length (params (prepareBatch records)) = (5 * List.length records)%nat /\
  Forall (Forall (fun k => (1 <= k <= List.length (params (prepareBatch records)))%nat))
         (values (prepareBatch records)).
Proof.
  destruct (prepareBatch_invariant records) as (L & _ & B & R).
  split; [exact R|]. split; [exact L|]. now rewrite L.
Qed.

End BatchParameters.

(* ================================================================== *)
(** ** More of the Loader: verification and [main]                     *)
(* ================================================================== *)

Section VerificationFacts.
Import JS Loader Vocabulary Verification.

Lemma insertByKey_perm (r : TargetRecord) (l : table) :
  Permutation (insertByKey r l) (r :: l).
Proof.
  induction l as [|r' l IH]; simpl; [reflexivity|].
  destruct (t_account_id r <=? t_account_id r')%Z; [reflexivity|].
  rewrite IH. apply perm_swap.
Qed.

Lemma orderByAccountId_perm (t : table) : Permutation (orderByAccountId t) t.
Proof.
  induction t as [|r t IH]; simpl; [reflexivity|].
  rewrite insertByKey_perm. now constructor.
Qed.

Lemma insertByKey_sorted (r : TargetRecord) (l : table) :
  Sorted byKey l -> Sorted byKey (insertByKey r l).
Proof.
  induction 1 as [|r' l S IH H]; simpl; [repeat constructor|].
  destruct (Z.leb_spec (t_account_id r) (t_account_id r')) as [L|L].
  - constructor; [now constructor|]. constructor. exact L.
  - constructor; [exact IH|].
    destruct l as [|r'' l]; simpl.
    + constructor. unfold byKey. lia.
    + destruct (t_account_id r <=? t_account_id r'')%Z; constructor.
      * unfold byKey. lia.
      * now inversion H.
Qed.

Lemma orderByAccountId_sorted (t : table) : StronglySorted byKey (orderByAccountId t).
Proof.
  apply Sorted_StronglySorted.
  - intros a b c. unfold byKey. lia.
  - induction t as [|r t IH]; simpl; [constructor|now apply insertByKey_sorted].
Qed.

(** X10. On a connected, idle session verification prints the number of
    rows of the table and then, as sample, the rows with the five smallest
    account identifiers (all rows when there are fewer), in increasing
    order of identifier. *)
Theorem verification_report (d : database) (out : list event) :
  state d = Idle ->
  exists sample rest,
    snd (fst (verifyDataInsertion d out))
    = out ++ [VerificationHeader; TotalRecords (List.length (committed d)); SampleHeader]
          ++ map SampleRecord sample /\
    List.length sample = Nat.min 5 (List.length (committed d)) /\
    Permutation (committed d) (sample ++ rest) /\
    StronglySorted byKey (sample ++ rest).
Proof.
  intros I.
  exists (firstn 5 (orderByAccountId (committed d))),
         (skipn 5 (orderByAccountId (committed d))).
  split; [|split; [|split]].
  - unfold verifyDataInsertion, selectCount, selectSample, visible. rewrite I.
    reflexivity.
  - rewrite length_firstn. now rewrite (Permutation_length (orderByAccountId_perm _)).
  - rewrite firstn_skipn. symmetry. apply orderByAccountId_perm.
  - rewrite firstn_skipn. apply orderByAccountId_sorted.
Qed.

End VerificationFacts.

Section MainFacts.
Import JS Loader Vocabulary Strategy Script Main.
Variable sch : schema.

Lemma loadCsvData_end (rows : list csv_row) :
  loadCsvData rows End = Normal (map onData rows).
Proof.
  unfold loadCsvData. f_equal.
  assert (G : forall acc, fold_left (fun records row => records ++ [onData row]) rows acc
                          = acc ++ map onData rows).
  { induction rows as [|row rows IH]; intros acc; simpl.
    - now rewrite app_nil_r.
    - now rewrite IH, <- app_assoc. }
  apply (G []).
Qed.

(** [main] after a strategy that completed normally on an idle session. *)
Lemma verify_idle (t : table) (now : Z) :
  Verification.verifyDataInsertion (idle t now) []
  = (idle t now,
     [Verification.VerificationHeader; Verification.TotalRecords (List.length t);
      Verification.SampleHeader]
     ++ map Verification.SampleRecord (firstn 5 (Verification.orderByAccountId t)),
     Normal tt).
Proof. reflexivity. Qed.

(** [main] on a file of rows: what it leaves and how it ends. *)
Lemma main_rows (rows : list csv_row) (t : table) (now : Z) :
  rows <> [] ->
  exists out,
    main sch (Some (rows, End)) (idle t now)
    = if fails sch (Some (rows, End))
      then {| Main.database_after := idle t now; Main.printed := out; Main.exit_code := 1 |}
      else {| Main.database_after :=
                idle (if writes sch (Some (rows, End))
                      then loaded sch now (map onData rows) t else t) now;
              Main.printed := out ++ [Main.Completed];
              Main.exit_code := 0 |}.
Proof.
  intros N. unfold main, fails, writes, fileRecords.
  rewrite loadCsvData_end, length_map.
  assert ((List.length rows =? 0)%nat = false) as ->
    by (destruct rows; [contradiction|reflexivity]).
  destruct (100 <? List.length rows)%nat; cbn [andb].
  - change {| db := idle t now; console := [] |} with (fresh t now []).
    destruct (batchable sch (map onData rows)) eqn:B; cbn [negb].
    + pose proof B as B'. unfold batchable in B'.
      destruct (map onData rows) as [|r rs] eqn:E; [discriminate|].
      apply andb_true_iff in B' as [[P A]%andb_true_iff D].
      rewrite (batchInsertDataToDatabase_accepted sch _ t now [] P A) by (auto; discriminate).
      cbn [fst snd db console fresh]. rewrite verify_idle. unfold loaded.
      eexists. rewrite !app_assoc. reflexivity.
    + destruct (batchInsertDataToDatabase_refused sch _ t now [] B) as [m ->].
      cbn [fst snd db console fresh]. unfold Main.failed. eexists. reflexivity.
  - change {| db := idle t now; console := [] |} with (fresh t now []).
    destruct (insertDataToDatabase_table sch (map onData rows) t now []) as (out' & -> & _).
    cbn [fst snd db console fresh]. rewrite verify_idle.
    eexists. rewrite !app_assoc. reflexivity.
Qed.

(** X11. The exit code of the script: it is 1 exactly when the file is
    missing, the stream of rows fails, or more than 100 records go to a
    batch statement that fails (a record is rejected, two share a key, or
    there are more than the 13107 one statement can carry); it is 0
    otherwise, also when a per-row run stored nothing. A run that exits
    with 1 leaves the table as it was. *)
Theorem main_exit_code (file : option (list csv_row * stream_end)) (t : table) (now : Z) :
  Main.exit_code (main sch file (idle t now)) = (if fails sch file then 1 else 0)%nat /\
  (Main.exit_code (main sch file (idle t now)) = 1%nat ->
   committed (Main.database_after (main sch file (idle t now))) = t).
Proof.
  destruct file as [[rows [|m]]|]; try (split; reflexivity).
  destruct rows as [|row rows]; [split; [reflexivity|discriminate]|].
  destruct (main_rows (row :: rows) t now) as [out ->]; [discriminate|].
  destruct (fails sch (Some (row :: rows, End))); split; try reflexivity; discriminate.
Qed.

(** X12. The table after the script: the records of the file are written
    all or not at all. They are all written when the strategy of their
    number accepts them (at most 100 records, all accepted; more than 100
    and at most 13107, all accepted and of distinct keys); otherwise, and
    when there is no file or no row, the table is as it was. The session
    is left idle. *)
Theorem main_table (file : option (list csv_row * stream_end)) (t : table) (now : Z) :
  Main.database_after (main sch file (idle t now))
  = idle (if writes sch file then loaded sch now (fileRecords file) t else t) now.
Proof.
  destruct file as [[rows [|m]]|]; try reflexivity.
  destruct rows as [|row rows]; [reflexivity|].
  destruct (main_rows (row :: rows) t now) as [out ->]; [discriminate|].
  unfold fails, writes, fileRecords. rewrite length_map.
  destruct (100 <? List.length (row :: rows))%nat; cbn [andb]; [|reflexivity].
  now destruct (batchable sch (map onData (row :: rows))).
Qed.

(** X13. With at most 100 rows the script reports success whatever the
    storage did: when a record is rejected it still ends with the line
    [Data migration completed successfully!] and the exit code 0, and the
    table is as it was before the run. *)
Theorem main_reports_success_without_storing (rows : list csv_row) (t : table) (now : Z) :
  rows <> [] -> (List.length rows <= 100)%nat ->
  accepted sch (map onData rows) = false ->
  Main.exit_code (main sch (Some (rows, End)) (idle t now)) = 0%nat /\
  last (Main.printed (main sch (Some (rows, End)) (idle t now))) Main.NoRecords
  = Main.Completed /\
  committed (Main.database_after (main sch (Some (rows, End)) (idle t now))) = t.
Proof.
  intros N L A. destruct (main_rows rows t now N) as [out ->].
  unfold fails, writes, fileRecords. rewrite length_map.
  assert ((100 <? List.length rows)%nat = false) as -> by (apply Nat.ltb_ge; lia).
  cbn [andb]. rewrite A. cbn. rewrite last_last. auto.
Qed.

End MainFacts.

Section LoaderSamples.
Import JS Loader Vocabulary Strategy Script Main.

Lemma strategies_agree_witness :
  accepted permissive
    (map onData [csvRow "850527" "yadav@gmail.com" "18109651265" "48656c6c6f2e343432";
                 csvRow "844559" "yadavmithlesh122@gmail.com" "18209661265" "412e36"])
  = true /\
  tableAfter (insertDataToDatabase permissive
    (map onData [csvRow "850527" "yadav@gmail.com" "18109651265" "48656c6c6f2e343432";
                 csvRow "844559" "yadavmithlesh122@gmail.com" "18209661265" "412e36"])
    (fresh [] 7 []))
  = tableAfter (batchInsertDataToDatabase permissive
    (map onData [csvRow "850527" "yadav@gmail.com" "18109651265" "48656c6c6f2e343432";
                 csvRow "844559" "yadavmithlesh122@gmail.com" "18209661265" "412e36"])
    (fresh [] 7 [])).
Proof.
  split; [reflexivity|].
  destruct (strategies_agree permissive
    (map onData [csvRow "850527" "yadav@gmail.com" "18109651265" "48656c6c6f2e343432";
                 csvRow "844559" "yadavmithlesh122@gmail.com" "18209661265" "412e36"])
    [] 7 []) as (P & _ & B & _); [reflexivity|discriminate|].
  rewrite P, B. reflexivity.
Defined.

Lemma verification_report_witness :
  state (idle [bare 5; bare 3; bare 9; bare 1; bare 7; bare 2] 7) = Idle /\
  exists sample,
    snd (fst (Verification.verifyDataInsertion
                (idle [bare 5; bare 3; bare 9; bare 1; bare 7; bare 2] 7) []))
    = [Verification.VerificationHeader; Verification.TotalRecords 6;
       Verification.SampleHeader] ++ map Verification.SampleRecord sample /\
    map t_account_id sample = [1; 2; 3; 5; 7]%Z.
Proof.
  split; [reflexivity|].
  destruct (verification_report
              (idle [bare 5; bare 3; bare 9; bare 1; bare 7; bare 2] 7) [] eq_refl)
    as (sample & rest & P & L & _).
  exists sample. split; [exact P|].
  cbn in P. injection P as P.
  destruct sample as [|r1 [|r2 [|r3 [|r4 [|r5 [|r6 sample]]]]]]; try discriminate L.
  cbn [map] in P. injection P as <- <- <- <- <-. reflexivity.
Defined.

Lemma main_exit_code_witness :
  fails permissive
    (Some (repeat (csvRow "850527" "yadav@gmail.com" "18109651265" "412e35") 101, End))
  = true /\
  exit_code (main permissive
               (Some (repeat (csvRow "850527" "yadav@gmail.com" "18109651265" "412e35")
                             101, End))
               (idle [bare 1] 7)) = 1%nat /\
  committed (database_after
               (main permissive
                  (Some (repeat (csvRow "850527" "yadav@gmail.com" "18109651265"
                                        "412e35") 101, End))
                  (idle [bare 1] 7))) = [bare 1].
Proof.
  assert (F : fails permissive
                (Some (repeat (csvRow "850527" "yadav@gmail.com" "18109651265" "412e35")
                              101, End)) = true) by (vm_compute; reflexivity).
  destruct (main_exit_code permissive
              (Some (repeat (csvRow "850527" "yadav@gmail.com" "18109651265" "412e35")
                            101, End)) [bare 1] 7) as [E K].
  rewrite F in E. split; [exact F|]. split; [exact E|exact (K E)].
Defined.

Lemma main_reports_success_without_storing_witness :
  accepted permissive (map onData sampleRows) = false /\
  exit_code (main permissive (Some (sampleRows, End)) (idle [] 7)) = 0%nat /\
  last (printed (main permissive (Some (sampleRows, End)) (idle [] 7))) NoRecords
  = Completed /\
  committed (database_after (main permissive (Some (sampleRows, End)) (idle [] 7))) = [].
Proof.
  split; [reflexivity|].
  apply (main_reports_success_without_storing permissive sampleRows [] 7);
    [discriminate | cbn; lia | reflexivity].
Defined.

End LoaderSamples.


(* ================================================================== *)
(** ** More of the Loader: what a run leaves alone                     *)
(* ================================================================== *)

Section Frame.
Import JS Loader Vocabulary Strategy Script Main.
Variable sch : schema.

Lemma proposed_keys (records : list processedRow) (e : excluded) :
  In e (proposed records) -> In (Some (e_account_id e)) (map keyOf records).
Proof.
  unfold proposed.
  assert (G : forall es, bind_records records = Some es ->
                         In e es -> In (Some (e_account_id e)) (map keyOf records)).
  { induction records as [|r rs IH]; cbn [bind_records map]; intros es B I.
    - injection B as <-. destruct I.
    - unfold keyOf at 1. unfold bind_record in B.
      destruct (int4_of_number (account_id r)) as [k|]; [|discriminate].
      destruct (bind_records rs) as [es'|]; [|discriminate].
      injection B as <-. destruct I as [<-|I]; [now left|right; eauto]. }
  destruct (bind_records records) as [es|]; [eauto|intros []].
Qed.

Lemma main_committed (file : option (list csv_row * stream_end)) (t : table) (now : Z) :
  committed (database_after (main sch file (idle t now)))
  = if writes sch file then loaded sch now (fileRecords file) t else t.
Proof.
  destruct file as [[rows [|m]]|]; try reflexivity.
  destruct rows as [|row rows]; [reflexivity|].
  destruct (main_rows sch (row :: rows) t now) as [out ->]; [discriminate|].
  unfold fails, writes, fileRecords. rewrite length_map.
  destruct (100 <? List.length (row :: rows))%nat; cbn [andb]; [|reflexivity].
  now destruct (batchable sch (map onData (row :: rows))).
Qed.

(** X14. What the script leaves alone: whatever the file, a run removes no
    key from the table, leaves the rows of every key that no record of
    the file has exactly as they were, and never gives one key two rows. *)
Theorem main_keeps_other_rows (file : option (list csv_row * stream_end))
    (t : table) (now : Z) :
  (forall k, In k (keys t) ->
             In k (keys (committed (database_after (main sch file (idle t now)))))) /\
  (forall k, ~ In (Some k) (map keyOf (fileRecords file)) ->
             rowsOf k (committed (database_after (main sch file (idle t now))))
             = rowsOf k t) /\
  (NoDup (keys t) ->
   NoDup (keys (committed (database_after (main sch file (idle t now)))))).
Proof.
  rewrite main_committed. destruct (writes sch file); [|auto].
  unfold loaded. split; [|split].
  - intros k. apply keys_applyLoads_incl.
  - intros k N. apply rowsOf_applyLoads_other. apply Forall_forall.
    intros [n e] I. apply in_map_iff in I as (e' & [= <- <-] & I). cbn [snd].
    intros <-. apply N. now apply proposed_keys.
  - apply NoDup_keys_applyLoads.
Qed.

End Frame.

(* ================================================================== *)
(** ** More of the Extractor: the case of hexadecimal digits           *)
(* ================================================================== *)

Section HexCase.
Import JS Extractor Vocabulary Observations.
Local Open Scope N_scope.

Lemma upperHex_white (c : N) : isWhiteSpace (upperHex c) = isWhiteSpace c.
Proof.
  unfold upperHex. destruct (between 97 102 c) eqn:B; [|reflexivity].
  apply between_true in B.
  transitivity false; [|symmetry]; unfold isWhiteSpace; cmp_false.
Qed.

Lemma upperHex_eqb (c d : N) :
  d < 65 \/ 102 < d \/ 70 < d < 97 -> (upperHex c =? d) = (c =? d).
Proof.
  intros D. unfold upperHex. destruct (between 97 102 c) eqn:B; [|reflexivity].
  apply between_true in B. transitivity false; [|symmetry]; apply N.eqb_neq; lia.
Qed.

Lemma upperHex_delimiter (c : N) : isDelimiter (upperHex c) = isDelimiter c.
Proof.
  unfold isDelimiter, delimiters. cbn [existsb].
  rewrite !(upperHex_eqb c) by lia. reflexivity.
Qed.

Lemma upperHex_unhex (c : N) : unhex (upperHex c) = unhex c.
Proof.
  unfold upperHex. destruct (between 97 102 c) eqn:B; [|reflexivity].
  unfold unhex. rewrite B. apply between_true in B.
  assert (between 48 57 c = false) as -> by (apply between_false; lia).
  assert (between 48 57 (c - 32) = false) as -> by (apply between_false; lia).
  assert (between 97 102 (c - 32) = false) as -> by (apply between_false; lia).
  assert (between 65 70 (c - 32) = true) as -> by (apply between_true; lia).
  f_equal. lia.
Qed.

Lemma upperHex_hexValue (c : N) : hexValue (upperHex c) = hexValue c.
Proof.
  unfold hexValue. destruct (between 97 102 c) eqn:B.
  - pose proof B as B'. apply between_true in B'.
    assert (upperHex c < 256) by (unfold upperHex; rewrite B; lia).
    rewrite !N.mod_small by lia. apply upperHex_unhex.
  - unfold upperHex. now rewrite B.
Qed.

Lemma trimStart_upperHex (s : jsstring) :
  trimStart (map upperHex s) = map upperHex (trimStart s).
Proof.
  induction s as [|c s IH]; [reflexivity|]. cbn [map trimStart].
  rewrite upperHex_white. now destruct (isWhiteSpace c).
Qed.

Lemma trim_upperHex (s : jsstring) : trim (map upperHex s) = map upperHex (trim s).
Proof.
  unfold trim, trimEnd.
  now rewrite trimStart_upperHex, <- map_rev, trimStart_upperHex, map_rev.
Qed.

Lemma splitBy_upperHex (s : jsstring) :
  splitBy isDelimiter (map upperHex s) = map (map upperHex) (splitBy isDelimiter s).
Proof.
  induction s as [|c s IH]; [reflexivity|]. cbn [map splitBy].
  rewrite upperHex_delimiter, IH.
  destruct (isDelimiter c); [reflexivity|].
  now destruct (splitBy isDelimiter s).
Qed.

Lemma hexDecode_upperHex (s : jsstring) : hexDecode (map upperHex s) = hexDecode s.
Proof.
  assert (G : hexDecode (map upperHex s) = hexDecode s /\
              forall a, hexDecode (map upperHex (a :: s)) = hexDecode (a :: s)).
  { induction s as [|b s [IH1 IH2]]; [split; reflexivity|].
    split; [apply IH2|]. intros a. cbn [map hexDecode].
    now rewrite !upperHex_hexValue, IH1. }
  apply G.
Qed.

Lemma processValue_upperHex (a a' : acc) (v : jsstring) :
  extractedIds a' = extractedIds a ->
  extractedIds (processValue a' (map upperHex v)) = extractedIds (processValue a v).
Proof.
  intros H. unfold processValue. rewrite trim_upperHex.
  destruct (trim v) as [|c t]; [exact H|].
  change (map upperHex (c :: t)) with (upperHex c :: map upperHex t) at 1.
  cbv iota. change (upperHex c :: map upperHex t) with (map upperHex (c :: t)).
  assert (startsWith PLUS (map upperHex (c :: t)) = startsWith PLUS (c :: t)) as ->
    by (cbn [map startsWith]; apply upperHex_eqb; lia).
  destruct (startsWith PLUS (c :: t)); [exact H|].
  unfold decodeToken, Buffer_from_hex, bind, try_catch.
  rewrite hexDecode_upperHex.
  destruct (1 <? _)%nat; [|exact H].
  destruct (negb _); [|exact H].
  unfold push. cbn [extractedIds]. now rewrite H.
Qed.

Lemma fold_processValue_upperHex (vs : list jsstring) (a a' : acc) :
  extractedIds a' = extractedIds a ->
  extractedIds (fold_left processValue (map (map upperHex) vs) a')
  = extractedIds (fold_left processValue vs a).
Proof.
  revert a a'. induction vs as [|v vs IH]; intros a a' H; [exact H|].
  cbn [map fold_left]. apply IH. now apply processValue_upperHex.
Qed.

Lemma extracted_upperHex (s : jsstring) :
  extracted (Str (map upperHex s)) = extracted (Str s).
Proof.
  unfold extracted, extractDeviceKitIds.
  assert (falsy (Str (map upperHex s)) = falsy (Str s)) as -> by (now destruct s).
  destruct (falsy (Str s)); [reflexivity|]. f_equal.
  cbn [toString]. rewrite !splitValues_splitBy, trim_upperHex, splitBy_upperHex.
  now apply fold_processValue_upperHex.
Qed.

(** X15. The identifiers do not depend on the case of the hexadecimal
    digits: two fields that differ only in the case of the letters [a] to
    [f] give the same identifiers, in the same order. *)
Theorem extraction_ignores_hex_case (s s' : jsstring) :
  map upperHex s = map upperHex s' ->
  extracted (Str s) = extracted (Str s').
Proof.
  intros E. rewrite <- (extracted_upperHex s), <- (extracted_upperHex s').
  now rewrite E.
Qed.

Lemma extraction_ignores_hex_case_witness :
  map upperHex (str "412e35,4A2E37") = map upperHex (str "412E35,4a2e37") /\
  extracted (Str (str "412e35,4A2E37")) = extracted (Str (str "412E35,4a2e37")).
Proof.
  split; [reflexivity|].
  apply (extraction_ignores_hex_case (str "412e35,4A2E37") (str "412E35,4a2e37")).
  reflexivity.
Defined.

End HexCase.

(* ================================================================== *)
(** ** More of the SQL variant: the statement as a whole               *)
(* ================================================================== *)

Section SqlStatement.
Import JS Loader Vocabulary Sql.
Variable sch : schema.
Variable v : PG.server.

Lemma select_rows_raise (rows : list temp_row) (r : temp_row) (e : PG.sql_error) :
  In r rows -> PG.extensions_expr v (tmp_feature_value r) = PG.Raise e ->
  exists e', select_rows v rows = PG.Raise e'.
Proof.
  intros I R. induction rows as [|r' rows IH]; [destruct I|].
  cbn [select_rows]. destruct I as [->|I].
  - unfold select_row. rewrite R. eauto.
  - destruct (IH I) as [e' ->]. destruct (select_row v r'); eauto.
Qed.

Lemma select_rows_value (rows : list temp_row) (es : list excluded) (r : temp_row) :
  select_rows v rows = PG.Value es -> In r rows ->
  exists ext e l1 l2,
    PG.extensions_expr v (tmp_feature_value r) = PG.Value ext /\
    es = l1 ++ e :: l2 /\
    e_account_id e = tmp_account_id r /\
    e_extensions e = extensions_cell ext /\
    e_emails e = text_cell (tmp_emails r) /\
    e_phone_numbers e = text_cell (tmp_phone_numbers r).
Proof.
  revert es. induction rows as [|r' rows IH]; intros es S I; [destruct I|].
  cbn [select_rows] in S.
  destruct (select_row v r') as [x|] eqn:X; [|discriminate].
  destruct (select_rows v rows) as [xs|]; [|discriminate].
  injection S as <-. destruct I as [->|I].
  - unfold select_row in X.
    destruct (PG.extensions_expr v (tmp_feature_value r)) as [ext|]; [|discriminate].
    injection X as <-. exists ext. eexists. exists [], xs.
    split; [reflexivity|]. split; [reflexivity|]. repeat split.
  - destruct (IH xs eq_refl I) as (ext & e & l1 & l2 & E & -> & K).
    exists ext, e, (x :: l1), l2. split; [exact E|]. split; [reflexivity|exact K].
Qed.

Lemma distinct_keys_after (l1 l2 : list excluded) (e : excluded) :
  distinct_keys (l1 ++ e :: l2) = true ->
  Forall (fun e' => e_account_id e' <> e_account_id e) l2.
Proof.
  induction l1 as [|x l1 IH]; cbn [app distinct_keys];
    intros [N D]%andb_true_iff; [|auto].
  apply negb_true_iff in N. apply Forall_forall. intros e' I E.
  assert (existsb (fun e' => (e_account_id e' =? e_account_id e)%Z) l2 = true);
    [|congruence].
  apply existsb_exists. exists e'. split; [exact I|now apply Z.eqb_eq].
Qed.

(** X16. The SQL load is one statement, and all or nothing. One row of the
    temporary table whose [extensions] expression raises makes it fail,
    and nothing is stored. When it succeeds on a table of distinct keys,
    every row of the temporary table has exactly one row under its key,
    with the value of the expression as [extensions] (the integer or
    NULL) and the row's [emails] and [phone_numbers]. *)
Theorem sql_load_all_or_nothing (rows : list temp_row) (t : table) (now : Z)
    (r : temp_row) :
  In r rows ->
  (forall e, PG.extensions_expr v (tmp_feature_value r) = PG.Raise e ->
             insert_select sch v now rows t = None) /\
  (forall t', insert_select sch v now rows t = Some t' -> NoDup (keys t) ->
     exists ext stored,
       PG.extensions_expr v (tmp_feature_value r) = PG.Value ext /\
       rowsOf (tmp_account_id r) t' = [stored] /\
       t_extensions stored = extensions_cell ext /\
       t_emails stored = text_cell (tmp_emails r) /\
       t_phone_numbers stored = text_cell (tmp_phone_numbers r)).
Proof.
  intros I. split.
  - intros e R. unfold insert_select.
    now destruct (select_rows_raise rows r e I R) as [e' ->].
  - intros t' S ND. unfold insert_select in S.
    destruct (select_rows v rows) as [es|] eqn:V; [|discriminate].
    destruct (select_rows_value rows es r V I)
      as (ext & e & l1 & l2 & E & -> & K & X & M & P).
    assert (S' : insert_rows sch now (l1 ++ e :: l2) t = Some t')
      by (destruct l1; exact S).
    clear S. unfold insert_rows in S'.
    destruct (l1 ++ e :: l2) as [|x xs] eqn:L; [destruct l1; discriminate|].
    rewrite <- L in *. clear L x xs.
    destruct (existsb (refuses sch) _); [discriminate|].
    destruct (distinct_keys _) eqn:D; [|discriminate].
    injection S' as <-. rewrite <- applyLoads_same_time, map_app. cbn [map].
    destruct (applyLoads_last sch (map (pair now) l1) (map (pair now) l2) now e t ND)
      as (stored & R & H & _).
    { apply Forall_map. cbn [snd]. exact (distinct_keys_after _ _ _ D). }
    rewrite K in R. exists ext, stored.
    destruct H as (_ & H1 & H2 & H3 & _). repeat split; congruence.
Qed.

End SqlStatement.

Section MoreSamples.
Import JS Loader Vocabulary Strategy Script Main Sql.

Lemma main_keeps_other_rows_witness :
  ~ In (Some 1%Z) (map keyOf (fileRecords (Some (sampleRows, End)))) /\
  rowsOf 1 (committed (database_after
              (main permissive (Some (sampleRows, End))
                 (idle [ {| t_account_id := 1; t_emails := CNull;
                            t_phone_numbers := CNull; t_extensions := CNull;
                            t_created_by := CNull; t_updated_at := None |} ] 7))))
  = [ {| t_account_id := 1; t_emails := CNull; t_phone_numbers := CNull;
         t_extensions := CNull; t_created_by := CNull; t_updated_at := None |} ].
Proof.
  assert (N : ~ In (Some 1%Z) (map keyOf (fileRecords (Some (sampleRows, End))))).
  { cbv. intros [H|[H|[H|[]]]]; discriminate. }
  split; [exact N|].
  rewrite (proj1 (proj2 (main_keeps_other_rows permissive (Some (sampleRows, End))
                           [ {| t_account_id := 1; t_emails := CNull;
                                t_phone_numbers := CNull; t_extensions := CNull;
                                t_created_by := CNull; t_updated_at := None |} ] 7))
             1%Z N).
  reflexivity.
Defined.

Lemma sql_load_all_or_nothing_witness :
  In {| tmp_account_id := 850527; tmp_feature_value := Some (str "412e35");
        tmp_emails := Some (str "yadav@gmail.com"); tmp_phone_numbers := None |}
     [ {| tmp_account_id := 850527; tmp_feature_value := Some (str "412e35");
          tmp_emails := Some (str "yadav@gmail.com"); tmp_phone_numbers := None |} ] /\
  exists t' stored,
    insert_select permissive PG.From16 7
      [ {| tmp_account_id := 850527; tmp_feature_value := Some (str "412e35");
           tmp_emails := Some (str "yadav@gmail.com"); tmp_phone_numbers := None |} ] []
    = Some t' /\
    rowsOf 850527 t' = [stored] /\
    t_extensions stored = CInt 5 /\
    t_phone_numbers stored = CNull.
Proof.
  split; [left; reflexivity|].
  destruct (proj2 (sql_load_all_or_nothing permissive PG.From16
              [ {| tmp_account_id := 850527; tmp_feature_value := Some (str "412e35");
                   tmp_emails := Some (str "yadav@gmail.com");
                   tmp_phone_numbers := None |} ] [] 7 _ (or_introl eq_refl))
            _ eq_refl (NoDup_nil _))
    as (ext & stored & E & R & X & _ & P).
  eexists. exists stored. split; [reflexivity|]. split; [exact R|].
  split; [|exact P]. rewrite X.
  vm_compute in E. injection E as <-. reflexivity.
Defined.

End MoreSamples.

(* ================================================================== *)
(** ** Loads of distinct keys, once and again                          *)
(* ================================================================== *)

Section Repetition.
Import JS Loader Vocabulary Strategy Sql.
Variable sch : schema.

(** One load of rows of distinct keys. *)
Lemma loads_once (t : table) (now : Z) (es : list excluded) (e : excluded) :
  NoDup (keys t) -> distinct_keys es = true -> In e es ->
  NoDup (keys (applyLoads sch (map (pair now) es) t)) /\
  (forall k, In k (keys t) -> In k (keys (applyLoads sch (map (pair now) es) t))) /\
  exists row,
    rowsOf (e_account_id e) (applyLoads sch (map (pair now) es) t) = [row] /\
    holds row e /\
    (In (e_account_id e) (keys t) -> t_updated_at row = Some now).
Proof.
  intros ND D I.
  split; [now apply NoDup_keys_applyLoads|].
  split; [intros k; apply keys_applyLoads_incl|].
  destruct (in_split _ _ I) as (l1 & l2 & ->).
  rewrite map_app. cbn [map].
  destruct (applyLoads_last sch (map (pair now) l1) (map (pair now) l2) now e t ND)
    as (row & R1 & R2 & R3).
  { apply Forall_map. cbn [snd]. exact (distinct_keys_after _ _ _ D). }
  exists row. split; [exact R1|]. split; [exact R2|]. intros H. apply R3. now left.
Qed.

(** The keys of loaded rows are in the table. *)
Lemma loads_keys (t : table) (now now2 : Z) (es : list excluded) :
  Forall (fun l : Z * excluded =>
            In (e_account_id (snd l)) (keys (applyLoads sch (map (pair now) es) t)))
         (map (pair now2) es).
Proof.
  apply Forall_forall. intros [n e] H. apply in_map_iff in H as (e' & [= <- <-] & He).
  apply keys_applyLoads_loaded. apply Exists_exists. exists (now, e').
  split; [now apply in_map|reflexivity].
Qed.

(** A load of rows of distinct keys, and the same load again. *)
Lemma loads_twice (t : table) (now now2 : Z) (es : list excluded) (e : excluded) :
  NoDup (keys t) -> distinct_keys es = true -> In e es ->
  idempotent e t now (applyLoads sch (map (pair now) es) t) now2
    (applyLoads sch (map (pair now2) es) (applyLoads sch (map (pair now) es) t)).
Proof.
  intros ND D I.
  destruct (loads_once t now es e ND D I) as (ND' & K & row & R1 & R2 & R3).
  split; [exact ND'|]. split; [exact K|]. split; [now exists row|].
  split; [apply keys_applyLoads_same, loads_keys|].
  destruct (loads_once _ now2 es e ND' D I) as (_ & _ & row2 & S1 & S2 & S3).
  exists row2. split; [exact S1|]. split; [exact S2|]. apply S3.
  assert (J : In row (rowsOf (e_account_id e) (applyLoads sch (map (pair now) es) t)))
    by (rewrite R1; now left).
  unfold rowsOf in J. apply filter_In in J as [J E]. apply Z.eqb_eq in E.
  rewrite <- E. unfold keys. now apply in_map.
Qed.

(** The proposed row of a record of a list that binds. *)
Lemma proposed_In (records : list processedRow) (record : processedRow) (e : excluded) :
  accepted sch records = true -> In record records -> bind_record record = Some e ->
  In e (proposed records).
Proof.
  intros A I B. pose proof (proposed_Forall2 sch _ A) as F. clear A.
  set (es := proposed records) in *. clearbody es.
  induction F as [|r x rs xs Hr F IH]; [destruct I|].
  destruct I as [->|I]; [left; congruence|right; now apply IH].
Qed.

(** A statement of the SQL variant that succeeds writes the rows it
    selects, which have distinct keys, and succeeds on any table at any
    time. *)
Lemma insert_select_loads (v : PG.server) (now : Z) (rows : list temp_row)
    (t t' : table) :
  insert_select sch v now rows t = Some t' ->
  exists es, select_rows v rows = PG.Value es /\ distinct_keys es = true /\
    t' = applyLoads sch (map (pair now) es) t /\
    forall now2 t2, insert_select sch v now2 rows t2
                    = Some (applyLoads sch (map (pair now2) es) t2).
Proof.
  unfold insert_select. destruct (select_rows v rows) as [es|]; [|discriminate].
  intros S. exists es. split; [reflexivity|].
  destruct es as [|e es].
  - injection S as <-. repeat split.
  - unfold insert_rows in *.
    destruct (existsb (refuses sch) (e :: es)); [discriminate|].
    destruct (distinct_keys (e :: es)); [|discriminate].
    injection S as <-. split; [reflexivity|].
    split; [now rewrite applyLoads_same_time|].
    intros now2 t2. now rewrite applyLoads_same_time.
Qed.

(** The row the statement selects for a row of the temporary table. *)
Lemma select_rows_In (v : PG.server) (rows : list temp_row) (es : list excluded)
    (r : temp_row) :
  select_rows v rows = PG.Value es -> In r rows ->
  exists e, select_row v r = PG.Value e /\ In e es.
Proof.
  revert es. induction rows as [|r' rows IH]; intros es S I; [destruct I|].
  cbn [select_rows] in S.
  destruct (select_row v r') as [x|] eqn:X; [|discriminate].
  destruct (select_rows v rows) as [xs|]; [|discriminate].
  injection S as <-. destruct I as [->|I].
  - exists x. split; [exact X|now left].
  - destruct (IH xs eq_refl I) as (e & E & J). exists e. split; [exact E|now right].
Qed.

(** C7. Every load that succeeds is idempotent for the account
    identifiers it writes, over a table of distinct keys. A per-row run on
    accepted records, a batch run on records one statement can write, and
    the statement of the SQL variant each leave distinct keys, lose no key,
    and leave exactly one row for the identifier of a record, with the
    fields of the (last) record of that identifier, stamped with the time
    of the load when the identifier was there before; the same load again
    adds no row and stamps that row with its own time. Within one per-row
    run an identifier may come twice, and the row then carries the time of
    the run; a batch run and the SQL statement require distinct
    identifiers. *)
Theorem load_idempotent (t : table) (now now2 : Z) :
  NoDup (keys t) ->
  (forall out out2 earlier record later e,
     accepted sch (earlier ++ record :: later) = true ->
     bind_record record = Some e ->
     Forall (fun r => keyOf r <> Some (e_account_id e)) later ->
     idempotent e t now
       (tableAfter (insertDataToDatabase sch (earlier ++ record :: later)
                      (fresh t now out)))
       now2
       (tableAfter (insertDataToDatabase sch (earlier ++ record :: later)
                      (fresh (tableAfter (insertDataToDatabase sch
                                            (earlier ++ record :: later)
                                            (fresh t now out)))
                             now2 out2))) /\
     (Exists (fun r => keyOf r = Some (e_account_id e)) earlier ->
      exists row,
        rowsOf (e_account_id e)
          (tableAfter (insertDataToDatabase sch (earlier ++ record :: later)
                         (fresh t now out))) = [row] /\
        t_updated_at row = Some now)) /\
  (forall out out2 records record e,
     batchable sch records = true -> In record records ->
     bind_record record = Some e ->
     idempotent e t now
       (tableAfter (batchInsertDataToDatabase sch records (fresh t now out)))
       now2
       (tableAfter (batchInsertDataToDatabase sch records
                      (fresh (tableAfter (batchInsertDataToDatabase sch records
                                            (fresh t now out)))
                             now2 out2)))) /\
  (forall v rows r t',
     In r rows -> insert_select sch v now rows t = Some t' ->
     exists e t'',
       select_row v r = PG.Value e /\
       insert_select sch v now2 rows t' = Some t'' /\
       idempotent e t now t' now2 t'').
Proof.
  intros ND. split; [|split].
  - intros out out2 earlier record later e A Er Hl.
    rewrite (insertDataToDatabase_accepted sch _ t now out A), tableAfter_fresh.
    rewrite (insertDataToDatabase_accepted sch _ _ now2 out2 A), tableAfter_fresh.
    destruct (proposed_last_record sch t now _ _ _ e ND A Er Hl)
      as (ND' & K & row & R1 & R2 & R3).
    assert (J : In (e_account_id e)
                   (keys (applyLoads sch (map (pair now)
                            (proposed (earlier ++ record :: later))) t))).
    { assert (J : In row (rowsOf (e_account_id e)
                            (applyLoads sch (map (pair now)
                               (proposed (earlier ++ record :: later))) t)))
        by (rewrite R1; now left).
      unfold rowsOf in J. apply filter_In in J as [J E]. apply Z.eqb_eq in E.
      rewrite <- E. unfold keys. now apply in_map. }
    destruct (proposed_last_record sch _ now2 _ _ _ e ND' A Er Hl)
      as (_ & _ & row2 & S1 & S2 & S3).
    split.
    + split; [exact ND'|]. split; [exact K|].
      split.
      { exists row. split; [exact R1|]. split; [exact R2|].
        intros H. apply R3. now left. }
      split; [apply keys_applyLoads_same, proposed_keys_loaded|].
      exists row2. split; [exact S1|]. split; [exact S2|]. apply S3. now left.
    + intros X. exists row. split; [exact R1|]. apply R3. now right.
  - intros out out2 records record e B I Er.
    destruct records as [|r0 rs]; [destruct I|].
    pose proof B as B'. unfold batchable in B'.
    apply andb_true_iff in B' as [[P A]%andb_true_iff D].
    assert (N : r0 :: rs <> []) by discriminate.
    rewrite (batchInsertDataToDatabase_accepted sch _ t now out P A N D),
            tableAfter_fresh.
    rewrite (batchInsertDataToDatabase_accepted sch _ _ now2 out2 P A N D),
            tableAfter_fresh.
    apply loads_twice; [exact ND|exact D|].
    now apply proposed_In with (record := record).
  - intros v rows r t' I S.
    destruct (insert_select_loads v now rows t t' S) as (es & V & D & -> & Again).
    destruct (select_rows_In v rows es r V I) as (e & E & J).
    exists e. eexists. split; [exact E|]. split; [apply Again|].
    now apply loads_twice.
Qed.

End Repetition.

Section RepetitionSamples.
Import JS Loader Vocabulary Strategy Sql.

Lemma load_idempotent_witness :
  NoDup (keys []) /\
  (exists row,
     rowsOf 850527
       (tableAfter (insertDataToDatabase permissive
          ([onData (csvRow "850527" "yadav@gmail.com" "18109651265" "412e35")]
           ++ onData (csvRow "850527" "yadav@gmail.com" "18109651265" "412e35") :: [])
          (fresh
             (tableAfter (insertDataToDatabase permissive
                ([onData (csvRow "850527" "yadav@gmail.com" "18109651265" "412e35")]
                 ++ onData (csvRow "850527" "yadav@gmail.com" "18109651265" "412e35")
                 :: [])
                (fresh [] 7 [])))
             9 []))) = [row] /\
     t_extensions row = CText (str "412e35") /\
     t_updated_at row = Some 9%Z) /\
  (exists row,
     rowsOf 844559
       (tableAfter (batchInsertDataToDatabase permissive
          [onData (csvRow "850527" "yadav@gmail.com" "18109651265" "412e35");
           onData (csvRow "844559" "yadavmithlesh122@gmail.com" "18209661265" "412e36")]
          (fresh
             (tableAfter (batchInsertDataToDatabase permissive
                [onData (csvRow "850527" "yadav@gmail.com" "18109651265" "412e35");
                 onData (csvRow "844559" "yadavmithlesh122@gmail.com" "18209661265"
                                "412e36")]
                (fresh [] 7 [])))
             9 []))) = [row] /\
     t_updated_at row = Some 9%Z) /\
  (exists t' t'' row,
     insert_select permissive PG.From16 7
       [ {| tmp_account_id := 850527; tmp_feature_value := Some (str "412e35");
            tmp_emails := Some (str "yadav@gmail.com"); tmp_phone_numbers := None |} ]
       [] = Some t' /\
     insert_select permissive PG.From16 9
       [ {| tmp_account_id := 850527; tmp_feature_value := Some (str "412e35");
            tmp_emails := Some (str "yadav@gmail.com"); tmp_phone_numbers := None |} ]
       t' = Some t'' /\
     rowsOf 850527 t'' = [row] /\ t_updated_at row = Some 9%Z).
Proof.
  destruct (load_idempotent permissive [] 7 9 (NoDup_nil _)) as (PerRow & Batch & Statement).
  split; [constructor|]. split; [|split].
  - destruct (PerRow [] []
                [onData (csvRow "850527" "yadav@gmail.com" "18109651265" "412e35")]
                (onData (csvRow "850527" "yadav@gmail.com" "18109651265" "412e35")) []
                {| e_account_id := 850527;
                   e_emails := CText (str "yadav@gmail.com");
                   e_phone_numbers := CText (str "18109651265");
                   e_extensions := CText (str "412e35");
                   e_created_by := CText (str "By system") |}
                eq_refl eq_refl (Forall_nil _))
      as ((_ & _ & _ & _ & row & R1 & R2 & R3) & _).
    exists row. split; [exact R1|]. split; [|exact R3].
    destruct R2 as (_ & _ & _ & R2 & _). exact R2.
  - destruct (Batch [] []
                [onData (csvRow "850527" "yadav@gmail.com" "18109651265" "412e35");
                 onData (csvRow "844559" "yadavmithlesh122@gmail.com" "18209661265"
                                "412e36")]
                (onData (csvRow "844559" "yadavmithlesh122@gmail.com" "18209661265"
                                "412e36"))
                {| e_account_id := 844559;
                   e_emails := CText (str "yadavmithlesh122@gmail.com");
                   e_phone_numbers := CText (str "18209661265");
                   e_extensions := CText (str "412e36");
                   e_created_by := CText (str "By system") |}
                eq_refl (or_intror (or_introl eq_refl)) eq_refl)
      as (_ & _ & _ & _ & row & R1 & _ & R3).
    exists row. split; [exact R1|exact R3].
  - destruct (Statement PG.From16
                [ {| tmp_account_id := 850527; tmp_feature_value := Some (str "412e35");
                     tmp_emails := Some (str "yadav@gmail.com");
                     tmp_phone_numbers := None |} ]
                _ _ (or_introl eq_refl) eq_refl)
      as (e & t'' & E & S & _ & _ & _ & _ & row & R1 & _ & R3).
    eexists. exists t'', row. split; [reflexivity|]. split; [exact S|].
    split; [|exact R3]. vm_compute in E. injection E as <-. exact R1.
Defined.

(** C7, as stated, fails where the same account identifier comes twice in
    one statement: the batch run on two records of one identifier throws
    and stores no row, and so does the statement of the SQL variant on two
    rows of one identifier, where the per-row run leaves one row. *)
Lemma same_identifier_twice_in_one_statement :
  batchInsertDataToDatabase permissive
    [onData (csvRow "850527" "yadav@gmail.com" "18109651265" "412e35");
     onData (csvRow "850527" "yadav@gmail.com" "18109651265" "412e35")]
    (fresh [] 7 [])
  = (fresh [] 7 [ErrorDuringBatch (str "statement failed")],
     Throw (str "statement failed")) /\
  (forall v,
     insert_select permissive v 7
       [ {| tmp_account_id := 850527; tmp_feature_value := Some (str "412e35");
            tmp_emails := Some (str "yadav@gmail.com"); tmp_phone_numbers := None |};
         {| tmp_account_id := 850527; tmp_feature_value := Some (str "412e35");
            tmp_emails := Some (str "yadav@gmail.com"); tmp_phone_numbers := None |} ]
       [] = None) /\
  keys (tableAfter (insertDataToDatabase permissive
          [onData (csvRow "850527" "yadav@gmail.com" "18109651265" "412e35");
           onData (csvRow "850527" "yadav@gmail.com" "18109651265" "412e35")]
          (fresh [] 7 []))) = [850527%Z].
Proof.
  split; [reflexivity|]. split; [now intros []|reflexivity].
Qed.

End RepetitionSamples.

(* ================================================================== *)
(** ** What each variant writes to the extensions column               *)
(* ================================================================== *)

Section ExtensionsColumn.
Import JS Loader Vocabulary Observations Strategy Sql.
Local Open Scope N_scope.
Variable sch : schema.



End ExtensionsColumn.

Section ExtensionsSamples.
Import JS Loader Vocabulary Observations Strategy Sql.


End ExtensionsSamples.
